(** * Baum-Welch re-estimation for discrete hidden Markov models

    Shallow embedding of the notebook [HMM Baum-Welch PyTorch .ipynb]:
    the three frequency-count initialisers, the forward and backward
    recursions, the posterior tables (gammas, summed zetas) and the
    re-estimation step.

    Conventions of the embedding.
    - A [float64] tensor entry is a value of an abstract number type [F]
      with the operations the notebook uses ([Num]).  Statements about the
      shape of a recurrence need at most commutativity of the product;
      statements about sums being equal to one are stated for exact
      arithmetic ([NumLaws]), with the canonical rationals [Qc] as the
      executable instance; binary64 ([float_Num]) is an instance of [Num]
      that does not satisfy these laws.  A sum ([torch.sum], [torch.matmul]) adds its
      terms from the last to the first, starting from zero; torch leaves the
      order open, and in exact arithmetic it does not matter.
    - A 1-D tensor is a list, a 2-D tensor is the list of its rows.  A
      tensor with no row therefore has no column either.
    - Python exceptions are values of [error]; every operation that can
      raise returns a [result].  Division of tensor entries never raises
      (torch yields [inf] or [nan]); it is the [div] of the number type.
    - The ambient variables of the notebook (the tensors the functions read
      and write without receiving them) are the fields of [globals]; a
      function that assigns into one of them returns the updated record
      together with its result, which is that same tensor. *)

From Stdlib Require Import List ZArith Lia Bool PeanoNat Ring Permutation.
From Stdlib Require Import Sorted.
From Stdlib Require Import QArith Qcanon Qround.
From Stdlib Require Floats.
Import ListNotations.

Close Scope Qc_scope.
Close Scope Q_scope.

(** ** Numbers *)

Class Num (F : Type) : Type := {
  zero : F;
  one : F;
  add : F -> F -> F;
  mul : F -> F -> F;
  div : F -> F -> F;
  of_Z : Z -> F
}.

(** Exact arithmetic: a commutative semiring in which [div a b] is [a] times
    the inverse of [b]. *)
Class NumLaws (F : Type) `{Num F} : Prop := {
  add_0_l : forall a, add zero a = a;
  add_comm : forall a b, add a b = add b a;
  add_assoc : forall a b c, add a (add b c) = add (add a b) c;
  mul_1_l : forall a, mul one a = a;
  mul_0_l : forall a, mul zero a = zero;
  mul_comm : forall a b, mul a b = mul b a;
  mul_assoc : forall a b c, mul a (mul b c) = mul (mul a b) c;
  mul_add_distr_r : forall a b c, mul (add a b) c = add (mul a c) (mul b c);
  div_inv : forall a b, div a b = mul a (div one b);
  div_self : forall b, b <> zero -> div b b = one
}.

#[export] Instance Qc_Num : Num Qc := {
  zero := Q2Qc 0%Q;
  one := Q2Qc 1%Q;
  add := Qcplus;
  mul := Qcmult;
  div := Qcdiv;
  of_Z := fun z => Q2Qc (inject_Z z)
}.

(** ** Exceptions *)

Inductive error : Type :=
| IndexError          (* Python / torch index out of range *)
| ValueError          (* torch: an index that does not fit int64 *)
| ShapeError          (* torch RuntimeError: sizes do not broadcast or match *)
| EmptyStackError     (* torch RuntimeError: stack expects a non-empty list *)
| IndexSelectError    (* torch RuntimeError: index_select out of range *)
| ZeroDivisionError.  (* Python int / int with a zero divisor *)

Inductive result (X : Type) : Type :=
| Ok (x : X)
| Err (e : error).

Arguments Ok {X} x.
Arguments Err {X} e.

Definition bind {X Y : Type} (c : result X) (k : X -> result Y) : result Y :=
  match c with
  | Ok x => k x
  | Err e => Err e
  end.

Declare Scope result_scope.
Delimit Scope result_scope with result.
Notation "x <- c ;; k" := (bind c (fun x => k))
  (at level 61, c at next level, right associativity) : result_scope.
Notation "' p <- c ;; k" := (bind c (fun x => let p := x in k))
  (at level 61, p pattern, c at next level, right associativity) : result_scope.
Open Scope result_scope.

Fixpoint mapM {X Y : Type} (f : X -> result Y) (l : list X) : result (list Y) :=
  match l with
  | [] => Ok []
  | x :: l' => y <- f x ;; ys <- mapM f l' ;; Ok (y :: ys)
  end.

Fixpoint foldM {S X : Type} (f : S -> X -> result S) (l : list X) (s : S)
  : result S :=
  match l with
  | [] => Ok s
  | x :: l' => s' <- f s x ;; foldM f l' s'
  end.

(** ** Python sequences *)

(** [a[i]] on a sequence of length [len]: negative indices count from the
    end. *)
Definition py_index (len : nat) (i : Z) : result nat :=
  if (0 <=? i)%Z && (i <? Z.of_nat len)%Z then Ok (Z.to_nat i)
  else if (- Z.of_nat len <=? i)%Z && (i <? 0)%Z
       then Ok (Z.to_nat (Z.of_nat len + i))
       else Err IndexError.

(** [t[k]] for a Python integer [k] and a tensor dimension of [len] items:
    torch converts [k] to int64 and raises [ValueError] when it does not fit,
    and an index that fits is looked up as in a sequence.  A tensor dimension
    has fewer than 2^63 items, so an integer that does not fit is never
    inside it: the conversion decides only which exception is raised. *)
Definition fits_int64 (k : Z) : bool :=
  (- 2 ^ 63 <=? k)%Z && (k <? 2 ^ 63)%Z.

Definition tensor_index (len : nat) (k : Z) : result nat :=
  match py_index len k with
  | Ok j => Ok j
  | Err e => if fits_int64 k then Err e else Err ValueError
  end.

Definition py_get {X : Type} (l : list X) (i : Z) : result X :=
  j <- py_index (length l) i ;;
  match nth_error l j with
  | Some x => Ok x
  | None => Err IndexError
  end.

Fixpoint set_nth {X : Type} (j : nat) (x : X) (l : list X) : list X :=
  match l, j with
  | [], _ => []
  | _ :: l', O => x :: l'
  | y :: l', S j' => y :: set_nth j' x l'
  end.

Definition enumerate {X : Type} (l : list X) : list (nat * X) :=
  combine (seq 0 (length l)) l.

(** [Counter] and [dict]: association lists in insertion order. *)
Section Dict.
Context {K V : Type}.
Variable eqb : K -> K -> bool.

Fixpoint dict_get (d : list (K * V)) (k : K) : option V :=
  match d with
  | [] => None
  | (k', v) :: d' => if eqb k' k then Some v else dict_get d' k
  end.

Fixpoint dict_set (k : K) (v : V) (d : list (K * V)) : list (K * V) :=
  match d with
  | [] => [(k, v)]
  | (k', v') :: d' =>
      if eqb k' k then (k', v) :: d' else (k', v') :: dict_set k v d'
  end.
End Dict.

Section Counter.
Context {K : Type}.
Variable eqb : K -> K -> bool.

Fixpoint incr (k : K) (d : list (K * Z)) : list (K * Z) :=
  match d with
  | [] => [(k, 1%Z)]
  | (k', c) :: d' =>
      if eqb k' k then (k', (c + 1)%Z) :: d' else (k', c) :: incr k d'
  end.

Definition Counter (l : list K) : list (K * Z) :=
  fold_left (fun d k => incr k d) l [].

(** [c[k]] on a Counter: a missing key counts zero. *)
Definition counter_get (d : list (K * Z)) (k : K) : Z :=
  match dict_get eqb d k with
  | Some c => c
  | None => 0%Z
  end.
End Counter.

(** [len(set(l))] for integers. *)
Definition set_length (l : list Z) : nat := length (nodup Z.eq_dec l).

(** [sorted(d.items())] for integer keys: insertion sort on the key (keys of
    a dict are distinct, so the values are never compared). *)
Fixpoint insert_sorted {V : Type} (kv : Z * V) (l : list (Z * V))
  : list (Z * V) :=
  match l with
  | [] => [kv]
  | kv' :: l' =>
      if (fst kv <=? fst kv')%Z then kv :: l else kv' :: insert_sorted kv l'
  end.

Definition sorted_items {V : Type} (d : list (Z * V)) : list (Z * V) :=
  fold_right insert_sorted [] d.

Definition tuple_eqb (a b : list Z) : bool :=
  if list_eq_dec Z.eq_dec a b then true else false.

Definition pair_eqb (a b : Z * Z) : bool :=
  (fst a =? fst b)%Z && (snd a =? snd b)%Z.

(** ** Tensors *)

Section Tensors.
Context {F : Type} {NF : Num F}.

Definition vector : Type := list F.
Definition matrix : Type := list (list F).

Definition ncols (m : matrix) : nat :=
  match m with
  | [] => 0
  | r :: _ => length r
  end.

Definition entry (m : matrix) (i t : nat) : F := nth t (nth i m []) zero.

Definition is_matrix (n c : nat) (m : matrix) : Prop :=
  length m = n /\ Forall (fun r => length r = c) m.

(** [torch.zeros(size = [n, c])] *)
Definition zeros (n c : nat) : matrix := repeat (repeat zero c) n.

Definition column (m : matrix) (j : nat) : vector :=
  map (fun r => nth j r zero) m.

(** [m[:, k]] *)
Definition col (m : matrix) (k : Z) : result vector :=
  j <- py_index (ncols m) k ;; Ok (column m j).

(** Assignment of [v] to a slice of [n] entries: [v] has [n] entries or
    is a single entry repeated. *)
Definition broadcast_to (n : nat) (v : vector) : result vector :=
  if length v =? n then Ok v
  else match v with
       | [a] => Ok (repeat a n)
       | _ => Err ShapeError
       end.

(** The effect of [m[:, j] = v] on a well-shaped table. *)
Definition put_col (m : matrix) (j : nat) (v : vector) : matrix :=
  map (fun rx => set_nth j (snd rx) (fst rx)) (combine m v).

(** [m[:, k] = v] *)
Definition set_col (m : matrix) (k : Z) (v : vector) : result matrix :=
  j <- py_index (ncols m) k ;;
  w <- broadcast_to (length m) v ;;
  Ok (put_col m j w).

(** [m[k0][k1] = x] for Python integers [k0] and [k1]. *)
Definition set_entry (m : matrix) (k0 k1 : Z) (x : F) : result matrix :=
  i <- tensor_index (length m) k0 ;;
  j <- tensor_index (length (nth i m [])) k1 ;;
  Ok (set_nth i (set_nth j x (nth i m [])) m).

(** [m.transpose(1, 0)], as the list of the columns of [m]. *)
Definition transpose (m : matrix) : matrix :=
  map (column m) (seq 0 (ncols m)).

(** [m[:, :-1]] *)
Definition drop_last_col (m : matrix) : matrix :=
  map (fun r => removelast r) m.

(** Element-wise binary operation on two tensors of the same rank, one
    dimension at a time: equal sizes pair up, a size of one is repeated,
    anything else does not broadcast. *)
Definition bzip {X Y : Type} (f : X -> X -> result Y) (u v : list X)
  : result (list Y) :=
  if length u =? length v
  then mapM (fun ab => f (fst ab) (snd ab)) (combine u v)
  else match u, v with
       | [a], _ => mapM (fun b => f a b) v
       | _, [b] => mapM (fun a => f a b) u
       | _, _ => Err ShapeError
       end.

Definition vmul : vector -> vector -> result vector :=
  bzip (fun a b => Ok (mul a b)).
Definition vdiv : vector -> vector -> result vector :=
  bzip (fun a b => Ok (div a b)).
Definition mmul : matrix -> matrix -> result matrix := bzip vmul.
Definition mdiv : matrix -> matrix -> result matrix := bzip vdiv.

(** [v.sum()] *)
Definition vsum (v : vector) : F := fold_right add zero v.

(** [torch.div(v, s)] for a 0-d tensor [s]. *)
Definition vdiv_scalar (v : vector) (s : F) : vector :=
  map (fun a => div a s) v.
Definition mdiv_scalar (m : matrix) (s : F) : matrix :=
  map (fun r => vdiv_scalar r s) m.

(** [torch.sum(m, dim = 0)] and [torch.sum(m, dim = 1)] *)
Definition sum_dim0 (m : matrix) : vector := map vsum (transpose m).
Definition sum_dim1 (m : matrix) : vector := map vsum m.

Definition dot (u w : vector) : F :=
  vsum (map (fun ab => mul (fst ab) (snd ab)) (combine u w)).

(** [torch.matmul(v, m)] for a 1-D [v] and a 2-D [m]. *)
Definition matmul_vm (v : vector) (m : matrix) : result vector :=
  if length v =? length m then Ok (map (dot v) (transpose m))
  else Err ShapeError.

(** [torch.matmul(m, v)] for a 2-D [m] and a 1-D [v]. *)
Definition matmul_mv (m : matrix) (v : vector) : result vector :=
  if ncols m =? length v then Ok (map (fun r => dot r v) m)
  else Err ShapeError.

(** [m.index_select(1, idx)]: an index outside the table is torch's
    RuntimeError, not an [IndexError]. *)
Definition index_select1 (m : matrix) (idx : list nat) : result matrix :=
  if forallb (fun j => j <? ncols m) idx
  then Ok (map (fun r => map (fun j => nth j r zero) idx) m)
  else Err IndexSelectError.

Definition vadd (u w : vector) : vector :=
  map (fun ab => add (fst ab) (snd ab)) (combine u w).
Definition madd (a b : matrix) : matrix :=
  map (fun rs => vadd (fst rs) (snd rs)) (combine a b).

Definition same_shape (a b : matrix) : bool :=
  (length a =? length b) && (ncols a =? ncols b).

(** [torch.stack(ms, dim = 0).sum(dim = 0)] for 2-D tensors. *)
Definition stack_sum (ms : list matrix) : result matrix :=
  match ms with
  | [] => Err EmptyStackError
  | m0 :: _ =>
      if forallb (same_shape m0) ms
      then Ok (fold_right madd (zeros (length m0) (ncols m0)) ms)
      else Err ShapeError
  end.

(** [torch.stack(vs, dim = 0)] for 1-D tensors. *)
Definition stack (vs : list vector) : result matrix :=
  match vs with
  | [] => Err EmptyStackError
  | v0 :: _ =>
      if forallb (fun v => length v =? length v0) vs then Ok vs
      else Err ShapeError
  end.

(** Python's [a / b] on two integers. *)
Definition py_truediv (a b : Z) : result F :=
  if (b =? 0)%Z then Err ZeroDivisionError
  else Ok (div (of_Z a) (of_Z b)).

(** ** The ambient variables of the notebook *)

Record globals : Type := {
  obs_sequence : list Z;
  pi : vector;
  A : matrix;
  emission_matrix : matrix;
  alpha : matrix;
  beta : matrix
}.

Definition set_alpha (g : globals) (al : matrix) : globals :=
  {| obs_sequence := obs_sequence g; pi := pi g; A := A g;
     emission_matrix := emission_matrix g; alpha := al; beta := beta g |}.

Definition set_beta (g : globals) (be : matrix) : globals :=
  {| obs_sequence := obs_sequence g; pi := pi g; A := A g;
     emission_matrix := emission_matrix g; alpha := alpha g; beta := be |}.

(** ** Estimate initial parameters *)

Definition hidden_state_init (sequence : list Z) : result vector :=
  probabilities <-
    foldM (fun d state =>
             p <- py_truediv state (Z.of_nat (length sequence)) ;;
             Ok (dict_set Z.eqb state p d))
          (map snd (Counter Z.eqb sequence)) [] ;;
  Ok (map snd (sorted_items probabilities)).

(** The loop of [trans_mat_init] that cuts the sequence into overlapping
    pairs: the state is [(temp, sequences)]. *)
Definition pair_step (st : list Z * list (list (list Z))) (iv : nat * Z)
  : list Z * list (list (list Z)) :=
  let temp := fst st ++ [snd iv] in
  if negb (fst iv =? 0) then ([snd iv], snd st ++ [[temp]])
  else (temp, snd st).

Definition trans_mat_init (sequence : list Z) : result matrix :=
  let sequence_counts := Counter Z.eqb sequence in
  let seq_set_length := set_length sequence in
  let transition_mat := zeros seq_set_length seq_set_length in
  let sequences := snd (fold_left pair_step (enumerate sequence) ([], [])) in
  let transition_sequences := Counter tuple_eqb (concat sequences) in
  transition_mat_dict <-
    mapM (fun kv =>
            k0 <- py_get (fst kv) 0 ;;
            q <- py_truediv (snd kv) (counter_get Z.eqb sequence_counts k0) ;;
            Ok (fst kv, q))
         transition_sequences ;;
  foldM (fun m kv =>
           k0 <- py_get (fst kv) 0 ;;
           k1 <- py_get (fst kv) 1 ;;
           set_entry m k0 k1 (snd kv))
        transition_mat_dict transition_mat.

Definition emiss_state_init (hid_seq obs_seq : list Z) : result matrix :=
  let sequence_counts := Counter Z.eqb hid_seq in
  let hid_emi_seq := map (fun x => [x]) (combine hid_seq obs_seq) in
  let hid_emi_seq_counts := Counter pair_eqb (concat hid_emi_seq) in
  let emiss_mat := zeros (set_length hid_seq) (set_length obs_seq) in
  emiss_mat_dict <-
    mapM (fun kv =>
            q <- py_truediv (counter_get pair_eqb hid_emi_seq_counts (fst kv))
                            (counter_get Z.eqb sequence_counts (fst (fst kv))) ;;
            Ok (fst kv, q))
         hid_emi_seq_counts ;;
  foldM (fun m kv => set_entry m (fst (fst kv)) (snd (fst kv)) (snd kv))
        emiss_mat_dict emiss_mat.

(** ** Expectation procedure *)

(** The [log == True] branch: the column divided by its own sum. *)
Definition scaled (log : bool) (v : vector) : vector :=
  if log then vdiv_scalar v (vsum v) else v.

Definition forward_step (g : globals) (emission_matrix : matrix) (log : bool)
  (alpha : matrix) (io : nat * Z) : result matrix :=
  a_i <- col alpha (Z.of_nat (fst io)) ;;
  current_probability <- matmul_vm a_i (A g) ;;
  b <- col emission_matrix (snd io) ;;
  forward_probability <- vmul current_probability b ;;
  set_col alpha (Z.of_nat (fst io) + 1) (scaled log forward_probability).

Definition forward (g : globals) (emission_matrix : matrix) (log : bool)
  : result (globals * matrix) :=
  o0 <- py_get (obs_sequence g) 0 ;;
  b0 <- col emission_matrix o0 ;;
  alpha_initial <- vmul (pi g) b0 ;;
  alpha0 <- set_col (alpha g) 0 (scaled log alpha_initial) ;;
  alpha' <- foldM (forward_step g emission_matrix log)
                  (enumerate (tl (obs_sequence g))) alpha0 ;;
  Ok (set_alpha g alpha', alpha').

Definition backward_step (g : globals) (log : bool) (beta : matrix)
  (io : nat * Z) : result matrix :=
  b <- col (emission_matrix g) (snd io) ;;
  m <- mmul [b] (A g) ;;
  nxt <- col beta (- (Z.of_nat (fst io) + 1)) ;;
  _beta <- matmul_mv m nxt ;;
  set_col beta (- (Z.of_nat (fst io) + 2)) (scaled log _beta).

Definition backward (g : globals) (observation : list Z) (log : bool)
  : result (globals * matrix) :=
  beta0 <- set_col (beta g) (-1) [one; one] ;;
  beta' <- foldM (backward_step g log) (enumerate (rev (tl observation)))
                 beta0 ;;
  Ok (set_beta g beta', beta').

(** ** Maximization procedure *)

Definition calculate_gammas (alpha beta : matrix) : result matrix :=
  numerator <- mmul alpha beta ;;
  let denomenator := sum_dim0 numerator in
  mdiv numerator [denomenator].

Definition zeta_step (g : globals) (obs_seq : list Z) (tf : nat * vector)
  : result matrix :=
  x <- mmul [snd tf] (transpose (A g)) ;;
  o <- py_get obs_seq (Z.of_nat (fst tf) + 1) ;;
  b <- col (emission_matrix g) o ;;
  n1 <- mmul (transpose x) [b] ;;
  be <- col (beta g) (Z.of_nat (fst tf) + 1) ;;
  numerator <- mmul n1 [be] ;;
  let denomenator := vsum (sum_dim0 numerator) in
  Ok (mdiv_scalar numerator denomenator).

Definition calculate_zetas (g : globals) (alpha : matrix) (obs_seq : list Z)
  : result matrix :=
  zetas <- mapM (zeta_step g obs_seq) (enumerate (transpose alpha)) ;;
  stack_sum zetas.

(** [np.where(obs == searchval)[0]] *)
Definition np_where_eq (obs : list Z) (searchval : Z) : list nat :=
  map fst (filter (fun p => (snd p =? searchval)%Z) (enumerate obs)).

Definition expected_output_occurrence (index : list nat)
  (step_gammas : matrix) (summed_gammas : vector) : result vector :=
  filtered_gamma <- index_select1 step_gammas index ;;
  let sum_filtered_gamma := sum_dim1 filtered_gamma in
  vdiv sum_filtered_gamma summed_gammas.

(** [set_iter l] is the order in which Python iterates over [set(l)]; the
    language leaves it open, so it is a parameter. *)
Definition re_estimate_parameters (set_iter : list Z -> list Z) (g : globals)
  (emission_matrix alpha beta : matrix)
  : result (vector * matrix * matrix) :=
  step_gammas <- calculate_gammas alpha beta ;;
  new_pi <- col step_gammas 0 ;;
  summed_zetas <- calculate_zetas g (drop_last_col alpha) (obs_sequence g) ;;
  let summed_gammas := sum_dim1 (drop_last_col step_gammas) in
  new_transition_matrix <-
    mdiv summed_zetas (map (fun s => [s]) summed_gammas) ;;
  let summed_gammas := sum_dim1 step_gammas in
  let state_indices :=
    map (np_where_eq (obs_sequence g)) (set_iter (obs_sequence g)) in
  new_emission_matrix <-
    mapM (fun value =>
            expected_output_occurrence value step_gammas summed_gammas)
         state_indices ;;
  new_emission_matrix <- stack new_emission_matrix ;;
  Ok (new_pi, new_transition_matrix, transpose new_emission_matrix).

End Tensors.

Arguments globals F : clear implicits.

(** The notebook's cells from [forward] to [re_estimate_parameters]: one
    E-step followed by one M-step. *)
Definition one_pass {F : Type} {NF : Num F} (set_iter : list Z -> list Z)
  (g : globals F) : result (@vector F * @matrix F * @matrix F) :=
  ga <- forward g (emission_matrix g) false ;;
  gb <- backward (fst ga) (obs_sequence (fst ga)) false ;;
  re_estimate_parameters set_iter (fst gb) (emission_matrix (fst gb))
    (snd ga) (snd gb).

Definition raises {X : Type} (r : result X) : Prop := exists e, r = Err e.

(** ** Closed forms used in the statements *)

(** Entry-wise combination of two tables of the same shape, and of every
    row of a table with one vector. *)
Definition mat_map2 {F : Type} (h : F -> F -> F) (a b : list (list F))
  : list (list F) :=
  map (fun rs => map (fun ab => h (fst ab) (snd ab))
                     (combine (fst rs) (snd rs)))
      (combine a b).

Definition rows_map2 {F : Type} (h : F -> F -> F) (a : list (list F))
  (d : list F) : list (list F) :=
  map (fun r => map (fun ab => h (fst ab) (snd ab)) (combine r d)) a.

(** The column that one induction step of [forward] (resp. [backward])
    computes from the neighbouring column [v] and the symbol [o], when all
    operands have matching sizes. *)
Definition forward_column {F : Type} {NF : Num F} (n : nat)
  (A emission_matrix : @matrix F) (v : @vector F) (o : Z) : @vector F :=
  map (fun i =>
         mul (vsum (map (fun j => mul (nth j v zero) (entry A j i)) (seq 0 n)))
             (entry emission_matrix i (Z.to_nat o)))
      (seq 0 n).

Definition backward_column {F : Type} {NF : Num F} (n : nat)
  (A emission_matrix : @matrix F) (v : @vector F) (o : Z) : @vector F :=
  map (fun i =>
         vsum (map (fun j =>
                      mul (mul (entry emission_matrix j (Z.to_nat o))
                               (entry A i j))
                          (nth j v zero))
                   (seq 0 n)))
      (seq 0 n).

(** The numerator of the per-step zeta at time [t] and its total over all
    pairs of states, as [calculate_zetas] forms them from the ambient
    [A], [emission_matrix] and [beta]. *)
Definition zeta_numerator {F : Type} {NF : Num F} (g : globals F)
  (alpha : @matrix F) (obs_seq : list Z) (t i j : nat) : F :=
  mul (mul (mul (entry alpha i t) (entry (A g) i j))
           (entry (emission_matrix g) j
              (Z.to_nat (nth (t + 1) obs_seq 0%Z))))
      (entry (beta g) j (t + 1)).

Definition zeta_total {F : Type} {NF : Num F} (g : globals F)
  (alpha : @matrix F) (obs_seq : list Z) (n t : nat) : F :=
  vsum (map (fun j => vsum (map (fun i => zeta_numerator g alpha obs_seq t i j)
                                (seq 0 n)))
            (seq 0 n)).

(** A key of the transition Counter: a tuple of two values of the
    sequence [S]. *)
Definition pair_of (S : list Z) (tup : list Z) : Prop :=
  exists a b, tup = [a; b] /\ In a S /\ In b S.

(** ** Concrete models over the rationals *)

Definition ratio (a b : Z) : Qc := Q2Qc (Qmake a (Z.to_pos b)).

(** The inputs of "Numeric example: 1 pass", with [alpha] and [beta]
    allocated as [torch.zeros([A.shape[0], len(obs_sequence)])]. *)
Definition example_globals : globals Qc := {|
  obs_sequence := [0; 1; 2; 2]%Z;
  pi := [ratio 8 10; ratio 2 10];
  A := [[ratio 6 10; ratio 4 10]; [ratio 3 10; ratio 7 10]];
  emission_matrix := [[ratio 3 10; ratio 4 10; ratio 3 10];
                      [ratio 4 10; ratio 3 10; ratio 3 10]];
  alpha := zeros 2 4;
  beta := zeros 2 4
|}.

(** Iteration over a set of integers in ascending order (what CPython does
    for the small non-negative integers of the example). *)
Definition ascending_set (l : list Z) : list Z :=
  map fst (sorted_items (map (fun k => (k, tt)) (nodup Z.eq_dec l))).

(** A rational in units of 1e-4, rounded to the nearest integer. *)
Definition round4 (x : Qc) : Z :=
  Qfloor (Qplus (Qmult (this x) (inject_Z 10000)) (Qmake 1 2)).

Definition rmap {X Y : Type} (f : X -> Y) (r : result X) : result Y :=
  match r with
  | Ok x => Ok (f x)
  | Err e => Err e
  end.

(** The cells under "Numeric example: 1 pass", in order; every table is
    reported in units of 1e-4. *)
Definition numeric_example (g : globals Qc)
  : result (list (list Z) * list (list Z) * list (list Z) * list (list Z)
            * (list Z * list (list Z) * list (list Z))) :=
  ga <- forward g (emission_matrix g) false ;;
  gb <- backward (fst ga) (obs_sequence (fst ga)) false ;;
  gammas <- calculate_gammas (snd ga) (snd gb) ;;
  zetas <- calculate_zetas (fst gb) (drop_last_col (snd ga))
                           (obs_sequence (fst gb)) ;;
  r <- re_estimate_parameters ascending_set (fst gb)
         (emission_matrix (fst gb)) (snd ga) (snd gb) ;;
  Ok (map (map round4) (snd ga), map (map round4) (snd gb),
      map (map round4) gammas, map (map round4) zetas,
      (map round4 (fst (fst r)), map (map round4) (snd (fst r)),
       map (map round4) (snd r))).

(** The same model on the sequence [0, 2, 2], in which symbol 1 of the
    three-symbol alphabet never occurs. *)
Definition missing_symbol_globals : globals Qc := {|
  obs_sequence := [0; 2; 2]%Z;
  pi := [ratio 8 10; ratio 2 10];
  A := [[ratio 6 10; ratio 4 10]; [ratio 3 10; ratio 7 10]];
  emission_matrix := [[ratio 3 10; ratio 4 10; ratio 3 10];
                      [ratio 4 10; ratio 3 10; ratio 3 10]];
  alpha := zeros 2 3;
  beta := zeros 2 3
|}.

(** The same model after [forward] and [backward] on the one-symbol
    sequence [0]: both tables have a single column. *)
Definition single_obs_globals : globals Qc := {|
  obs_sequence := [0]%Z;
  pi := [ratio 8 10; ratio 2 10];
  A := [[ratio 6 10; ratio 4 10]; [ratio 3 10; ratio 7 10]];
  emission_matrix := [[ratio 3 10; ratio 4 10; ratio 3 10];
                      [ratio 4 10; ratio 3 10; ratio 3 10]];
  alpha := [[ratio 24 100]; [ratio 8 100]];
  beta := [[ratio 1 1]; [ratio 1 1]]
|}.

(** Two small tables, and the same model on the sequence [0, 1] with these
    tables standing for [alpha] and [beta]. *)
Definition small_alpha : @matrix Qc := [[ratio 1 4; ratio 1 10];
                                        [ratio 1 4; ratio 3 10]].
Definition small_beta : @matrix Qc := [[ratio 1 2; ratio 1 1];
                                       [ratio 3 10; ratio 1 1]].

Definition two_step_globals : globals Qc := {|
  obs_sequence := [0; 1]%Z;
  pi := [ratio 8 10; ratio 2 10];
  A := [[ratio 6 10; ratio 4 10]; [ratio 3 10; ratio 7 10]];
  emission_matrix := [[ratio 3 10; ratio 4 10; ratio 3 10];
                      [ratio 4 10; ratio 3 10; ratio 3 10]];
  alpha := small_alpha;
  beta := small_beta
|}.

(** A three-state model with uniform rows and two symbols, with its tables
    allocated as in the notebook for the sequence [0, 1]. *)
Definition three_state_globals : globals Qc := {|
  obs_sequence := [0; 1]%Z;
  pi := [ratio 1 3; ratio 1 3; ratio 1 3];
  A := [[ratio 1 3; ratio 1 3; ratio 1 3];
        [ratio 1 3; ratio 1 3; ratio 1 3];
        [ratio 1 3; ratio 1 3; ratio 1 3]];
  emission_matrix := [[ratio 1 2; ratio 1 2];
                      [ratio 1 2; ratio 1 2];
                      [ratio 1 2; ratio 1 2]];
  alpha := zeros 3 2;
  beta := zeros 3 2
|}.


(** A 2-by-4 table of left-over values, for the tables of
    [example_globals]. *)
Definition stale_table : @matrix Qc :=
  [[ratio 1 2; ratio 1 3; ratio 1 4; ratio 1 5];
   [ratio 2 3; ratio 3 4; ratio 4 5; ratio 5 6]].



Definition long_sequence_globals : globals Qc := {|
  obs_sequence := [0; 1; 2; 2; 1; 0]%Z;
  pi := pi example_globals;
  A := A example_globals;
  emission_matrix := emission_matrix example_globals;
  alpha := zeros 2 4;
  beta := zeros 2 4
|}.


(** The same model on the sequence [0, 1, 2], with two filled 2-by-3 tables
    standing for [alpha] and [beta]. *)
Definition three_step_globals : globals Qc := {|
  obs_sequence := [0; 1; 2]%Z;
  pi := pi example_globals;
  A := A example_globals;
  emission_matrix := emission_matrix example_globals;
  alpha := [[ratio 1 4; ratio 1 10; ratio 1 20];
            [ratio 1 4; ratio 3 10; ratio 1 10]];
  beta := [[ratio 1 2; ratio 1 3; ratio 1 1];
           [ratio 3 10; ratio 1 2; ratio 1 1]]
|}.


(** [l.count(k)], as an integer. *)
Definition occurrences {K : Type} (eqb : K -> K -> bool) (k : K) (l : list K)
  : Z :=
  Z.of_nat (length (filter (fun x => eqb x k) l)).


(** The order of [sorted(d.items())] on items with distinct integer keys. *)
Definition key_lt {V : Type} (a b : Z * V) : Prop := (fst a < fst b)%Z.


(** The integers Python accepts as an index into a sequence of [n] items. *)
Definition inside (n : nat) (v : Z) : Prop :=
  (- Z.of_nat n <= v < Z.of_nat n)%Z.


(** The numeric example with every symbol written as a negative index into
    the three columns of the emission matrix. *)
Definition negative_symbol_globals : globals Qc := {|
  obs_sequence := [-3; -2; -1; -1]%Z;
  pi := pi example_globals;
  A := A example_globals;
  emission_matrix := emission_matrix example_globals;
  alpha := zeros 2 4;
  beta := zeros 2 4
|}.


(** ** binary64 *)

(** The number type of the notebook's tensors: IEEE 754 binary64, with the
    kernel's primitive operations (round to nearest, ties to even) and the
    correctly rounded conversion of an integer.  It is an instance of [Num]
    that computes; it does not satisfy [NumLaws]. *)
Definition float_of_Z (z : Z) : PrimFloat.float :=
  FloatOps.SF2Prim
    (SpecFloat.binary_normalize FloatOps.prec FloatOps.emax z 0 false).

#[export] Instance float_Num : Num PrimFloat.float := {
  zero := float_of_Z 0;
  one := float_of_Z 1;
  add := PrimFloat.add;
  mul := PrimFloat.mul;
  div := PrimFloat.div;
  of_Z := float_of_Z
}.



(** The model of the numeric example on the sequence [0, 2, 2], with two
    filled 2-by-3 tables standing for [alpha] and [beta]. *)
Definition missing_symbol_tables : globals Qc := {|
  obs_sequence := [0; 2; 2]%Z;
  pi := pi example_globals;
  A := A example_globals;
  emission_matrix := emission_matrix example_globals;
  alpha := [[ratio 1 4; ratio 1 10; ratio 1 20];
            [ratio 1 4; ratio 3 10; ratio 1 10]];
  beta := [[ratio 1 2; ratio 1 3; ratio 1 1];
           [ratio 3 10; ratio 1 2; ratio 1 1]]
|}.

(** * Properties *)

(** ** Indexing and shapes *)

(** [is_matrix n c m] for a table [m] given by its entries. *)
Ltac concrete_shape := split; [reflexivity | repeat constructor].

Lemma py_index_nat (len j : nat) :
  j < len -> py_index len (Z.of_nat j) = Ok j.
Proof.
  intros Hj. unfold py_index.
  replace (0 <=? Z.of_nat j)%Z with true by (symmetry; apply Z.leb_le; lia).
  replace (Z.of_nat j <? Z.of_nat len)%Z with true
    by (symmetry; apply Z.ltb_lt; lia).
  simpl. now rewrite Nat2Z.id.
Qed.

Lemma py_index_Z (len : nat) (i : Z) :
  (0 <= i < Z.of_nat len)%Z -> py_index len i = Ok (Z.to_nat i).
Proof.
  intros Hi. rewrite <- (Z2Nat.id i) at 1 by lia.
  apply py_index_nat. lia.
Qed.

Lemma py_index_neg (len k : nat) :
  1 <= k <= len -> py_index len (- Z.of_nat k) = Ok (len - k).
Proof.
  intros Hk. unfold py_index.
  replace (0 <=? - Z.of_nat k)%Z with false
    by (symmetry; apply Z.leb_gt; lia).
  replace (- Z.of_nat len <=? - Z.of_nat k)%Z with true
    by (symmetry; apply Z.leb_le; lia).
  replace (- Z.of_nat k <? 0)%Z with true by (symmetry; apply Z.ltb_lt; lia).
  simpl. f_equal. lia.
Qed.

Lemma tensor_index_Z (len : nat) (i : Z) :
  (0 <= i < Z.of_nat len)%Z -> tensor_index len i = Ok (Z.to_nat i).
Proof.
  intros Hi. unfold tensor_index. now rewrite py_index_Z.
Qed.

Lemma set_nth_length {X : Type} (j : nat) (x : X) (l : list X) :
  length (set_nth j x l) = length l.
Proof.
  revert j; induction l as [|y l IH]; intros [|j]; simpl; auto.
Qed.

Lemma nth_set_nth_eq {X : Type} (j : nat) (x d : X) (l : list X) :
  j < length l -> nth j (set_nth j x l) d = x.
Proof.
  revert j; induction l as [|y l IH]; intros [|j]; simpl; intros Hj;
    try lia; auto.
  apply IH. lia.
Qed.

Lemma nth_set_nth_neq {X : Type} (j j' : nat) (x d : X) (l : list X) :
  j <> j' -> nth j' (set_nth j x l) d = nth j' l d.
Proof.
  revert j j'; induction l as [|y l IH]; intros [|j] [|j']; simpl;
    intros Hj; try congruence; auto.
Qed.

Lemma mapM_ok {X Y : Type} (f : X -> result Y) (h : X -> Y) (l : list X) :
  (forall x, In x l -> f x = Ok (h x)) -> mapM f l = Ok (map h l).
Proof.
  induction l as [|x l IH]; simpl; intros Hf; [reflexivity|].
  rewrite (Hf x) by auto. simpl. rewrite IH by auto. reflexivity.
Qed.

Section ShapeFacts.
Context {F : Type} {NF : Num F}.

Lemma is_matrix_ncols (n c : nat) (m : @matrix F) :
  is_matrix n c m -> 0 < n -> ncols m = c.
Proof.
  intros [Hn Hr] Hpos. destruct m as [|r m]; simpl in *; [lia|].
  now inversion Hr.
Qed.

Lemma is_matrix_row (n c : nat) (m : @matrix F) (i : nat) :
  is_matrix n c m -> i < n -> length (nth i m []) = c.
Proof.
  intros [Hn Hr] Hi. rewrite Forall_forall in Hr.
  apply Hr, nth_In. lia.
Qed.

Lemma column_length (m : @matrix F) (j : nat) : length (column m j) = length m.
Proof. apply length_map. Qed.

Lemma nth_column (m : @matrix F) (i j : nat) :
  nth i (column m j) zero = entry m i j.
Proof.
  unfold column, entry.
  destruct (Nat.lt_ge_cases i (length m)) as [Hi|Hi].
  - rewrite (nth_indep _ zero (nth j [] zero)) by now rewrite length_map.
    now rewrite (map_nth (fun r => nth j r zero)).
  - rewrite nth_overflow by now rewrite length_map.
    rewrite (nth_overflow m) by assumption. now destruct j.
Qed.

Lemma zeros_is_matrix (n c : nat) : is_matrix n c (zeros n c).
Proof.
  split; unfold zeros.
  - apply repeat_length.
  - apply Forall_forall. intros r Hr. apply repeat_spec in Hr. subst.
    apply repeat_length.
Qed.

Lemma zeros_entry (n c i j : nat) : entry (@zeros F _ n c) i j = zero.
Proof.
  unfold entry, zeros.
  destruct (Nat.lt_ge_cases i n) as [Hi|Hi].
  - rewrite (nth_indep _ [] (repeat zero c)) by now rewrite repeat_length.
    rewrite nth_repeat.
    destruct (Nat.lt_ge_cases j c) as [Hj|Hj].
    + now rewrite nth_repeat.
    + apply nth_overflow. now rewrite repeat_length.
  - rewrite (nth_overflow (repeat _ n)) by now rewrite repeat_length.
    now destruct j.
Qed.

Lemma col_nat (n c : nat) (m : @matrix F) (j : nat) :
  is_matrix n c m -> 0 < n -> j < c -> col m (Z.of_nat j) = Ok (column m j).
Proof.
  intros Hm Hn Hj. unfold col.
  rewrite (is_matrix_ncols n c m Hm Hn), py_index_nat by assumption. reflexivity.
Qed.

Lemma col_Z (n c : nat) (m : @matrix F) (k : Z) :
  is_matrix n c m -> 0 < n -> (0 <= k < Z.of_nat c)%Z ->
  col m k = Ok (column m (Z.to_nat k)).
Proof.
  intros Hm Hn Hk. unfold col.
  rewrite (is_matrix_ncols n c m Hm Hn), py_index_Z by assumption. reflexivity.
Qed.

Lemma broadcast_to_same (n : nat) (v : @vector F) :
  length v = n -> broadcast_to n v = Ok v.
Proof.
  intros Hv. unfold broadcast_to. now rewrite Hv, Nat.eqb_refl.
Qed.

Lemma put_col_is_matrix (n c : nat) (m : @matrix F) (j : nat) (v : @vector F) :
  is_matrix n c m -> length v = n -> is_matrix n c (put_col m j v).
Proof.
  intros [Hn Hr] Hv. split.
  - unfold put_col. rewrite length_map, length_combine. lia.
  - apply Forall_forall. intros r Hin. unfold put_col in Hin.
    apply in_map_iff in Hin. destruct Hin as [[r0 x] [Hrx Hin]]. subst r.
    simpl. rewrite set_nth_length. apply in_combine_l in Hin.
    rewrite Forall_forall in Hr. now apply Hr.
Qed.

Lemma put_col_entry (n c : nat) (m : @matrix F) (j : nat) (v : @vector F)
  (i t : nat) :
  is_matrix n c m -> length v = n -> j < c -> i < n ->
  entry (put_col m j v) i t = if t =? j then nth i v zero else entry m i t.
Proof.
  intros Hm Hv Hj Hi. unfold entry, put_col.
  assert (Hlen : i < length (combine m v))
    by (rewrite length_combine; destruct Hm; lia).
  rewrite (nth_indep _ [] ((fun rx => set_nth j (snd rx) (fst rx))
                             (@nil F, zero)))
    by now rewrite length_map.
  rewrite (map_nth (fun rx => set_nth j (snd rx) (fst rx))).
  rewrite combine_nth by (destruct Hm; lia). simpl.
  destruct (Nat.eqb_spec t j) as [->|Hne].
  - apply nth_set_nth_eq. now rewrite (is_matrix_row n c m i Hm Hi).
  - apply nth_set_nth_neq. congruence.
Qed.

Lemma put_col_column (n c : nat) (m : @matrix F) (j : nat) (v : @vector F)
  (t : nat) :
  is_matrix n c m -> length v = n -> j < c ->
  column (put_col m j v) t = if t =? j then v else column m t.
Proof.
  intros Hm Hv Hj.
  assert (Hm' := put_col_is_matrix n c m j v Hm Hv).
  apply (nth_ext _ _ zero zero).
  - rewrite column_length. destruct Hm' as [-> _].
    destruct (t =? j); [now rewrite Hv|].
    rewrite column_length. now destruct Hm.
  - intros i Hi. rewrite column_length in Hi. destruct Hm' as [Hn' _].
    rewrite Hn' in Hi. rewrite nth_column.
    rewrite (put_col_entry n c m j v i t Hm Hv Hj Hi).
    destruct (t =? j); [reflexivity|]. now rewrite nth_column.
Qed.

Lemma set_col_nat (n c : nat) (m : @matrix F) (j : nat) (v : @vector F) :
  is_matrix n c m -> 0 < n -> j < c -> length v = n ->
  set_col m (Z.of_nat j) v = Ok (put_col m j v).
Proof.
  intros Hm Hn Hj Hv. unfold set_col.
  rewrite (is_matrix_ncols n c m Hm Hn), py_index_nat by assumption. simpl.
  destruct Hm as [Hlen _]. rewrite broadcast_to_same by lia. reflexivity.
Qed.

End ShapeFacts.

(** ** Element-wise operations and products on well-shaped operands *)

Section TensorFacts.
Context {F : Type} {NF : Num F}.

Lemma bzip_same {X Y : Type} (f : X -> X -> result Y) (h : X -> X -> Y)
  (u v : list X) :
  length u = length v ->
  (forall a b, In (a, b) (combine u v) -> f a b = Ok (h a b)) ->
  bzip f u v = Ok (map (fun ab => h (fst ab) (snd ab)) (combine u v)).
Proof.
  intros Hlen Hf. unfold bzip. rewrite Hlen, Nat.eqb_refl.
  apply mapM_ok. intros [a b] Hin. simpl. now apply Hf.
Qed.

Lemma vmul_same (u v : @vector F) :
  length u = length v ->
  vmul u v = Ok (map (fun ab => mul (fst ab) (snd ab)) (combine u v)).
Proof.
  intros Hlen. unfold vmul.
  now apply (bzip_same _ (fun a b => mul a b)).
Qed.

Lemma vdiv_same (u v : @vector F) :
  length u = length v ->
  vdiv u v = Ok (map (fun ab => div (fst ab) (snd ab)) (combine u v)).
Proof.
  intros Hlen. unfold vdiv.
  now apply (bzip_same _ (fun a b => div a b)).
Qed.

Lemma nth_map2 (h : F -> F -> F) (u v : @vector F) (i : nat) :
  i < length u -> length u = length v ->
  nth i (map (fun ab => h (fst ab) (snd ab)) (combine u v)) zero
  = h (nth i u zero) (nth i v zero).
Proof.
  intros Hi Hlen.
  rewrite (nth_indep _ zero ((fun ab => h (fst ab) (snd ab)) (zero, zero)))
    by (rewrite length_map, length_combine; lia).
  rewrite (map_nth (fun ab => h (fst ab) (snd ab))).
  now rewrite combine_nth.
Qed.

Lemma map2_length (h : F -> F -> F) (u v : @vector F) :
  length u = length v ->
  length (map (fun ab => h (fst ab) (snd ab)) (combine u v)) = length u.
Proof. intros Hlen. rewrite length_map, length_combine. lia. Qed.

Lemma nth_map_in {X Y : Type} (f : X -> Y) (l : list X) (i : nat) (d : Y)
  (d' : X) :
  i < length l -> nth i (map f l) d = f (nth i l d').
Proof.
  intros Hi. rewrite (nth_indep (map f l) d (f d')) by now rewrite length_map.
  apply map_nth.
Qed.

Lemma nth_map_seq {Y : Type} (f : nat -> Y) (n i : nat) (d : Y) :
  i < n -> nth i (map f (seq 0 n)) d = f i.
Proof.
  intros Hi. rewrite (nth_map_in f (seq 0 n) i d 0) by now rewrite length_seq.
  now rewrite seq_nth.
Qed.

Lemma map_seq_nth (l : @vector F) :
  l = map (fun j => nth j l zero) (seq 0 (length l)).
Proof.
  apply (nth_ext _ _ zero zero).
  - now rewrite length_map, length_seq.
  - intros i Hi. now rewrite nth_map_seq.
Qed.

Lemma map2_as_seq (h : F -> F -> F) (u v : @vector F) (n : nat) :
  length u = n -> length v = n ->
  map (fun ab => h (fst ab) (snd ab)) (combine u v)
  = map (fun j => h (nth j u zero) (nth j v zero)) (seq 0 n).
Proof.
  intros Hu Hv. apply (nth_ext _ _ zero zero).
  - rewrite map2_length by lia. now rewrite length_map, length_seq.
  - intros i Hi. rewrite map2_length in Hi by lia.
    rewrite nth_map2 by lia. rewrite nth_map_seq by lia. reflexivity.
Qed.

Lemma dot_as_sum (u w : @vector F) (n : nat) :
  length u = n -> length w = n ->
  dot u w = vsum (map (fun j => mul (nth j u zero) (nth j w zero)) (seq 0 n)).
Proof.
  intros Hu Hw. unfold dot. now rewrite (map2_as_seq mul u w n).
Qed.

Lemma transpose_length (m : @matrix F) : length (transpose m) = ncols m.
Proof. unfold transpose. now rewrite length_map, length_seq. Qed.

Lemma nth_transpose (m : @matrix F) (j : nat) :
  j < ncols m -> nth j (transpose m) [] = column m j.
Proof.
  intros Hj. unfold transpose.
  rewrite (nth_indep _ [] (column m 0)) by now rewrite length_map, length_seq.
  rewrite (map_nth (column m)), seq_nth by assumption. reflexivity.
Qed.

Lemma matmul_vm_ok (n c : nat) (v : @vector F) (m : @matrix F) :
  is_matrix n c m -> 0 < n -> length v = n ->
  matmul_vm v m
  = Ok (map (fun i => vsum (map (fun j => mul (nth j v zero) (entry m j i))
                                (seq 0 n)))
            (seq 0 c)).
Proof.
  intros Hm Hn Hv. unfold matmul_vm.
  destruct Hm as [Hlen Hrows]. rewrite Hv, Hlen, Nat.eqb_refl. f_equal.
  unfold transpose.
  rewrite (is_matrix_ncols n c m (conj Hlen Hrows) Hn), map_map.
  apply map_ext. intros i.
  rewrite (dot_as_sum v (column m i) n) by
    (try rewrite column_length; lia).
  f_equal. apply map_ext. intros j. now rewrite nth_column.
Qed.

Lemma matmul_mv_ok (n c : nat) (m : @matrix F) (v : @vector F) :
  is_matrix n c m -> 0 < n -> length v = c ->
  matmul_mv m v
  = Ok (map (fun i => vsum (map (fun j => mul (entry m i j) (nth j v zero))
                                (seq 0 c)))
            (seq 0 n)).
Proof.
  intros Hm Hn Hv. unfold matmul_mv. unfold matrix, vector in *.
  rewrite (is_matrix_ncols n c m Hm Hn), Hv, Nat.eqb_refl. f_equal.
  assert (Hlen : length m = n) by now destruct Hm.
  apply (nth_ext _ _ zero zero).
  - now rewrite !length_map, length_seq.
  - intros i Hi. rewrite length_map in Hi.
    rewrite (nth_map_in (fun r => dot r v) m i zero []) by assumption.
    rewrite nth_map_seq by lia.
    apply dot_as_sum; [apply (is_matrix_row n c m i Hm); lia | assumption].
Qed.

End TensorFacts.

(** ** The forward recursion *)

Section Forward.
Context {F : Type} {NF : Num F}.
Variables (g : globals F) (em : @matrix F) (N M T : nat).
Hypothesis HN : 0 < N.
Hypothesis HA : is_matrix N N (A g).
Hypothesis Hem : is_matrix N M em.

Lemma forward_step_ok (al : @matrix F) (i : nat) (o : Z) :
  is_matrix N T al -> i + 1 < T -> (0 <= o < Z.of_nat M)%Z ->
  forward_step g em false al (i, o)
  = Ok (put_col al (S i) (forward_column N (A g) em (column al i) o)).
Proof.
  intros Hal Hi Ho. unfold forward_step. simpl fst. simpl snd.
  rewrite (col_nat N T al i Hal HN) by lia. simpl.
  rewrite (matmul_vm_ok N N (column al i) (A g) HA HN)
    by (rewrite column_length; now destruct Hal).
  simpl. rewrite (col_Z N M em o Hem HN Ho). simpl.
  rewrite vmul_same
    by (rewrite length_map, length_seq, column_length; now destruct Hem).
  simpl.
  replace (Z.of_nat i + 1)%Z with (Z.of_nat (S i)) by lia.
  match goal with
  | |- set_col _ _ ?v = _ =>
      assert (Hcol : v = forward_column N (A g) em (column al i) o)
  end.
  { rewrite (map2_as_seq mul _ _ N)
      by (rewrite ?length_map, ?length_seq, ?column_length;
          try reflexivity; now destruct Hem).
    unfold forward_column. apply map_ext_in. intros j Hj.
    apply in_seq in Hj. rewrite nth_map_seq by lia.
    now rewrite nth_column. }
  rewrite Hcol.
  apply set_col_nat with (n := N) (c := T); try assumption; try lia.
  unfold forward_column. now rewrite length_map, length_seq.
Qed.

Lemma forward_column_length (v : @vector F) (o : Z) :
  length (forward_column N (A g) em v o) = N.
Proof. unfold forward_column. now rewrite length_map, length_seq. Qed.

Lemma forward_loop_ok (os : list Z) :
  forall (k : nat) (al : @matrix F),
    is_matrix N T al -> k + length os < T ->
    Forall (fun o => (0 <= o < Z.of_nat M)%Z) os ->
    exists al',
      foldM (forward_step g em false) (combine (seq k (length os)) os) al
      = Ok al'
      /\ is_matrix N T al'
      /\ (forall t, t <= k -> column al' t = column al t)
      /\ (forall j, j < length os ->
            column al' (k + 1 + j)
            = forward_column N (A g) em (column al' (k + j)) (nth j os 0%Z)).
Proof.
  induction os as [|o os IH]; intros k al Hal Hk Hos.
  - exists al. simpl. split; [reflexivity|]. split; [assumption|].
    split; [reflexivity|]. intros j Hj. lia.
  - simpl in Hk. inversion Hos as [|? ? Ho Hos']; subst.
    simpl. rewrite forward_step_ok by (try assumption; lia). simpl.
    set (v := forward_column N (A g) em (column al k) o).
    assert (Hv : length v = N) by apply forward_column_length.
    assert (Hal1 : is_matrix N T (put_col al (S k) v))
      by now apply put_col_is_matrix.
    destruct (IH (S k) _ Hal1 ltac:(lia) Hos')
      as [al' [Hrun [Hal' [Hkeep Hrec]]]].
    exists al'. split; [assumption|]. split; [assumption|]. split.
    + intros t Ht. rewrite Hkeep by lia.
      rewrite (put_col_column N T al (S k) v t Hal Hv) by lia.
      destruct (Nat.eqb_spec t (S k)); [lia | reflexivity].
    + intros [|j] Hj.
      * rewrite !Nat.add_0_r. replace (k + 1) with (S k) by lia.
        rewrite !Hkeep by lia.
        rewrite !(put_col_column N T al (S k) v _ Hal Hv) by lia.
        rewrite Nat.eqb_refl.
        destruct (Nat.eqb_spec k (S k)); [lia | reflexivity].
      * simpl in Hj. simpl nth.
        replace (k + 1 + S j) with (S k + 1 + j) by lia.
        replace (k + S j) with (S k + j) by lia.
        apply Hrec. lia.
Qed.

End Forward.

Lemma py_get_nth {X : Type} (l : list X) (j : nat) (d : X) :
  j < length l -> py_get l (Z.of_nat j) = Ok (nth j l d).
Proof.
  intros Hj. unfold py_get. rewrite py_index_nat by assumption. simpl.
  now rewrite (nth_error_nth' l d Hj).
Qed.

(** [forward] with normalization off, column by column. *)
Lemma forward_table {F : Type} {NF : Num F} (g : globals F)
  (B : @matrix F) (N M T : nat) :
  0 < N -> 1 <= T ->
  length (pi g) = N -> is_matrix N N (A g) -> is_matrix N M B ->
  is_matrix N T (alpha g) ->
  length (obs_sequence g) = T ->
  Forall (fun o => (0 <= o < Z.of_nat M)%Z) (obs_sequence g) ->
  exists al,
    forward g B false = Ok (set_alpha g al, al)
    /\ is_matrix N T al
    /\ column al 0
       = map (fun ab => mul (fst ab) (snd ab))
             (combine (pi g)
                (column B (Z.to_nat (nth 0 (obs_sequence g) 0%Z))))
    /\ (forall t, t + 1 < T ->
          column al (t + 1)
          = forward_column N (A g) B (column al t)
              (nth (t + 1) (obs_sequence g) 0%Z)).
Proof.
  intros HN HT Hpi HA HB Hal Hlen Hobs.
  unfold forward. destruct (obs_sequence g) as [|o0 os] eqn:Eobs.
  { simpl in Hlen. lia. }
  pose proof (Forall_inv Hobs) as Ho0. pose proof (Forall_inv_tail Hobs) as Hos.
  simpl in Ho0, Hlen.
  replace (py_get (o0 :: os) 0) with (Ok o0) by reflexivity. simpl bind.
  rewrite (col_Z N M B o0 HB HN Ho0). simpl bind.
  assert (HlenB : length (column B (Z.to_nat o0)) = N)
    by (rewrite column_length; now destruct HB).
  rewrite vmul_same by lia. simpl bind. unfold scaled.
  set (v0 := map (fun ab => mul (fst ab) (snd ab))
                 (combine (pi g) (column B (Z.to_nat o0)))).
  assert (Hv0 : length v0 = N)
    by (unfold v0; rewrite map2_length; lia).
  pose proof (set_col_nat N T (alpha g) 0 v0 Hal HN
                ltac:(lia) Hv0) as Hset.
  simpl Z.of_nat in Hset. rewrite Hset.
  simpl bind. simpl tl. unfold enumerate.
  assert (Hal0 : is_matrix N T (put_col (alpha g) 0 v0))
    by (apply put_col_is_matrix; assumption).
  destruct (forward_loop_ok g B N M T HN HA HB os 0 _ Hal0
              ltac:(simpl; lia) Hos)
    as [al [Hrun [Hal' [Hkeep Hrec]]]].
  rewrite Hrun. simpl bind. exists al.
  split; [reflexivity|]. split; [assumption|]. split.
  - rewrite Hkeep by lia.
    rewrite (put_col_column N T (alpha g) 0 v0 0 Hal Hv0) by lia.
    reflexivity.
  - intros t Ht. replace (t + 1) with (0 + 1 + t) at 1 by lia.
    rewrite Hrec by lia. simpl. now rewrite Nat.add_1_r.
Qed.

(** C1.  With normalization off, [forward] returns the table it has written
    into the ambient [alpha]: it has N rows and T columns, its first column
    is [pi_i * B[i, obs[0]]], and every later column [t] is
    [B[i, obs[t]] * sum_j alpha[j, t-1] * A[j, i]].  For T = 1 the second
    part is empty and the table is the initialization column alone.  The
    only law of arithmetic used is the commutativity of the product. *)
Theorem forward_recurrence {F : Type} {NF : Num F} (g : globals F)
  (B : @matrix F) (N M T : nat) :
  (forall a b : F, mul a b = mul b a) ->
  0 < N -> 1 <= T ->
  length (pi g) = N -> is_matrix N N (A g) -> is_matrix N M B ->
  is_matrix N T (alpha g) ->
  length (obs_sequence g) = T ->
  Forall (fun o => (0 <= o < Z.of_nat M)%Z) (obs_sequence g) ->
  exists al,
    forward g B false = Ok (set_alpha g al, al)
    /\ is_matrix N T al
    /\ (forall i, i < N ->
          entry al i 0
          = mul (nth i (pi g) zero)
                (entry B i (Z.to_nat (nth 0 (obs_sequence g) 0%Z))))
    /\ (forall t i, 1 <= t < T -> i < N ->
          entry al i t
          = mul (entry B i (Z.to_nat (nth t (obs_sequence g) 0%Z)))
                (vsum (map (fun j => mul (entry al j (t - 1)) (entry (A g) j i))
                           (seq 0 N)))).
Proof.
  intros Hcomm HN HT Hpi HA HB Hal Hlen Hobs.
  destruct (forward_table g B N M T HN HT Hpi HA HB Hal Hlen Hobs)
    as [al [Hrun [Hal' [Hinit Hrec]]]].
  exists al. split; [assumption|]. split; [assumption|]. split.
  - intros i Hi. rewrite <- nth_column, Hinit.
    rewrite nth_map2
      by (try rewrite column_length; destruct HB; lia).
    now rewrite nth_column.
  - intros t i Ht Hi. destruct t as [|t]; [lia|].
    replace (S t - 1) with t by lia.
    rewrite <- nth_column. replace (S t) with (t + 1) by lia.
    rewrite Hrec by lia. unfold forward_column.
    rewrite nth_map_seq by lia. rewrite Hcomm. f_equal. f_equal.
    apply map_ext. intros j. now rewrite nth_column.
Qed.

Lemma forward_recurrence_witness :
  (forall a b : Qc, mul a b = mul b a)
  /\ exists al,
      forward example_globals (emission_matrix example_globals) false
      = Ok (set_alpha example_globals al, al)
      /\ is_matrix 2 4 al
      /\ (forall i, i < 2 ->
            entry al i 0
            = mul (nth i (pi example_globals) zero)
                  (entry (emission_matrix example_globals) i
                     (Z.to_nat (nth 0 (obs_sequence example_globals) 0%Z))))
      /\ (forall t i, 1 <= t < 4 -> i < 2 ->
            entry al i t
            = mul (entry (emission_matrix example_globals) i
                     (Z.to_nat (nth t (obs_sequence example_globals) 0%Z)))
                  (vsum (map (fun j => mul (entry al j (t - 1))
                                           (entry (A example_globals) j i))
                             (seq 0 2)))).
Proof.
  split; [exact Qcmult_comm|].
  apply (forward_recurrence example_globals
           (emission_matrix example_globals) 2 3 4).
  - exact Qcmult_comm.
  - lia.
  - lia.
  - reflexivity.
  - concrete_shape.
  - concrete_shape.
  - concrete_shape.
  - reflexivity.
  - repeat constructor; simpl; lia.
Defined.

(** ** The backward recursion *)

(** The first assignment of [backward] on a table that does not have two
    rows. *)
Lemma backward_column_misfit {F : Type} {NF : Num F}
  (g : globals F) (observation : list Z) (log : bool) (N T : nat) :
  is_matrix N T (beta g) -> 0 < N -> 0 < T -> N <> 2 ->
  backward g observation log = Err ShapeError.
Proof.
  intros Hbe HN HT Hne. unfold backward, set_col.
  rewrite (is_matrix_ncols N T (beta g) Hbe HN).
  change (-1)%Z with (- Z.of_nat 1)%Z. rewrite py_index_neg by lia.
  simpl bind. unfold broadcast_to. destruct Hbe as [Hlen _].
  unfold matrix in *. rewrite Hlen. simpl length.
  destruct (Nat.eqb_spec 2 N); [lia | reflexivity].
Qed.

(** C2 (the code departs from the claim).  The initialization column is the
    literal two-entry vector [[1.0, 1.0]], so on a table with any other
    number of rows the first assignment of [backward] does not fit and the
    function raises instead of returning a table. *)
Theorem backward_rejects_other_state_counts {F : Type} {NF : Num F}
  (g : globals F) (observation : list Z) (log : bool) (N T : nat) :
  is_matrix N T (beta g) -> 0 < N -> 0 < T -> N <> 2 ->
  backward g observation log = Err ShapeError.
Proof. apply backward_column_misfit. Qed.

Lemma backward_rejects_other_state_counts_witness :
  is_matrix 3 2 (beta three_state_globals) /\ 0 < 3 /\ 0 < 2 /\ 3 <> 2
  /\ backward three_state_globals (obs_sequence three_state_globals) false
     = Err ShapeError.
Proof.
  split; [concrete_shape|].
  split; [lia|]. split; [lia|]. split; [lia|].
  apply (backward_rejects_other_state_counts three_state_globals
           (obs_sequence three_state_globals) false 3 2).
  - concrete_shape.
  - lia.
  - lia.
  - lia.
Defined.

Section Backward.
Context {F : Type} {NF : Num F}.
Variables (g : globals F) (N M T : nat).
Hypothesis HN : 0 < N.
Hypothesis HA : is_matrix N N (A g).
Hypothesis Hem : is_matrix N M (emission_matrix g).

Lemma col_neg (c : nat) (m : @matrix F) (k : nat) :
  is_matrix N c m -> 1 <= k <= c ->
  col m (- Z.of_nat k) = Ok (column m (c - k)).
Proof.
  intros Hm Hk. unfold col.
  rewrite (is_matrix_ncols N c m Hm HN), py_index_neg by assumption.
  reflexivity.
Qed.

Lemma set_col_neg (c : nat) (m : @matrix F) (k : nat) (v : @vector F) :
  is_matrix N c m -> 1 <= k <= c -> length v = N ->
  set_col m (- Z.of_nat k) v = Ok (put_col m (c - k) v).
Proof.
  intros Hm Hk Hv. unfold set_col.
  rewrite (is_matrix_ncols N c m Hm HN), py_index_neg by assumption.
  simpl. destruct Hm as [Hlen _]. unfold matrix, vector in *.
  rewrite broadcast_to_same by lia. reflexivity.
Qed.

(** [v * m] for a 1-D [v] as long as the rows of [m]: every row of [m] is
    multiplied entry by entry with [v]. *)
Lemma mmul_row_bcast (n c : nat) (b : @vector F) (m : @matrix F) :
  is_matrix n c m -> length b = c ->
  mmul [b] m
  = Ok (map (fun r => map (fun ab => mul (fst ab) (snd ab)) (combine b r)) m).
Proof.
  intros [Hlen Hrows] Hb. unfold mmul, bzip.
  assert (Hrow : forall r, In r m ->
            vmul b r = Ok (map (fun ab => mul (fst ab) (snd ab))
                               (combine b r))).
  { intros r Hr. apply vmul_same. rewrite Forall_forall in Hrows.
    rewrite (Hrows r Hr). assumption. }
  match goal with
  | |- (if ?c then _ else _) = _ => destruct c eqn:E
  end.
  - apply Nat.eqb_eq in E.
    destruct m as [|r [|r' m]]; simpl in E; try discriminate.
    simpl. rewrite (Hrow r) by (left; reflexivity). reflexivity.
  - now apply mapM_ok.
Qed.

Lemma backward_step_ok (be : @matrix F) (i : nat) (o : Z) :
  is_matrix N T be -> i + 2 <= T -> (0 <= o < Z.of_nat M)%Z ->
  backward_step g false be (i, o)
  = Ok (put_col be (T - (i + 2))
          (backward_column N (A g) (emission_matrix g)
             (column be (T - (i + 1))) o)).
Proof.
  intros Hbe Hi Ho. unfold backward_step. simpl fst. simpl snd.
  rewrite (col_Z N M (emission_matrix g) o Hem HN Ho). simpl bind.
  rewrite (mmul_row_bcast N N _ (A g) HA)
    by (rewrite column_length; now destruct Hem).
  simpl bind.
  replace (- (Z.of_nat i + 1))%Z with (- Z.of_nat (i + 1))%Z by lia.
  rewrite (col_neg T be (i + 1) Hbe) by lia. simpl bind.
  set (m := map (fun r => map (fun ab => mul (fst ab) (snd ab))
                              (combine (column (emission_matrix g)
                                          (Z.to_nat o)) r)) (A g)).
  assert (Hm : is_matrix N N m).
  { destruct HA as [HlenA HrowsA]. split.
    - unfold m. now rewrite length_map.
    - apply Forall_forall. intros r Hr. unfold m in Hr.
      apply in_map_iff in Hr. destruct Hr as [r0 [<- Hr0]].
      rewrite Forall_forall in HrowsA. rewrite map2_length.
      + rewrite column_length. now destruct Hem.
      + rewrite column_length, (HrowsA r0 Hr0). now destruct Hem. }
  rewrite (matmul_mv_ok N N m _ Hm HN)
    by (rewrite column_length; now destruct Hbe).
  simpl bind. unfold scaled.
  replace (- (Z.of_nat i + 2))%Z with (- Z.of_nat (i + 2))%Z by lia.
  match goal with
  | |- set_col _ _ ?v = _ =>
      assert (Hcol : v = backward_column N (A g) (emission_matrix g)
                           (column be (T - (i + 1))) o)
  end.
  { unfold backward_column. apply map_ext_in. intros i' Hi'.
    apply in_seq in Hi'. f_equal. apply map_ext_in. intros j Hj.
    apply in_seq in Hj. f_equal.
    unfold entry at 1. unfold m.
    rewrite (nth_map_in _ (A g) i' [] []) by (destruct HA; lia).
    rewrite nth_map2.
    - now rewrite nth_column.
    - rewrite column_length. destruct Hem; lia.
    - rewrite column_length, (is_matrix_row N N (A g) i' HA) by lia.
      now destruct Hem. }
  rewrite Hcol. apply set_col_neg; try assumption; try lia.
  unfold backward_column. now rewrite length_map, length_seq.
Qed.

Lemma backward_loop_ok (os : list Z) :
  forall (k : nat) (be : @matrix F),
    is_matrix N T be -> k + length os < T ->
    Forall (fun o => (0 <= o < Z.of_nat M)%Z) os ->
    exists be',
      foldM (backward_step g false) (combine (seq k (length os)) os) be
      = Ok be'
      /\ is_matrix N T be'
      /\ (forall t, T - 1 - k <= t -> column be' t = column be t)
      /\ (forall j, j < length os ->
            column be' (T - 2 - k - j)
            = backward_column N (A g) (emission_matrix g)
                (column be' (T - 1 - k - j)) (nth j os 0%Z)).
Proof.
  induction os as [|o os IH]; intros k be Hbe Hk Hos.
  - exists be. simpl. split; [reflexivity|]. split; [assumption|].
    split; [reflexivity|]. intros j Hj. lia.
  - simpl in Hk. pose proof (Forall_inv Hos) as Ho.
    pose proof (Forall_inv_tail Hos) as Hos'. simpl in Ho.
    simpl. rewrite backward_step_ok by (try assumption; lia). simpl.
    set (v := backward_column N (A g) (emission_matrix g)
                (column be (T - (k + 1))) o).
    assert (Hv : length v = N)
      by (unfold v, backward_column; now rewrite length_map, length_seq).
    assert (Hbe1 : is_matrix N T (put_col be (T - (k + 2)) v))
      by now apply put_col_is_matrix.
    destruct (IH (S k) _ Hbe1 ltac:(lia) Hos')
      as [be' [Hrun [Hbe' [Hkeep Hrec]]]].
    exists be'. split; [assumption|]. split; [assumption|]. split.
    + intros t Ht. rewrite Hkeep by lia.
      rewrite (put_col_column N T be (T - (k + 2)) v t Hbe Hv) by lia.
      destruct (Nat.eqb_spec t (T - (k + 2))); [lia | reflexivity].
    + intros [|j] Hj.
      * rewrite !Nat.sub_0_r. rewrite !Hkeep by lia.
        rewrite !(put_col_column N T be (T - (k + 2)) v _ Hbe Hv) by lia.
        replace (T - 2 - k) with (T - (k + 2)) by lia.
        rewrite Nat.eqb_refl.
        destruct (Nat.eqb_spec (T - 1 - k) (T - (k + 2))); [lia|].
        simpl nth. unfold v. f_equal. f_equal. lia.
      * simpl in Hj. simpl nth.
        replace (T - 2 - k - S j) with (T - 2 - S k - j) by lia.
        replace (T - 1 - k - S j) with (T - 1 - S k - j) by lia.
        apply Hrec. lia.
Qed.

End Backward.

(** What [backward] does compute when the model has exactly two states: the
    last column is the column of ones and every earlier column [t] is
    [sum_j A[i, j] * B[j, obs[t+1]] * beta[j, t+1]]. *)
Lemma backward_recurrence_two_states {F : Type} {NF : Num F} (g : globals F)
  (observation : list Z) (M T : nat) :
  (forall a b : F, mul a b = mul b a) ->
  1 <= T ->
  is_matrix 2 2 (A g) -> is_matrix 2 M (emission_matrix g) ->
  is_matrix 2 T (beta g) ->
  length observation = T ->
  Forall (fun o => (0 <= o < Z.of_nat M)%Z) observation ->
  exists be,
    backward g observation false = Ok (set_beta g be, be)
    /\ is_matrix 2 T be
    /\ (forall i, i < 2 -> entry be i (T - 1) = one)
    /\ (forall t i, t + 1 < T -> i < 2 ->
          entry be i t
          = vsum (map (fun j =>
                         mul (mul (entry (A g) i j)
                                  (entry (emission_matrix g) j
                                     (Z.to_nat (nth (t + 1) observation 0%Z))))
                             (entry be j (t + 1)))
                      (seq 0 2))).
Proof.
  intros Hcomm HT HA HB Hbe Hlen Hobs. unfold backward.
  assert (H2 : 0 < 2) by lia.
  change (-1)%Z with (- Z.of_nat 1)%Z.
  rewrite (set_col_neg 2 H2 T (beta g) 1 [one; one] Hbe) by (simpl; lia).
  simpl bind. unfold enumerate.
  assert (Hbe0 : is_matrix 2 T (put_col (beta g) (T - 1) [one; one]))
    by (apply put_col_is_matrix; [assumption | reflexivity]).
  assert (Hos : Forall (fun o => (0 <= o < Z.of_nat M)%Z)
                       (rev (tl observation))).
  { apply Forall_rev. destruct observation; [constructor|].
    now apply Forall_inv_tail in Hobs. }
  assert (Hlos : length (rev (tl observation)) = T - 1).
  { rewrite length_rev. destruct observation; simpl in *; lia. }
  destruct (backward_loop_ok g 2 M T H2 HA HB (rev (tl observation)) 0 _ Hbe0
              ltac:(lia) Hos)
    as [be [Hrun [Hbe' [Hkeep Hrec]]]].
  rewrite Hrun. simpl bind. exists be.
  split; [reflexivity|]. split; [assumption|]. split.
  - intros i Hi. rewrite <- nth_column, Hkeep by lia.
    rewrite (put_col_column 2 T (beta g) (T - 1) [one; one] (T - 1) Hbe)
      by (simpl; lia).
    rewrite Nat.eqb_refl. destruct i as [|[|i]]; simpl; try reflexivity; lia.
  - intros t i Ht Hi. rewrite <- nth_column.
    replace t with (T - 2 - 0 - (T - 2 - t)) at 1 by lia.
    rewrite Hrec by lia.
    replace (T - 1 - 0 - (T - 2 - t)) with (t + 1) by lia.
    unfold backward_column. rewrite nth_map_seq by lia.
    rewrite rev_nth by (rewrite length_rev in Hlos; lia).
    rewrite length_rev in Hlos. rewrite Hlos.
    replace (T - 1 - S (T - 2 - t)) with t by lia.
    replace (nth t (tl observation) 0%Z) with (nth (t + 1) observation 0%Z)
      by (destruct observation; [now destruct t | now rewrite Nat.add_1_r]).
    apply f_equal, map_ext. intros j.
    rewrite nth_column. f_equal. apply Hcomm.
Qed.

(** ** Posterior tables *)

Section TableFacts.
Context {F : Type} {NF : Num F}.

Lemma column_as_seq (n c : nat) (m : @matrix F) (t : nat) :
  is_matrix n c m -> column m t = map (fun i => entry m i t) (seq 0 n).
Proof.
  intros [Hlen _]. apply (nth_ext _ _ zero zero).
  - now rewrite column_length, length_map, length_seq.
  - intros i Hi. rewrite column_length in Hi.
    rewrite nth_column, nth_map_seq by lia. reflexivity.
Qed.

Lemma mat_map2_is_matrix (h : F -> F -> F) (n c : nat) (a b : @matrix F) :
  is_matrix n c a -> is_matrix n c b -> is_matrix n c (mat_map2 h a b).
Proof.
  intros [Ha Hra] [Hb Hrb]. unfold matrix in *. split.
  - unfold mat_map2. rewrite length_map, length_combine. lia.
  - apply Forall_forall. intros r Hr. unfold mat_map2 in Hr.
    apply in_map_iff in Hr. destruct Hr as [[r1 r2] [<- Hin]]. simpl.
    rewrite Forall_forall in Hra, Hrb.
    rewrite length_map, length_combine.
    rewrite (Hra r1 (in_combine_l _ _ _ _ Hin)).
    rewrite (Hrb r2 (in_combine_r _ _ _ _ Hin)). lia.
Qed.

Lemma mat_map2_entry (h : F -> F -> F) (n c : nat) (a b : @matrix F)
  (i t : nat) :
  is_matrix n c a -> is_matrix n c b -> i < n -> t < c ->
  entry (mat_map2 h a b) i t = h (entry a i t) (entry b i t).
Proof.
  intros Ha Hb Hi Ht. unfold entry, mat_map2.
  assert (La : length a = n) by now destruct Ha.
  assert (Lb : length b = n) by now destruct Hb.
  unfold matrix in *.
  rewrite (nth_map_in _ (combine a b) i [] ([], []))
    by (rewrite length_combine; lia).
  rewrite combine_nth by lia. simpl.
  apply nth_map2.
  - now rewrite (is_matrix_row n c a i Ha Hi).
  - rewrite (is_matrix_row n c a i Ha Hi).
    now rewrite (is_matrix_row n c b i Hb Hi).
Qed.

Lemma mmul_same (n c : nat) (a b : @matrix F) :
  is_matrix n c a -> is_matrix n c b -> mmul a b = Ok (mat_map2 mul a b).
Proof.
  intros [Ha Hra] [Hb Hrb]. unfold mmul, mat_map2. unfold matrix in *.
  apply (bzip_same vmul
           (fun u v => map (fun ab => mul (fst ab) (snd ab)) (combine u v))).
  - unfold vector in *. lia.
  - intros u v Hin. apply vmul_same. rewrite Forall_forall in Hra, Hrb.
    rewrite (Hra u (in_combine_l _ _ _ _ Hin)).
    now rewrite (Hrb v (in_combine_r _ _ _ _ Hin)).
Qed.

Lemma rows_map2_is_matrix (h : F -> F -> F) (n c : nat) (a : @matrix F)
  (d : @vector F) :
  is_matrix n c a -> length d = c -> is_matrix n c (rows_map2 h a d).
Proof.
  intros [Ha Hra] Hd. split.
  - unfold rows_map2. now rewrite length_map.
  - apply Forall_forall. intros r Hr. unfold rows_map2 in Hr.
    apply in_map_iff in Hr. destruct Hr as [r0 [<- Hin]].
    rewrite Forall_forall in Hra.
    rewrite length_map, length_combine, (Hra r0 Hin). lia.
Qed.

Lemma rows_map2_entry (h : F -> F -> F) (n c : nat) (a : @matrix F)
  (d : @vector F) (i t : nat) :
  is_matrix n c a -> length d = c -> i < n -> t < c ->
  entry (rows_map2 h a d) i t = h (entry a i t) (nth t d zero).
Proof.
  intros Ha Hd Hi Ht. unfold entry, rows_map2.
  assert (La : length a = n) by now destruct Ha.
  rewrite (nth_map_in _ a i [] []) by lia.
  apply nth_map2.
  - now rewrite (is_matrix_row n c a i Ha Hi).
  - rewrite (is_matrix_row n c a i Ha Hi). lia.
Qed.

(** A table and a 1-D tensor as long as its rows: the vector is used for
    every row. *)
Lemma bzip_rows {X Y : Type} (f : X -> X -> result Y) (h : X -> Y)
  (a : list X) (d : X) :
  (forall r, In r a -> f r d = Ok (h r)) ->
  bzip f a [d] = Ok (map h a).
Proof.
  intros Hf. unfold bzip.
  destruct (Nat.eqb_spec (length a) (length [d])) as [E|E].
  - destruct a as [|r [|r' a]]; simpl in E; try discriminate.
    simpl. rewrite (Hf r) by (left; reflexivity). reflexivity.
  - destruct a as [|r [|r' a]].
    + reflexivity.
    + simpl in E. congruence.
    + now apply mapM_ok.
Qed.

Lemma mdiv_rows (n c : nat) (a : @matrix F) (d : @vector F) :
  is_matrix n c a -> length d = c -> mdiv a [d] = Ok (rows_map2 div a d).
Proof.
  intros [Ha Hra] Hd. unfold mdiv, rows_map2.
  apply (bzip_rows vdiv
           (fun r => map (fun ab => div (fst ab) (snd ab)) (combine r d))).
  intros r Hr. apply vdiv_same. rewrite Forall_forall in Hra.
  rewrite (Hra r Hr). lia.
Qed.

Lemma mmul_rows (n c : nat) (a : @matrix F) (d : @vector F) :
  is_matrix n c a -> length d = c -> mmul a [d] = Ok (rows_map2 mul a d).
Proof.
  intros [Ha Hra] Hd. unfold mmul, rows_map2.
  apply (bzip_rows vmul
           (fun r => map (fun ab => mul (fst ab) (snd ab)) (combine r d))).
  intros r Hr. apply vmul_same. rewrite Forall_forall in Hra.
  rewrite (Hra r Hr). lia.
Qed.

Lemma sum_dim0_nth (n c : nat) (m : @matrix F) (t : nat) :
  is_matrix n c m -> 0 < n -> t < c ->
  nth t (sum_dim0 m) zero = vsum (map (fun i => entry m i t) (seq 0 n)).
Proof.
  intros Hm Hn Ht. unfold sum_dim0, transpose.
  rewrite (is_matrix_ncols n c m Hm Hn), map_map.
  rewrite nth_map_seq by assumption.
  now rewrite (column_as_seq n c m t Hm).
Qed.

Lemma sum_dim0_length (n c : nat) (m : @matrix F) :
  is_matrix n c m -> 0 < n -> length (sum_dim0 m) = c.
Proof.
  intros Hm Hn. unfold sum_dim0.
  now rewrite length_map, transpose_length, (is_matrix_ncols n c m Hm Hn).
Qed.

(** [calculate_gammas] on two tables of the same shape. *)
Lemma calculate_gammas_ok (alpha beta : @matrix F) (N T : nat) :
  is_matrix N T alpha -> is_matrix N T beta -> 0 < N ->
  exists gamma,
    calculate_gammas alpha beta = Ok gamma
    /\ is_matrix N T gamma
    /\ (forall i t, i < N -> t < T ->
          entry gamma i t
          = div (mul (entry alpha i t) (entry beta i t))
                (vsum (map (fun i' => mul (entry alpha i' t) (entry beta i' t))
                           (seq 0 N)))).
Proof.
  intros Ha Hb HN. unfold calculate_gammas.
  rewrite (mmul_same N T alpha beta Ha Hb). simpl bind.
  pose proof (mat_map2_is_matrix mul N T alpha beta Ha Hb) as Hnum.
  pose proof (sum_dim0_length N T _ Hnum HN) as Hden.
  rewrite (mdiv_rows N T _ _ Hnum Hden).
  eexists. split; [reflexivity|]. split.
  - now apply rows_map2_is_matrix.
  - intros i t Hi Ht.
    rewrite (rows_map2_entry div N T _ _ i t Hnum Hden Hi Ht).
    rewrite (mat_map2_entry mul N T alpha beta i t Ha Hb Hi Ht).
    rewrite (sum_dim0_nth N T _ t Hnum HN Ht). f_equal. f_equal.
    apply map_ext_in. intros i' Hi'. apply in_seq in Hi'.
    apply mat_map2_entry with (n := N) (c := T); try assumption; lia.
Qed.

End TableFacts.

(** ** Sums in exact arithmetic *)


Section Exact.
Context {F : Type} {NF : Num F} {NL : NumLaws F}.

Lemma F_semi_ring : semi_ring_theory (R := F) zero one add mul eq.
Proof.
  constructor.
  - apply add_0_l.
  - apply add_comm.
  - apply add_assoc.
  - apply mul_1_l.
  - apply mul_0_l.
  - apply mul_comm.
  - apply mul_assoc.
  - apply mul_add_distr_r.
Qed.

Add Ring F_ring : F_semi_ring.

Lemma div_add (a b d : F) : div (add a b) d = add (div a d) (div b d).
Proof. rewrite (div_inv (add a b)), (div_inv a), (div_inv b). ring. Qed.

Lemma div_zero (d : F) : div zero d = zero.
Proof. rewrite div_inv. ring. Qed.

Lemma vsum_map_div {X : Type} (f : X -> F) (d : F) (l : list X) :
  vsum (map (fun x => div (f x) d) l) = div (vsum (map f l)) d.
Proof.
  induction l as [|x l IH]; simpl.
  - now rewrite div_zero.
  - now rewrite IH, div_add.
Qed.

Lemma vsum_map_add {X : Type} (f h : X -> F) (l : list X) :
  vsum (map (fun x => add (f x) (h x)) l)
  = add (vsum (map f l)) (vsum (map h l)).
Proof.
  induction l as [|x l IH]; simpl.
  - ring.
  - rewrite IH. ring.
Qed.

Lemma vsum_map_mul_l {X : Type} (a : F) (f : X -> F) (l : list X) :
  vsum (map (fun x => mul a (f x)) l) = mul a (vsum (map f l)).
Proof.
  induction l as [|x l IH]; simpl.
  - ring.
  - rewrite IH. ring.
Qed.

Lemma vsum_map_zero {X : Type} (l : list X) :
  vsum (map (fun _ => zero) l) = @zero F _.
Proof.
  induction l as [|x l IH]; simpl.
  - reflexivity.
  - rewrite IH. ring.
Qed.


(** Exchange of two finite sums. *)
Lemma vsum_swap {X Y : Type} (f : X -> Y -> F) (xs : list X) (ys : list Y) :
  vsum (map (fun x => vsum (map (fun y => f x y) ys)) xs)
  = vsum (map (fun y => vsum (map (fun x => f x y) xs)) ys).
Proof.
  induction xs as [|x xs IH]; simpl.
  - now rewrite vsum_map_zero.
  - rewrite IH. now rewrite <- vsum_map_add.
Qed.

End Exact.


Lemma Qc_NumLaws : NumLaws Qc.
Proof.
  constructor; simpl.
  - apply Qcplus_0_l.
  - apply Qcplus_comm.
  - apply Qcplus_assoc.
  - apply Qcmult_1_l.
  - apply Qcmult_0_l.
  - apply Qcmult_comm.
  - apply Qcmult_assoc.
  - apply Qcmult_plus_distr_l.
  - intros a b. unfold Qcdiv. now rewrite Qcmult_1_l.
  - intros b Hb. unfold Qcdiv. now apply Qcmult_inv_r.
Qed.



(** ** The numeric example *)

(** C6.  On the inputs of the notebook's numeric example, with
    normalization off, one pass produces the published tables to four
    decimal places (all values in units of 1e-4, exact rational
    arithmetic). *)
Theorem numeric_example_one_pass :
  numeric_example example_globals
  = Ok ([[2400; 672; 162; 45]; [800; 456; 176; 56]]%Z,
        [[324; 900; 3000; 10000]; [297; 900; 3000; 10000]]%Z,
        [[7660; 5957; 4787; 4436]; [2340; 4043; 5213; 5564]]%Z,
        [[11553; 6851]; [3628; 7968]]%Z,
        ([7660; 2340]%Z,
         [[6277; 3723]; [3128; 6872]]%Z,
         [[3354; 2608; 4038]; [1364; 2356; 6280]]%Z)).
Proof. vm_compute. reflexivity. Qed.

(** ** Initial parameters *)

(** C7 (the code departs from the claim).  [hidden_state_init] keys its
    dictionary by the occurrence counts, not by the states: two states with
    the same count share one entry, and the entries come out in ascending
    order of count.  On [0, 1] the result has one entry instead of two; on
    [0, 0, 1] state 0 (frequency 2/3) is given 1/3. *)
Theorem hidden_state_init_keys_by_count {F : Type} {NF : Num F} :
  hidden_state_init (F := F) [0; 1]%Z = Ok [div (of_Z 1) (of_Z 2)]
  /\ hidden_state_init (F := F) [0; 0; 1]%Z
     = Ok [div (of_Z 1) (of_Z 3); div (of_Z 2) (of_Z 3)].
Proof. split; reflexivity. Qed.

(** ** Zetas on a one-symbol sequence *)

Lemma drop_last_col_single {F : Type} (N : nat) (m : list (list F)) :
  length m = N -> Forall (fun r => length r = 1) m ->
  drop_last_col m = repeat [] N.
Proof.
  revert N. induction m as [|r m IH]; intros N Hlen Hrows; simpl in *.
  - now subst.
  - destruct N as [|N]; [discriminate|]. simpl.
    inversion Hrows as [|? ? Hr Hm]; subst. f_equal.
    + destruct r as [|x [|y r]]; simpl in *; try discriminate. reflexivity.
    + apply IH; [lia | assumption].
Qed.

(** C9 (amended).  When the tables have a single column, the slice
    [alpha[:, :-1]] handed to [calculate_zetas] has no column, the loop
    produces no per-step matrix and stacking the empty list raises: no
    accumulator is returned.  Called on the unsliced one-column table the
    function raises as well (at the latest on [obs_seq[1]]). *)
Theorem zetas_single_observation_raises {F : Type} {NF : Num F}
  (g : globals F) (alpha : @matrix F) (obs_seq : list Z) (N : nat) :
  is_matrix N 1 alpha -> 0 < N -> length obs_seq = 1 ->
  calculate_zetas g (drop_last_col alpha) obs_seq = Err EmptyStackError
  /\ raises (calculate_zetas g alpha obs_seq).
Proof.
  intros [Hlen Hrows] HN Hobs. split.
  - rewrite (drop_last_col_single N alpha Hlen Hrows).
    unfold calculate_zetas, transpose.
    destruct N; reflexivity.
  - unfold calculate_zetas, transpose, enumerate.
    rewrite (is_matrix_ncols N 1 alpha (conj Hlen Hrows) HN). simpl.
    unfold zeta_step. simpl fst. simpl snd.
    destruct (mmul [column alpha 0] (transpose (A g))) as [x|e].
    + simpl bind. unfold py_get. rewrite Hobs. simpl. now exists IndexError.
    + simpl. now exists e.
Qed.

Lemma zetas_single_observation_raises_witness :
  is_matrix 2 1 (alpha single_obs_globals) /\ 0 < 2
  /\ length (obs_sequence single_obs_globals) = 1
  /\ calculate_zetas single_obs_globals
       (drop_last_col (alpha single_obs_globals))
       (obs_sequence single_obs_globals) = Err EmptyStackError
  /\ raises (calculate_zetas single_obs_globals (alpha single_obs_globals)
               (obs_sequence single_obs_globals)).
Proof.
  split; [concrete_shape|].
  split; [lia|]. split; [reflexivity|].
  apply (zetas_single_observation_raises single_obs_globals
           (alpha single_obs_globals) (obs_sequence single_obs_globals) 2).
  - concrete_shape.
  - lia.
  - reflexivity.
Defined.

(** C9, as stated, fails on the two-state example with the sequence [0]:
    the result is an exception, not the all-zero 2-by-2 accumulator. *)
Lemma zetas_single_observation_not_zero :
  calculate_zetas single_obs_globals
    (drop_last_col (alpha single_obs_globals))
    (obs_sequence single_obs_globals)
  <> Ok (zeros 2 2).
Proof. vm_compute. discriminate. Qed.

(** ** Counters, sets and writes into a table *)

Lemma incr_keys {K : Type} (eqb : K -> K -> bool) (k : K) (d : list (K * Z))
  (k' : K) :
  In k' (map fst (incr eqb k d)) -> k' = k \/ In k' (map fst d).
Proof.
  induction d as [|[k0 c] d IH]; simpl.
  - intros [H|[]]. now left.
  - destruct (eqb k0 k); simpl.
    + intros [H|H]; right; [now left | now right].
    + intros [H|H]; [right; now left|].
      destruct (IH H) as [E|E]; [now left | right; now right].
Qed.

Lemma Counter_keys_from {K : Type} (eqb : K -> K -> bool) (l : list K) :
  forall (d : list (K * Z)) (k : K),
    In k (map fst (fold_left (fun d k => incr eqb k d) l d)) ->
    In k l \/ In k (map fst d).
Proof.
  induction l as [|x l IH]; intros d k Hin; simpl in *.
  - now right.
  - destruct (IH _ _ Hin) as [H|H]; [left; now right|].
    destruct (incr_keys eqb x d k H) as [E|E]; [left; now left | now right].
Qed.

Lemma Counter_keys {K : Type} (eqb : K -> K -> bool) (l : list K) (k : K) :
  In k (map fst (Counter eqb l)) -> In k l.
Proof.
  intros Hin. destruct (Counter_keys_from eqb l [] k Hin) as [H|[]].
  exact H.
Qed.

Lemma incr_positive (k : Z) (d : list (Z * Z)) :
  Forall (fun kc => (0 < snd kc)%Z) d ->
  Forall (fun kc => (0 < snd kc)%Z) (incr Z.eqb k d).
Proof.
  induction d as [|[k0 c] d IH]; simpl; intros Hd.
  - repeat constructor.
  - inversion Hd as [|? ? Hc Hd']; subst. simpl in Hc.
    destruct (k0 =? k)%Z; constructor; simpl; auto; lia.
Qed.

Lemma incr_has_same (k : Z) (d : list (Z * Z)) :
  exists c, dict_get Z.eqb (incr Z.eqb k d) k = Some c.
Proof.
  induction d as [|[k0 c] d IH]; simpl.
  - rewrite Z.eqb_refl. now exists 1%Z.
  - destruct (k0 =? k)%Z eqn:E; simpl; rewrite E.
    + now exists (c + 1)%Z.
    + exact IH.
Qed.

Lemma incr_has_other (k k' : Z) (d : list (Z * Z)) :
  (exists c, dict_get Z.eqb d k' = Some c) ->
  exists c, dict_get Z.eqb (incr Z.eqb k d) k' = Some c.
Proof.
  induction d as [|[k0 c] d IH]; simpl; intros [c0 Hc0].
  - discriminate.
  - destruct (k0 =? k)%Z eqn:E; simpl.
    + destruct (k0 =? k')%Z; [now eexists | now exists c0].
    + destruct (k0 =? k')%Z; [now eexists |]. apply IH. now exists c0.
Qed.

Lemma dict_get_positive (k : Z) (d : list (Z * Z)) (c : Z) :
  Forall (fun kc => (0 < snd kc)%Z) d ->
  dict_get Z.eqb d k = Some c -> (0 < c)%Z.
Proof.
  induction d as [|[k0 c0] d IH]; simpl; intros Hd Hget.
  - discriminate.
  - inversion Hd as [|? ? Hc Hd']; subst. simpl in Hc.
    destruct (k0 =? k)%Z; [now inversion Hget; subst | now apply IH].
Qed.

Lemma Counter_from_counted (l : list Z) :
  forall (d : list (Z * Z)) (k : Z),
    Forall (fun kc => (0 < snd kc)%Z) d ->
    In k l \/ (exists c, dict_get Z.eqb d k = Some c) ->
    Forall (fun kc => (0 < snd kc)%Z)
           (fold_left (fun d k => incr Z.eqb k d) l d)
    /\ exists c,
         dict_get Z.eqb (fold_left (fun d k => incr Z.eqb k d) l d) k
         = Some c.
Proof.
  induction l as [|x l IH]; intros d k Hd Hk; simpl.
  - destruct Hk as [[]|Hk]. now split.
  - apply IH; [now apply incr_positive|].
    destruct Hk as [[->|Hin]|Hhas].
    + right. apply incr_has_same.
    + now left.
    + right. now apply incr_has_other.
Qed.

Lemma Counter_count_positive (l : list Z) (k : Z) :
  In k l -> (0 < counter_get Z.eqb (Counter Z.eqb l) k)%Z.
Proof.
  intros Hin. unfold counter_get, Counter.
  destruct (Counter_from_counted l [] k (Forall_nil _) (or_introl Hin))
    as [Hpos [c Hc]].
  rewrite Hc. exact (dict_get_positive k _ c Hpos Hc).
Qed.

Lemma set_length_exact (l : list Z) (K : nat) :
  (forall v, In v l <-> (0 <= v < Z.of_nat K)%Z) -> set_length l = K.
Proof.
  intros Hl. unfold set_length.
  rewrite <- (length_seq K 0), <- (length_map Z.of_nat (seq 0 K)).
  apply Permutation_length, NoDup_Permutation.
  - apply NoDup_nodup.
  - apply Finite.Injective_map_NoDup; [exact Nat2Z.inj | apply seq_NoDup].
  - intros v. rewrite nodup_In, Hl, in_map_iff. split.
    + intros Hv. exists (Z.to_nat v). split; [lia|]. apply in_seq. lia.
    + intros [j [<- Hj]]. apply in_seq in Hj. lia.
Qed.

Section Writes.
Context {F : Type} {NF : Num F}.

Lemma set_nth_rows (n c : nat) (m : @matrix F) (i : nat) (r : @vector F) :
  is_matrix n c m -> length r = c -> is_matrix n c (set_nth i r m).
Proof.
  intros [Hlen Hrows] Hr. split.
  - now rewrite set_nth_length.
  - clear Hlen. revert i. induction Hrows as [|r0 m Hr0 Hm IH]; intros i.
    + destruct i; constructor.
    + destruct i; simpl; constructor; auto.
Qed.

(** A successful write keeps the shape of the table. *)
Lemma set_entry_shape (n c : nat) (m m' : @matrix F) (k0 k1 : Z) (x : F) :
  is_matrix n c m -> set_entry m k0 k1 x = Ok m' -> is_matrix n c m'.
Proof.
  intros Hm. unfold set_entry.
  destruct (tensor_index (length m) k0) as [i|e]; simpl; [|discriminate].
  destruct (tensor_index (length (nth i m [])) k1) as [j|e]; simpl;
    [|discriminate].
  intros Heq. inversion Heq; subst m'. clear Heq.
  destruct (Nat.lt_ge_cases i n) as [Hi|Hi].
  - apply set_nth_rows; [assumption|].
    rewrite set_nth_length. now apply (is_matrix_row n c m i Hm).
  - destruct Hm as [Hlen Hrows]. split.
    + now rewrite set_nth_length.
    + replace (set_nth i (set_nth j x (nth i m [])) m) with m; [assumption|].
      clear Hrows. revert i n Hlen Hi.
      induction m as [|r m IH]; intros i n Hlen Hi; [now destruct i|].
      destruct i as [|i]; simpl in *; [lia|].
      destruct n as [|n]; [discriminate|].
      f_equal. apply (IH i n); lia.
Qed.

(** A write at an index inside the table succeeds. *)
Lemma set_entry_in_bounds (n c : nat) (m : @matrix F) (k0 k1 : Z) (x : F) :
  is_matrix n c m -> (0 <= k0 < Z.of_nat n)%Z -> (0 <= k1 < Z.of_nat c)%Z ->
  exists m', set_entry m k0 k1 x = Ok m'.
Proof.
  intros Hm H0 H1. unfold set_entry.
  assert (Hlen : length m = n) by now destruct Hm.
  unfold matrix in *. rewrite Hlen, tensor_index_Z by assumption. simpl.
  rewrite (is_matrix_row n c m (Z.to_nat k0) Hm) by lia.
  rewrite tensor_index_Z by assumption. simpl. now eexists.
Qed.

Lemma foldM_writes {X : Type} (key0 key1 : X -> result Z) (val : X -> F)
  (n c : nat) (l : list X) :
  forall (m m' : @matrix F),
    is_matrix n c m ->
    foldM (fun m kv => k0 <- key0 kv ;; k1 <- key1 kv ;;
                       set_entry m k0 k1 (val kv)) l m = Ok m' ->
    is_matrix n c m'.
Proof.
  induction l as [|kv l IH]; intros m m' Hm Hrun; simpl in Hrun.
  - now inversion Hrun; subst.
  - destruct (key0 kv) as [k0|e]; simpl in Hrun; [|discriminate].
    destruct (key1 kv) as [k1|e]; simpl in Hrun; [|discriminate].
    destruct (set_entry m k0 k1 (val kv)) as [m1|e] eqn:E; simpl in Hrun;
      [|discriminate].
    apply (IH m1 m'); [|assumption].
    now apply (set_entry_shape n c m m1 k0 k1 (val kv)).
Qed.

Lemma foldM_writes_in_bounds {X : Type} (key0 key1 : X -> result Z)
  (val : X -> F) (n c : nat) (l : list X) :
  Forall (fun kv => exists k0 k1,
            key0 kv = Ok k0 /\ key1 kv = Ok k1
            /\ (0 <= k0 < Z.of_nat n)%Z /\ (0 <= k1 < Z.of_nat c)%Z) l ->
  forall m : @matrix F,
    is_matrix n c m ->
    exists m',
      foldM (fun m kv => k0 <- key0 kv ;; k1 <- key1 kv ;;
                         set_entry m k0 k1 (val kv)) l m = Ok m'.
Proof.
  induction 1 as [|kv l [k0 [k1 [E0 [E1 [H0 H1]]]]] Hl IH]; intros m Hm; simpl.
  - now exists m.
  - rewrite E0, E1. simpl.
    destruct (set_entry_in_bounds n c m k0 k1 (val kv) Hm H0 H1) as [m1 E].
    rewrite E. simpl. apply IH.
    now apply (set_entry_shape n c m m1 k0 k1 (val kv)).
Qed.

End Writes.

(** ** The frequency-count initialisers *)

Lemma pair_loop_inv (S : list Z) (l : list Z) :
  forall (k : nat) (st : list Z * list (list (list Z))),
    (forall v, In v l -> In v S) ->
    (k = 0 /\ fst st = []) \/ (k <> 0 /\ exists a, fst st = [a] /\ In a S) ->
    Forall (pair_of S) (concat (snd st)) ->
    Forall (pair_of S)
      (concat (snd (fold_left pair_step (combine (seq k (length l)) l) st))).
Proof.
  induction l as [|x l IH]; intros k st Hl Hst Hok; simpl.
  - exact Hok.
  - assert (Hx : In x S) by (apply Hl; now left).
    apply IH.
    + intros v Hv. apply Hl. now right.
    + right. split; [lia|]. exists x. split; [|exact Hx].
      unfold pair_step. simpl. destruct Hst as [[-> Ht]|[Hk _]].
      * simpl. now rewrite Ht.
      * destruct (Nat.eqb_spec k 0); [lia | reflexivity].
    + unfold pair_step. simpl. destruct Hst as [[-> Ht]|[Hk [a [Ht Ha]]]].
      * simpl. exact Hok.
      * destruct (Nat.eqb_spec k 0); [lia|]. simpl.
        rewrite concat_app. apply Forall_app. split; [exact Hok|].
        simpl. constructor; [|constructor].
        rewrite Ht. exists a, x. simpl. auto.
Qed.

Lemma concat_singletons {X : Type} (l : list X) :
  concat (map (fun x => [x]) l) = l.
Proof. induction l as [|x l IH]; simpl; congruence. Qed.

Section Initialisers.
Context {F : Type} {NF : Num F}.

Lemma py_truediv_ok (a b : Z) :
  (0 < b)%Z -> py_truediv (F := F) a b = Ok (div (of_Z a) (of_Z b)).
Proof.
  intros Hb. unfold py_truediv.
  destruct (Z.eqb_spec b 0); [lia | reflexivity].
Qed.

Lemma trans_mat_init_shape (sequence : list Z) (m : @matrix F) :
  trans_mat_init sequence = Ok m ->
  is_matrix (set_length sequence) (set_length sequence) m.
Proof.
  unfold trans_mat_init.
  destruct (mapM _ _) as [d|e]; simpl; [|discriminate].
  apply (foldM_writes (fun kv : list Z * F => py_get (fst kv) 0)
           (fun kv => py_get (fst kv) 1) snd).
  apply zeros_is_matrix.
Qed.

Lemma emiss_state_init_shape (hid_seq obs_seq : list Z) (m : @matrix F) :
  emiss_state_init hid_seq obs_seq = Ok m ->
  is_matrix (set_length hid_seq) (set_length obs_seq) m.
Proof.
  unfold emiss_state_init.
  destruct (mapM _ _) as [d|e]; simpl; [|discriminate].
  apply (foldM_writes (fun kv : Z * Z * F => Ok (fst (fst kv)))
           (fun kv => Ok (snd (fst kv))) snd).
  apply zeros_is_matrix.
Qed.

Lemma trans_mat_init_in_bounds (sequence : list Z) (K : nat) :
  (forall v, In v sequence <-> (0 <= v < Z.of_nat K)%Z) ->
  exists m : @matrix F, trans_mat_init sequence = Ok m /\ is_matrix K K m.
Proof.
  intros Hseq.
  assert (Hrun : exists m : @matrix F, trans_mat_init sequence = Ok m).
  { unfold trans_mat_init.
    set (ts := Counter tuple_eqb _).
    assert (Hts : Forall (fun kv => pair_of sequence (fst kv)) ts).
    { apply Forall_forall. intros [key val] Hin. simpl.
      assert (Hkey : In key (concat (snd (fold_left pair_step
                                            (enumerate sequence) ([], []))))).
      { apply (Counter_keys tuple_eqb). apply in_map_iff.
        exists (key, val). now split. }
      clear Hin. revert key Hkey. apply Forall_forall.
      apply (pair_loop_inv sequence sequence 0 ([], [])); auto. }
    rewrite (mapM_ok _
               (fun kv => (fst kv,
                           div (of_Z (snd kv))
                               (of_Z (counter_get Z.eqb
                                        (Counter Z.eqb sequence)
                                        (nth 0 (fst kv) 0%Z)))))).
    - simpl bind.
      apply (foldM_writes_in_bounds
               (fun kv : list Z * F => py_get (fst kv) 0)
               (fun kv => py_get (fst kv) 1) snd
               (set_length sequence) (set_length sequence)).
      + apply Forall_forall. intros kv Hin. apply in_map_iff in Hin.
        destruct Hin as [[key val] [<- Hin]]. simpl.
        rewrite Forall_forall in Hts.
        destruct (Hts _ Hin) as [a [b [Hk [Ha Hb]]]]. simpl in Hk. subst key.
        exists a, b. rewrite (set_length_exact sequence K Hseq).
        split; [reflexivity|]. split; [reflexivity|].
        split; now apply Hseq.
      + apply zeros_is_matrix.
    - intros [key val] Hin. simpl.
      rewrite Forall_forall in Hts.
      destruct (Hts _ Hin) as [a [b [Hk [Ha Hb]]]]. simpl in Hk. subst key.
      replace (py_get [a; b] 0) with (Ok a) by reflexivity. simpl bind.
      rewrite py_truediv_ok by now apply Counter_count_positive.
      reflexivity. }
  destruct Hrun as [m Hm]. exists m. split; [exact Hm|].
  rewrite <- (set_length_exact sequence K Hseq).
  now apply trans_mat_init_shape.
Qed.

Lemma emiss_state_init_in_bounds (hid_seq obs_seq : list Z) (K L : nat) :
  (forall v, In v hid_seq <-> (0 <= v < Z.of_nat K)%Z) ->
  (forall v, In v obs_seq <-> (0 <= v < Z.of_nat L)%Z) ->
  exists m : @matrix F,
    emiss_state_init hid_seq obs_seq = Ok m /\ is_matrix K L m.
Proof.
  intros Hhid Hobs.
  assert (Hrun : exists m : @matrix F, emiss_state_init hid_seq obs_seq = Ok m).
  { unfold emiss_state_init. rewrite concat_singletons.
    set (cs := Counter pair_eqb (combine hid_seq obs_seq)).
    assert (Hcs : forall key val, In (key, val) cs ->
                In (fst key) hid_seq /\ In (snd key) obs_seq).
    { intros [h o] val Hin.
      assert (Hkey : In (h, o) (combine hid_seq obs_seq)).
      { apply (Counter_keys pair_eqb). apply in_map_iff.
        exists (h, o, val). now split. }
      split; [eapply in_combine_l | eapply in_combine_r]; exact Hkey. }
    rewrite (mapM_ok _
               (fun kv => (fst kv,
                           div (of_Z (counter_get pair_eqb cs (fst kv)))
                               (of_Z (counter_get Z.eqb
                                        (Counter Z.eqb hid_seq)
                                        (fst (fst kv))))))).
    - simpl bind.
      apply (foldM_writes_in_bounds
               (fun kv : Z * Z * F => Ok (fst (fst kv)))
               (fun kv => Ok (snd (fst kv))) snd
               (set_length hid_seq) (set_length obs_seq)).
      + apply Forall_forall. intros kv Hin. apply in_map_iff in Hin.
        destruct Hin as [[key val] [<- Hin]]. simpl.
        destruct (Hcs key val Hin) as [Hh Ho].
        exists (fst key), (snd key).
        rewrite (set_length_exact hid_seq K Hhid).
        rewrite (set_length_exact obs_seq L Hobs).
        split; [reflexivity|]. split; [reflexivity|].
        split; [now apply Hhid | now apply Hobs].
      + apply zeros_is_matrix.
    - intros [key val] Hin. simpl.
      destruct (Hcs key val Hin) as [Hh Ho].
      rewrite py_truediv_ok by now apply Counter_count_positive.
      reflexivity. }
  destruct Hrun as [m Hm]. exists m. split; [exact Hm|].
  rewrite <- (set_length_exact hid_seq K Hhid).
  rewrite <- (set_length_exact obs_seq L Hobs).
  now apply emiss_state_init_shape.
Qed.

End Initialisers.

(** *** Writes land at the raw values *)

Lemma pair_loop_from (l : list Z) :
  forall (k : nat) (a : Z) (seqs : list (list (list Z))),
    k <> 0 ->
    concat (snd (fold_left pair_step (combine (seq k (length l)) l)
                   ([a], seqs)))
    = concat seqs ++ map (fun p => [fst p; snd p]) (combine (a :: l) l).
Proof.
  induction l as [|x l IH]; intros k a seqs Hk; simpl.
  - now rewrite app_nil_r.
  - unfold pair_step at 2. simpl fst. simpl snd.
    destruct (Nat.eqb_spec k 0); [lia|]. simpl negb. cbv iota.
    rewrite IH by lia. rewrite concat_app. simpl.
    now rewrite <- app_assoc.
Qed.

Lemma pair_loop_pairs (sequence : list Z) :
  concat (snd (fold_left pair_step (enumerate sequence) ([], [])))
  = map (fun p => [fst p; snd p]) (combine sequence (tl sequence)).
Proof.
  unfold enumerate. destruct sequence as [|x l]; [reflexivity|].
  simpl. unfold pair_step at 2. simpl.
  now rewrite pair_loop_from by lia.
Qed.

Section WritesAt.
Context {F : Type} {NF : Num F}.

Lemma set_entry_other (n c : nat) (m m' : @matrix F) (k0 k1 : Z) (x : F)
  (i j : nat) :
  is_matrix n c m ->
  (0 <= k0 < Z.of_nat n)%Z -> (0 <= k1 < Z.of_nat c)%Z ->
  set_entry m k0 k1 x = Ok m' ->
  (Z.of_nat i, Z.of_nat j) <> (k0, k1) ->
  entry m' i j = entry m i j.
Proof.
  intros Hm H0 H1. unfold set_entry.
  assert (Hlen : length m = n) by now destruct Hm.
  unfold matrix in *. rewrite Hlen, tensor_index_Z by assumption. simpl.
  rewrite (is_matrix_row n c m (Z.to_nat k0) Hm) by lia.
  rewrite tensor_index_Z by assumption. simpl.
  intros Heq Hne. inversion Heq; subst m'. clear Heq. unfold entry.
  destruct (Nat.eq_dec i (Z.to_nat k0)) as [->|Hi].
  - rewrite nth_set_nth_eq by lia.
    apply nth_set_nth_neq. intros Hj. apply Hne. f_equal; lia.
  - now rewrite nth_set_nth_neq by congruence.
Qed.

Lemma foldM_writes_untouched {X : Type} (key0 key1 : X -> result Z)
  (val : X -> F) (n c : nat) (i j : nat) (l : list X) :
  Forall (fun kv => exists k0 k1,
            key0 kv = Ok k0 /\ key1 kv = Ok k1
            /\ (0 <= k0 < Z.of_nat n)%Z /\ (0 <= k1 < Z.of_nat c)%Z
            /\ (Z.of_nat i, Z.of_nat j) <> (k0, k1)) l ->
  forall m m' : @matrix F,
    is_matrix n c m ->
    foldM (fun m kv => k0 <- key0 kv ;; k1 <- key1 kv ;;
                       set_entry m k0 k1 (val kv)) l m = Ok m' ->
    entry m' i j = entry m i j.
Proof.
  induction 1 as [|kv l [k0 [k1 [E0 [E1 [H0 [H1 Hne]]]]]] Hl IH];
    intros m m' Hm Hrun; simpl in Hrun.
  - now inversion Hrun.
  - rewrite E0, E1 in Hrun. simpl in Hrun.
    destruct (set_entry m k0 k1 (val kv)) as [m1|e] eqn:E; simpl in Hrun;
      [|discriminate].
    rewrite (IH m1 m' (set_entry_shape n c m m1 k0 k1 (val kv) Hm E) Hrun).
    exact (set_entry_other n c m m1 k0 k1 (val kv) i j Hm H0 H1 E Hne).
Qed.

(** With the state values exactly 0..K-1, a position of the transition
    matrix that is not a pair of consecutive states of the sequence is
    never written: it keeps the zero of the allocation. *)
Lemma trans_mat_init_untouched (sequence : list Z) (K : nat) (m : @matrix F)
  (i j : nat) :
  (forall v, In v sequence <-> (0 <= v < Z.of_nat K)%Z) ->
  trans_mat_init sequence = Ok m ->
  ~ In (Z.of_nat i, Z.of_nat j) (combine sequence (tl sequence)) ->
  entry m i j = zero.
Proof.
  intros Hseq Hrun Hnot. unfold trans_mat_init in Hrun.
  rewrite pair_loop_pairs in Hrun.
  set (ts := Counter tuple_eqb _) in Hrun.
  assert (Hts : forall key val, In (key, val) ts ->
              exists a b, key = [a; b]
                          /\ In (a, b) (combine sequence (tl sequence))).
  { intros key val Hin.
    assert (Hkey : In key (map (fun p => [fst p; snd p])
                               (combine sequence (tl sequence)))).
    { apply (Counter_keys tuple_eqb). apply in_map_iff.
      exists (key, val). now split. }
    apply in_map_iff in Hkey. destruct Hkey as [[a b] [<- Hab]].
    now exists a, b. }
  destruct (mapM _ ts) as [d|e] eqn:Ed; simpl in Hrun; [|discriminate].
  assert (Hd : forall kv, In kv d -> exists val, In (fst kv, val) ts).
  { clear Hrun Hts. revert d Ed. induction ts as [|[key val] ts IH];
      intros d Ed; simpl in Ed.
    - inversion Ed. intros kv [].
    - destruct (py_get key 0) as [k0|e]; simpl in Ed; [|discriminate].
      destruct (py_truediv val _) as [q|e]; simpl in Ed; [|discriminate].
      destruct (mapM _ ts) as [d'|e] eqn:Ed'; simpl in Ed; [|discriminate].
      inversion Ed; subst d. intros kv [<-|Hin].
      + exists val. now left.
      + destruct (IH d' eq_refl kv Hin) as [v Hv]. exists v. now right. }
  rewrite <- (zeros_entry (set_length sequence) (set_length sequence) i j).
  apply (foldM_writes_untouched
           (fun kv : list Z * F => py_get (fst kv) 0)
           (fun kv => py_get (fst kv) 1) snd
           (set_length sequence) (set_length sequence) i j d);
    [|apply zeros_is_matrix | exact Hrun].
  apply Forall_forall. intros kv Hkv.
  destruct (Hd kv Hkv) as [val Hval].
  destruct (Hts _ _ Hval) as [a [b [Hk Hab]]].
  exists a, b. rewrite Hk. rewrite (set_length_exact sequence K Hseq).
  split; [reflexivity|]. split; [reflexivity|].
  split; [apply Hseq; eapply in_combine_l; exact Hab|].
  split.
  - apply Hseq. assert (Hb : In b (tl sequence))
      by (eapply in_combine_r; exact Hab).
    destruct sequence; [contradiction | now right].
  - intros Heq. apply Hnot. now rewrite Heq.
Qed.

End WritesAt.

Lemma foldM_total {S X : Type} (f : S -> X -> result S) (l : list X) :
  (forall s x, In x l -> exists s', f s x = Ok s') ->
  forall s, exists s', foldM f l s = Ok s'.
Proof.
  induction l as [|x l IH]; intros Hf s; simpl.
  - now exists s.
  - destruct (Hf s x (or_introl eq_refl)) as [s1 E]. rewrite E. simpl.
    apply IH. intros s0 x0 Hx0. apply Hf. now right.
Qed.

(** C8 (amended).  The initialiser has no validation step and no
    InvalidInputError.  On the empty state sequence it returns empty
    parameters; [hidden_state_init] never raises; and whenever the state
    values are exactly 0..K-1 and the symbols exactly 0..L-1,
    [emiss_state_init] returns a K-by-L matrix whatever the lengths of the
    two sequences are ([zip] pairs up their common prefix). *)
Theorem initializer_performs_no_validation {F : Type} {NF : Num F} :
  hidden_state_init (F := F) [] = Ok []
  /\ trans_mat_init (F := F) [] = Ok []
  /\ (forall obs_seq, emiss_state_init (F := F) [] obs_seq = Ok [])
  /\ (forall sequence, exists v : @vector F, hidden_state_init sequence = Ok v)
  /\ (forall (hid_seq obs_seq : list Z) (K L : nat),
        (forall v, In v hid_seq <-> (0 <= v < Z.of_nat K)%Z) ->
        (forall v, In v obs_seq <-> (0 <= v < Z.of_nat L)%Z) ->
        exists m : @matrix F,
          emiss_state_init hid_seq obs_seq = Ok m /\ is_matrix K L m).
Proof.
  split; [reflexivity|]. split; [reflexivity|]. split; [reflexivity|].
  split; [|exact emiss_state_init_in_bounds].
  intros sequence. unfold hidden_state_init.
  destruct sequence as [|x sequence]; [now exists []|].
  destruct (foldM_total
              (fun d state =>
                 p <- py_truediv (F := F) state
                        (Z.of_nat (length (x :: sequence))) ;;
                 Ok (dict_set Z.eqb state p d))
              (map snd (Counter Z.eqb (x :: sequence))))
    with (s := @nil (Z * F)) as [d Hd].
  - intros s c _. rewrite py_truediv_ok by (simpl; lia). simpl. now eexists.
  - rewrite Hd. simpl. now eexists.
Qed.

Lemma initializer_performs_no_validation_witness :
  (forall v, In v [0; 1]%Z <-> (0 <= v < Z.of_nat 2)%Z)
  /\ (forall v, In v [0; 0; 1]%Z <-> (0 <= v < Z.of_nat 2)%Z)
  /\ exists m : @matrix Qc,
       emiss_state_init [0; 1]%Z [0; 0; 1]%Z = Ok m /\ is_matrix 2 2 m.
Proof.
  assert (H1 : forall v, In v [0; 1]%Z <-> (0 <= v < Z.of_nat 2)%Z)
    by (intros v; simpl; lia).
  assert (H2 : forall v, In v [0; 0; 1]%Z <-> (0 <= v < Z.of_nat 2)%Z)
    by (intros v; simpl; lia).
  split; [exact H1|]. split; [exact H2|].
  exact (proj2 (proj2 (proj2 (proj2
           (@initializer_performs_no_validation Qc Qc_Num))))
           [0; 1]%Z [0; 0; 1]%Z 2 2 H1 H2).
Defined.

(** C8, as stated, fails: the empty sequences and two sequences of different
    lengths are all accepted. *)
Lemma initializer_accepts_degenerate_input :
  ~ raises (hidden_state_init (F := Qc) [])
  /\ ~ raises (trans_mat_init (F := Qc) [])
  /\ ~ raises (emiss_state_init (F := Qc) [] [])
  /\ ~ raises (emiss_state_init (F := Qc) [0; 1]%Z [])
  /\ ~ raises (emiss_state_init (F := Qc) [0; 1]%Z [0; 0; 1]%Z).
Proof.
  repeat split; intros [e H]; vm_compute in H; discriminate H.
Qed.

(** ** The summed zetas *)

Lemma mapM_spec {X Y : Type} (f : X -> result Y) (R : X -> Y -> Prop)
  (l : list X) :
  (forall x, In x l -> exists y, f x = Ok y /\ R x y) ->
  exists ys, mapM f l = Ok ys /\ Forall2 R l ys.
Proof.
  induction l as [|x l IH]; intros Hf; simpl.
  - exists []. split; [reflexivity | constructor].
  - destruct (Hf x (or_introl eq_refl)) as [y [Ey Ry]].
    destruct IH as [ys [Eys Rys]]; [intros x0 Hx0; apply Hf; now right|].
    exists (y :: ys). rewrite Ey, Eys. split; [reflexivity|].
    now constructor.
Qed.

Lemma Forall2_map_eq {X Y Z : Type} (R : X -> Y -> Prop) (h1 : X -> Z)
  (h2 : Y -> Z) (l : list X) (ys : list Y) :
  Forall2 R l ys -> (forall x y, In x l -> R x y -> h1 x = h2 y) ->
  map h1 l = map h2 ys.
Proof.
  induction 1 as [|x y l ys Rxy Hl IH]; intros Hh; simpl.
  - reflexivity.
  - f_equal; [apply Hh; [now left | assumption]|].
    apply IH. intros x0 y0 Hx0. apply Hh. now right.
Qed.

Lemma in_combine_seq {X : Type} (l : list X) (t : nat) (y d : X) :
  forall s, In (t, y) (combine (seq s (length l)) l) ->
            s <= t < s + length l /\ nth (t - s) l d = y.
Proof.
  induction l as [|x l IH]; intros s Hin; simpl in *; [contradiction|].
  destruct Hin as [Heq|Hin].
  - inversion Heq; subst. rewrite Nat.sub_diag. split; [lia | reflexivity].
  - destruct (IH (S s) Hin) as [Ht Hn]. split; [lia|].
    replace (t - s) with (S (t - S s)) by lia. exact Hn.
Qed.

Lemma in_enumerate {X : Type} (l : list X) (t : nat) (y d : X) :
  In (t, y) (enumerate l) -> t < length l /\ nth t l d = y.
Proof.
  intros Hin. destruct (in_combine_seq l t y d 0 Hin) as [Ht Hn].
  rewrite Nat.sub_0_r in Hn. split; [lia | exact Hn].
Qed.

Lemma map_fst_enumerate {X : Type} (l : list X) :
  map fst (enumerate l) = seq 0 (length l).
Proof.
  unfold enumerate. generalize 0 as s.
  induction l as [|x l IH]; intros s; simpl; [reflexivity|].
  now rewrite IH.
Qed.

Section ZetaFacts.
Context {F : Type} {NF : Num F}.

Lemma transpose_is_matrix (n c : nat) (m : @matrix F) :
  is_matrix n c m -> 0 < n -> is_matrix c n (transpose m).
Proof.
  intros Hm Hn. split.
  - now rewrite transpose_length, (is_matrix_ncols n c m Hm Hn).
  - apply Forall_forall. intros r Hr. unfold transpose in Hr.
    apply in_map_iff in Hr. destruct Hr as [j [<- _]].
    rewrite column_length. now destruct Hm.
Qed.

Lemma entry_transpose (n c : nat) (m : @matrix F) (i j : nat) :
  is_matrix n c m -> 0 < n -> j < c ->
  entry (transpose m) j i = entry m i j.
Proof.
  intros Hm Hn Hj. unfold entry at 1.
  rewrite nth_transpose by now rewrite (is_matrix_ncols n c m Hm Hn).
  apply nth_column.
Qed.

Lemma mdiv_scalar_is_matrix (n c : nat) (m : @matrix F) (s : F) :
  is_matrix n c m -> is_matrix n c (mdiv_scalar m s).
Proof.
  intros [Hlen Hrows]. split.
  - unfold mdiv_scalar. now rewrite length_map.
  - apply Forall_forall. intros r Hr. unfold mdiv_scalar in Hr.
    apply in_map_iff in Hr. destruct Hr as [r0 [<- Hr0]].
    unfold vdiv_scalar. rewrite length_map.
    rewrite Forall_forall in Hrows. now apply Hrows.
Qed.

Lemma mdiv_scalar_entry (n c : nat) (m : @matrix F) (s : F) (i j : nat) :
  is_matrix n c m -> i < n -> j < c ->
  entry (mdiv_scalar m s) i j = div (entry m i j) s.
Proof.
  intros Hm Hi Hj. unfold entry, mdiv_scalar, vdiv_scalar.
  rewrite (nth_map_in _ m i [] []) by (destruct Hm; lia).
  rewrite (nth_map_in _ _ j zero zero)
    by now rewrite (is_matrix_row n c m i Hm Hi).
  reflexivity.
Qed.

End ZetaFacts.

Section Zetas.
Context {F : Type} {NF : Num F}.
Variables (g : globals F) (N M Tb : nat).
Hypothesis HN : 0 < N.
Hypothesis HA : is_matrix N N (A g).
Hypothesis Hem : is_matrix N M (emission_matrix g).
Hypothesis Hbe : is_matrix N Tb (beta g).

Lemma scaled_rows_is_matrix (n c : nat) (b : @vector F) (m : @matrix F) :
  is_matrix n c m -> length b = c ->
  is_matrix n c (map (fun r => map (fun ab => mul (fst ab) (snd ab))
                                   (combine b r)) m).
Proof.
  intros [Hlen Hrows] Hb. split.
  - now rewrite length_map.
  - apply Forall_forall. intros r Hr. apply in_map_iff in Hr.
    destruct Hr as [r0 [<- Hr0]]. rewrite Forall_forall in Hrows.
    rewrite map2_length; [assumption | now rewrite (Hrows r0 Hr0)].
Qed.

Lemma scaled_rows_entry (n c : nat) (b : @vector F) (m : @matrix F)
  (i j : nat) :
  is_matrix n c m -> length b = c -> i < n -> j < c ->
  entry (map (fun r => map (fun ab => mul (fst ab) (snd ab)) (combine b r)) m)
        i j
  = mul (nth j b zero) (entry m i j).
Proof.
  intros Hm Hb Hi Hj. unfold entry.
  rewrite (nth_map_in _ m i [] []) by (destruct Hm; lia).
  apply nth_map2; [lia|]. now rewrite (is_matrix_row n c m i Hm Hi).
Qed.

Lemma zeta_step_ok (alpha' : @matrix F) (obs_seq : list Z) (T' t : nat) :
  is_matrix N T' alpha' -> t < T' -> t + 1 < Tb -> t + 1 < length obs_seq ->
  (0 <= nth (t + 1) obs_seq 0 < Z.of_nat M)%Z ->
  exists z,
    zeta_step g obs_seq (t, column alpha' t) = Ok z
    /\ is_matrix N N z
    /\ (forall i j, i < N -> j < N ->
          entry z i j
          = div (zeta_numerator g alpha' obs_seq t i j)
                (zeta_total g alpha' obs_seq N t)).
Proof.
  intros Hal Ht Htb Hobs Ho. unfold zeta_step. simpl fst. simpl snd.
  assert (Hfwd : length (column alpha' t) = N)
    by (rewrite column_length; now destruct Hal).
  pose proof (transpose_is_matrix N N (A g) HA HN) as HAt.
  rewrite (mmul_row_bcast N N _ _ HAt Hfwd). simpl bind.
  set (x := map (fun r => map (fun ab => mul (fst ab) (snd ab))
                              (combine (column alpha' t) r))
                (transpose (A g))).
  assert (Hx : is_matrix N N x) by now apply scaled_rows_is_matrix.
  replace (Z.of_nat t + 1)%Z with (Z.of_nat (t + 1)) by lia.
  rewrite (py_get_nth obs_seq (t + 1) 0%Z Hobs). simpl bind.
  rewrite (col_Z N M (emission_matrix g) _ Hem HN Ho). simpl bind.
  set (b := column (emission_matrix g) (Z.to_nat (nth (t + 1) obs_seq 0%Z))).
  assert (Hb : length b = N) by (unfold b; rewrite column_length;
                                 now destruct Hem).
  pose proof (transpose_is_matrix N N x Hx HN) as Hxt.
  rewrite (mmul_rows N N _ b Hxt Hb). simpl bind.
  rewrite (col_nat N Tb (beta g) (t + 1) Hbe HN Htb). simpl bind.
  set (be := column (beta g) (t + 1)).
  assert (Hbel : length be = N) by (unfold be; rewrite column_length;
                                    now destruct Hbe).
  pose proof (rows_map2_is_matrix mul N N _ b Hxt Hb) as Hn1.
  rewrite (mmul_rows N N _ be Hn1 Hbel). simpl bind.
  set (num := rows_map2 mul (rows_map2 mul (transpose x) b) be).
  assert (Hnum : is_matrix N N num) by now apply rows_map2_is_matrix.
  assert (Hent : forall i j, i < N -> j < N ->
             entry num i j = zeta_numerator g alpha' obs_seq t i j).
  { intros i j Hi Hj. unfold num.
    rewrite (rows_map2_entry mul N N _ be i j Hn1 Hbel Hi Hj).
    rewrite (rows_map2_entry mul N N _ b i j Hxt Hb Hi Hj).
    rewrite (entry_transpose N N x j i Hx HN Hi). unfold x.
    rewrite (scaled_rows_entry N N _ _ j i HAt Hfwd Hj Hi).
    rewrite (entry_transpose N N (A g) i j HA HN Hj).
    unfold zeta_numerator, b, be. now rewrite !nth_column. }
  eexists. split; [reflexivity|]. split.
  - now apply mdiv_scalar_is_matrix.
  - intros i j Hi Hj.
    rewrite (mdiv_scalar_entry N N num _ i j Hnum Hi Hj).
    rewrite (Hent i j Hi Hj). f_equal. unfold zeta_total.
    rewrite (map_seq_nth (sum_dim0 num)).
    rewrite (sum_dim0_length N N num Hnum HN).
    f_equal. apply map_ext_in. intros j' Hj'. apply in_seq in Hj'.
    rewrite (sum_dim0_nth N N num j' Hnum HN) by lia.
    f_equal. apply map_ext_in. intros i' Hi'. apply in_seq in Hi'.
    apply Hent; lia.
Qed.

Lemma sum_of_tables (n c : nat) (ms : list (@matrix F)) :
  Forall (is_matrix n c) ms ->
  is_matrix n c (fold_right madd (zeros n c) ms)
  /\ (forall i j, i < n -> j < c ->
        entry (fold_right madd (zeros n c) ms) i j
        = vsum (map (fun m => entry m i j) ms)).
Proof.
  induction 1 as [|m ms Hm Hms [IHs IHe]]; simpl.
  - split; [apply zeros_is_matrix|]. intros i j _ _. apply zeros_entry.
  - change (madd m (fold_right madd (zeros n c) ms))
      with (mat_map2 add m (fold_right madd (zeros n c) ms)).
    split; [now apply mat_map2_is_matrix|].
    intros i j Hi Hj.
    rewrite (mat_map2_entry add n c m _ i j Hm IHs Hi Hj).
    now rewrite IHe.
Qed.

Lemma calculate_zetas_ok (alpha' : @matrix F) (obs_seq : list Z) (T' : nat) :
  is_matrix N T' alpha' -> 1 <= T' -> T' < Tb -> T' < length obs_seq ->
  Forall (fun o => (0 <= o < Z.of_nat M)%Z) obs_seq ->
  exists sz,
    calculate_zetas g alpha' obs_seq = Ok sz
    /\ is_matrix N N sz
    /\ (forall i j, i < N -> j < N ->
          entry sz i j
          = vsum (map (fun t => div (zeta_numerator g alpha' obs_seq t i j)
                                    (zeta_total g alpha' obs_seq N t))
                      (seq 0 T'))).
Proof.
  intros Hal HT HTb Hlen Hobs. unfold calculate_zetas.
  pose proof (is_matrix_ncols N T' alpha' Hal HN) as Hnc.
  destruct (mapM_spec (zeta_step g obs_seq)
              (fun tf z =>
                 is_matrix N N z
                 /\ forall i j, i < N -> j < N ->
                      entry z i j
                      = div (zeta_numerator g alpha' obs_seq (fst tf) i j)
                            (zeta_total g alpha' obs_seq N (fst tf)))
              (enumerate (transpose alpha')))
    as [zs [Hrun Hzs]].
  { intros [t y] Hin.
    destruct (in_enumerate (transpose alpha') t y [] Hin) as [Ht Hy].
    rewrite transpose_length, Hnc in Ht.
    rewrite nth_transpose in Hy by lia. subst y. simpl.
    apply zeta_step_ok with (T' := T'); try assumption; try lia.
    rewrite Forall_forall in Hobs. apply Hobs, nth_In. lia. }
  rewrite Hrun. simpl bind.
  assert (Hall : Forall (is_matrix N N) zs).
  { clear Hrun. induction Hzs as [|tf z l zs' [Hz _] _ IH]; constructor; auto. }
  assert (Hne : length zs = T').
  { rewrite <- (Forall2_length Hzs). unfold enumerate.
    rewrite length_combine, length_seq, transpose_length, Hnc. lia. }
  unfold stack_sum. destruct zs as [|z0 zs]; [simpl in Hne; lia|].
  assert (Hz0 : is_matrix N N z0) by now inversion Hall.
  replace (forallb (same_shape z0) (z0 :: zs)) with true.
  2:{ symmetry. apply forallb_forall. intros z Hz.
      rewrite Forall_forall in Hall. specialize (Hall z Hz).
      unfold same_shape.
      rewrite (is_matrix_ncols N N z0 Hz0 HN), (is_matrix_ncols N N z Hall HN).
      destruct Hz0 as [-> _]. destruct Hall as [-> _].
      now rewrite !Nat.eqb_refl. }
  rewrite (is_matrix_ncols N N z0 Hz0 HN).
  replace (length z0) with N by (now destruct Hz0).
  destruct (sum_of_tables N N (z0 :: zs) Hall) as [Hshape Hentry].
  eexists. split; [reflexivity|]. split; [exact Hshape|].
  intros i j Hi Hj. rewrite (Hentry i j Hi Hj). f_equal.
  rewrite <- (Forall2_map_eq _
                (fun tf => div (zeta_numerator g alpha' obs_seq (fst tf) i j)
                               (zeta_total g alpha' obs_seq N (fst tf)))
                (fun m => entry m i j) _ _ Hzs).
  - rewrite <- (map_map fst
                  (fun t => div (zeta_numerator g alpha' obs_seq t i j)
                                (zeta_total g alpha' obs_seq N t))).
    now rewrite map_fst_enumerate, transpose_length, Hnc.
  - intros tf z _ [_ Hz]. symmetry. now apply Hz.
Qed.

End Zetas.

(** ** Re-estimation *)

Lemma np_where_eq_from (obs : list Z) (k : Z) :
  forall s,
    map fst (filter (fun p => (snd p =? k)%Z)
                    (combine (seq s (length obs)) obs))
    = filter (fun t => (nth (t - s) obs 0 =? k)%Z) (seq s (length obs)).
Proof.
  induction obs as [|o obs IH]; intros s; [reflexivity|].
  assert (Hext : filter (fun t => (nth (t - s) (o :: obs) 0 =? k)%Z)
                        (seq (S s) (length obs))
                 = filter (fun t => (nth (t - S s) obs 0 =? k)%Z)
                          (seq (S s) (length obs))).
  { apply filter_ext_in. intros t Ht. apply in_seq in Ht.
    replace (t - s) with (S (t - S s)) by lia. reflexivity. }
  cbn [length seq combine filter snd]. rewrite Nat.sub_diag.
  rewrite Hext, <- IH. cbn [nth]. destruct (o =? k)%Z; reflexivity.
Qed.

Lemma np_where_eq_filter (obs : list Z) (k : Z) :
  np_where_eq obs k
  = filter (fun t => (nth t obs 0 =? k)%Z) (seq 0 (length obs)).
Proof.
  unfold np_where_eq, enumerate. rewrite np_where_eq_from.
  apply filter_ext. intros t. now rewrite Nat.sub_0_r.
Qed.

Section ReEstimate.
Context {F : Type} {NF : Num F}.

Lemma removelast_as_seq (r : @vector F) (T : nat) :
  length r = T ->
  removelast r = map (fun t => nth t r zero) (seq 0 (T - 1)).
Proof.
  intros Hr. rewrite removelast_firstn_len, Hr.
  replace (Nat.pred T) with (T - 1) by lia.
  apply (nth_ext _ _ zero zero).
  - rewrite length_firstn, length_map, length_seq. lia.
  - intros t Ht. rewrite length_firstn in Ht.
    rewrite nth_firstn.
    destruct (Nat.ltb_spec t (T - 1)); [|lia].
    now rewrite nth_map_seq.
Qed.

Lemma drop_last_col_is_matrix (n c : nat) (m : @matrix F) :
  is_matrix n c m -> is_matrix n (c - 1) (drop_last_col m).
Proof.
  intros [Hlen Hrows]. split.
  - unfold drop_last_col. now rewrite length_map.
  - apply Forall_forall. intros r Hr. unfold drop_last_col in Hr.
    apply in_map_iff in Hr. destruct Hr as [r0 [<- Hr0]].
    rewrite Forall_forall in Hrows.
    rewrite (removelast_as_seq r0 c (Hrows r0 Hr0)).
    now rewrite length_map, length_seq.
Qed.

Lemma drop_last_col_entry (n c : nat) (m : @matrix F) (i t : nat) :
  is_matrix n c m -> i < n -> t < c - 1 ->
  entry (drop_last_col m) i t = entry m i t.
Proof.
  intros Hm Hi Ht. unfold entry, drop_last_col.
  rewrite (nth_map_in _ m i [] []) by (destruct Hm; lia).
  rewrite (removelast_as_seq _ c (is_matrix_row n c m i Hm Hi)).
  now rewrite nth_map_seq.
Qed.

Lemma row_as_seq (n c : nat) (m : @matrix F) (i : nat) :
  is_matrix n c m -> i < n ->
  nth i m [] = map (fun t => entry m i t) (seq 0 c).
Proof.
  intros Hm Hi. rewrite (map_seq_nth (nth i m [])) at 1.
  now rewrite (is_matrix_row n c m i Hm Hi).
Qed.

Lemma vdiv_by_single (r : @vector F) (s : F) :
  vdiv r [s] = Ok (map (fun a => div a s) r).
Proof.
  unfold vdiv. apply (bzip_rows (fun a b => Ok (div a b)) (fun a => div a s)).
  reflexivity.
Qed.

(** [torch.div(m, v.view(-1, 1))]: row [i] of [m] divided by [v[i]]. *)
Lemma mdiv_by_column (n c : nat) (m : @matrix F) (v : @vector F) :
  is_matrix n c m -> length v = n ->
  exists q,
    mdiv m (map (fun s => [s]) v) = Ok q
    /\ is_matrix n c q
    /\ (forall i j, i < n -> j < c ->
          entry q i j = div (entry m i j) (nth i v zero)).
Proof.
  intros Hm Hv.
  assert (Hlen : length m = n) by now destruct Hm.
  assert (Hrun : mdiv m (map (fun s => [s]) v)
                 = Ok (map (fun rv => map (fun a => div a (hd zero (snd rv)))
                                          (fst rv))
                           (combine m (map (fun s => [s]) v)))).
  { unfold mdiv.
    apply (bzip_same vdiv (fun r w => map (fun a => div a (hd zero w)) r)).
    - unfold matrix, vector in *. rewrite length_map. lia.
    - intros r w Hin. apply in_combine_r in Hin. apply in_map_iff in Hin.
      destruct Hin as [s [<- _]]. simpl. apply vdiv_by_single. }
  eexists. split; [exact Hrun|].
  assert (Hrow : forall i, i < n ->
            nth i (map (fun rv => map (fun a => div a (hd zero (snd rv)))
                                      (fst rv))
                       (combine m (map (fun s => [s]) v))) []
            = map (fun a => div a (nth i v zero)) (nth i m [])).
  { intros i Hi.
    rewrite (nth_map_in _ _ i [] ([], []))
      by (unfold matrix, vector in *;
          rewrite length_combine, length_map; lia).
    rewrite combine_nth by (unfold matrix, vector in *;
                            rewrite length_map; lia).
    simpl. rewrite (nth_map_in (fun s => [s]) v i [] zero) by lia.
    reflexivity. }
  split.
  - split.
    + unfold matrix, vector in *.
      rewrite length_map, length_combine, length_map. lia.
    + apply Forall_forall. intros r Hr.
      apply in_map_iff in Hr. destruct Hr as [[r0 w] [<- Hin]]. simpl.
      rewrite length_map. apply in_combine_l in Hin.
      destruct Hm as [_ Hrows]. rewrite Forall_forall in Hrows.
      now apply Hrows.
  - intros i j Hi Hj. unfold entry at 1. rewrite (Hrow i Hi).
    rewrite (nth_map_in _ _ j zero zero)
      by now rewrite (is_matrix_row n c m i Hm Hi).
    reflexivity.
Qed.

Lemma expected_output_occurrence_ok (n c : nat) (idx : list nat)
  (gamma : @matrix F) (sg : @vector F) :
  is_matrix n c gamma -> 0 < n -> length sg = n ->
  Forall (fun t => t < c) idx ->
  expected_output_occurrence idx gamma sg
  = Ok (map (fun i => div (vsum (map (fun t => entry gamma i t) idx))
                          (nth i sg zero))
            (seq 0 n)).
Proof.
  intros Hg Hn Hsg Hidx. unfold expected_output_occurrence, index_select1.
  rewrite (is_matrix_ncols n c gamma Hg Hn).
  replace (forallb (fun j => j <? c) idx) with true.
  2:{ symmetry. apply forallb_forall. intros t Ht.
      rewrite Forall_forall in Hidx. apply Nat.ltb_lt. now apply Hidx. }
  simpl bind. assert (Hlen : length gamma = n) by now destruct Hg.
  rewrite vdiv_same
    by (unfold sum_dim1; rewrite !length_map; unfold matrix, vector in *; lia).
  f_equal. rewrite (map2_as_seq div _ _ n)
    by (unfold sum_dim1; rewrite ?length_map; unfold matrix, vector in *; lia).
  apply map_ext_in. intros i Hi. apply in_seq in Hi. f_equal.
  unfold sum_dim1. rewrite map_map.
  rewrite (nth_map_in _ gamma i zero []) by lia. reflexivity.
Qed.

End ReEstimate.

Section ReEstimateMain.
Context {F : Type} {NF : Num F}.

Lemma re_estimate_parameters_ok (set_iter : list Z -> list Z) (g : globals F)
  (em alpha beta gamma sz : @matrix F) (N T : nat) :
  calculate_gammas alpha beta = Ok gamma ->
  calculate_zetas g (drop_last_col alpha) (obs_sequence g) = Ok sz ->
  is_matrix N T gamma -> is_matrix N N sz ->
  0 < N -> 1 <= T -> length (obs_sequence g) = T ->
  set_iter (obs_sequence g) <> [] ->
  exists new_pi new_A new_B,
    re_estimate_parameters set_iter g em alpha beta
    = Ok (new_pi, new_A, new_B)
    /\ new_pi = column gamma 0
    /\ is_matrix N N new_A
    /\ (forall i j, i < N -> j < N ->
          entry new_A i j
          = div (entry sz i j)
                (vsum (map (fun t => entry gamma i t) (seq 0 (T - 1)))))
    /\ is_matrix N (length (set_iter (obs_sequence g))) new_B
    /\ (forall i c, i < N -> c < length (set_iter (obs_sequence g)) ->
          entry new_B i c
          = div (vsum (map (fun t => entry gamma i t)
                           (filter (fun t =>
                                      (nth t (obs_sequence g) 0
                                       =? nth c (set_iter (obs_sequence g)) 0)%Z)
                                   (seq 0 T))))
                (vsum (map (fun t => entry gamma i t) (seq 0 T)))).
Proof.
  intros Hgam Hzet Hg Hsz HN HT Hobs Hks.
  assert (Hlen : length gamma = N) by now destruct Hg.
  unfold re_estimate_parameters. rewrite Hgam. simpl bind.
  pose proof (col_nat N T gamma 0 Hg HN ltac:(lia)) as Hcol.
  simpl Z.of_nat in Hcol. rewrite Hcol. simpl bind. rewrite Hzet. simpl bind.
  set (sg := sum_dim1 (drop_last_col gamma)).
  assert (Hsg : length sg = N)
    by (unfold sg, sum_dim1, drop_last_col; now rewrite !length_map).
  destruct (mdiv_by_column N N sz sg Hsz Hsg) as [q [Hq [Hqm Hqe]]].
  rewrite Hq. simpl bind.
  set (sg2 := sum_dim1 gamma).
  assert (Hsg2 : length sg2 = N) by (unfold sg2, sum_dim1; now rewrite length_map).
  set (h := fun idx : list nat =>
              map (fun i => div (vsum (map (fun t => entry gamma i t) idx))
                                (nth i sg2 zero))
                  (seq 0 N)).
  set (ks := set_iter (obs_sequence g)) in *.
  rewrite (mapM_ok _ h).
  2:{ intros idx Hidx. apply in_map_iff in Hidx. destruct Hidx as [k [<- _]].
      apply expected_output_occurrence_ok with (c := T); try assumption.
      rewrite np_where_eq_filter, Hobs. apply Forall_forall.
      intros t Ht. apply filter_In in Ht. destruct Ht as [Ht _].
      apply in_seq in Ht. lia. }
  simpl bind. rewrite map_map.
  set (cols := map (fun k => h (np_where_eq (obs_sequence g) k)) ks).
  assert (Hcols : is_matrix (length ks) N cols).
  { split.
    - unfold cols. now rewrite length_map.
    - apply Forall_forall. intros r Hr. unfold cols in Hr.
      apply in_map_iff in Hr. destruct Hr as [k [<- _]].
      unfold h. now rewrite length_map, length_seq. }
  assert (HC : 0 < length ks) by (destruct ks; [congruence | simpl; lia]).
  assert (Hstack : stack cols = Ok cols).
  { unfold stack. destruct cols as [|v0 cols'] eqn:Ecols.
    - destruct Hcols as [Hl _]. simpl in Hl. lia.
    - replace (forallb (fun v => length v =? length v0) (v0 :: cols'))
        with true; [reflexivity|].
      symmetry. apply forallb_forall. intros v Hv.
      destruct Hcols as [_ Hrows]. rewrite Forall_forall in Hrows.
      rewrite (Hrows v Hv), (Hrows v0 (or_introl eq_refl)).
      apply Nat.eqb_refl. }
  rewrite Hstack. simpl bind.
  exists (column gamma 0), q, (transpose cols).
  split; [reflexivity|]. split; [reflexivity|]. split; [exact Hqm|]. split.
  { intros i j Hi Hj. rewrite (Hqe i j Hi Hj). f_equal.
    unfold sg, sum_dim1, drop_last_col. rewrite map_map.
    rewrite (nth_map_in _ gamma i zero []) by lia.
    rewrite (removelast_as_seq _ T (is_matrix_row N T gamma i Hg Hi)).
    reflexivity. }
  split; [now apply transpose_is_matrix|].
  intros i c Hi Hc.
  rewrite (entry_transpose (length ks) N cols c i Hcols HC Hi).
  unfold entry at 1. unfold cols.
  rewrite (nth_map_in _ ks c [] 0%Z) by assumption.
  unfold h. rewrite nth_map_seq by assumption.
  rewrite np_where_eq_filter, Hobs. f_equal.
  unfold sg2, sum_dim1. rewrite (nth_map_in _ gamma i zero []) by lia.
  now rewrite (row_as_seq N T gamma i Hg Hi).
Qed.

End ReEstimateMain.

(** The iteration over [set(obs)] has one item per distinct symbol. *)
Lemma set_iter_length (ks obs : list Z) :
  NoDup ks -> (forall k, In k ks <-> In k obs) -> length ks = set_length obs.
Proof.
  intros Hnd Hset. unfold set_length.
  apply Permutation_length, NoDup_Permutation;
    [assumption | apply NoDup_nodup|].
  intros k. now rewrite nodup_In.
Qed.

(** A sequence over the alphabet 0..M-1 that misses a symbol has fewer than
    [M] distinct symbols. *)
Lemma set_length_missing (obs : list Z) (M : nat) (k : Z) :
  Forall (fun o => (0 <= o < Z.of_nat M)%Z) obs ->
  (0 <= k < Z.of_nat M)%Z -> ~ In k obs -> set_length obs < M.
Proof.
  intros Hobs Hk Hnot. unfold set_length.
  assert (Hle : length (k :: nodup Z.eq_dec obs)
                <= length (map Z.of_nat (seq 0 M))).
  { apply NoDup_incl_length.
    - constructor; [now rewrite nodup_In | apply NoDup_nodup].
    - intros v [<-|Hv].
      + apply in_map_iff. exists (Z.to_nat k). split; [lia|].
        apply in_seq. lia.
      + apply nodup_In in Hv. rewrite Forall_forall in Hobs.
        specialize (Hobs v Hv). apply in_map_iff.
        exists (Z.to_nat v). split; [lia|]. apply in_seq. lia. }
  rewrite length_map, length_seq in Hle. simpl in Hle. lia.
Qed.

(** C3.  What the re-estimator does where the claim promises a column for
    every symbol of the alphabet.  On well-shaped tables and a sequence of at
    least two symbols it returns [new_pi = gamma[:, 0]] and
    [new_A[i, j] = summed_zeta[i, j] / sum_{t <= T-2} gamma[i, t]] as
    claimed, but its [new_B] has one column per distinct symbol that occurs
    in the observation sequence, numbered in the iteration order of the set:
    column [c] holds the estimate of the [c]-th such symbol [k],
    [(sum of gamma[i, t] over the t with obs[t] = k) / sum_t gamma[i, t]].
    When a symbol of the alphabet 0..M-1 never occurs, [new_B] has fewer
    than [M] columns: the symbol has no column, and the columns are no
    longer indexed by the symbols. *)
Theorem re_estimate_drops_unseen_symbols {F : Type} {NF : Num F}
  (set_iter : list Z -> list Z) (g : globals F) (em al be : @matrix F)
  (N M T : nat) (k : Z) :
  0 < N -> 2 <= T ->
  is_matrix N T al -> is_matrix N T be ->
  is_matrix N N (A g) -> is_matrix N M (emission_matrix g) ->
  is_matrix N T (beta g) ->
  length (obs_sequence g) = T ->
  Forall (fun o => (0 <= o < Z.of_nat M)%Z) (obs_sequence g) ->
  NoDup (set_iter (obs_sequence g)) ->
  (forall k, In k (set_iter (obs_sequence g)) <-> In k (obs_sequence g)) ->
  (0 <= k < Z.of_nat M)%Z -> ~ In k (obs_sequence g) ->
  exists gamma sz new_pi new_A new_B,
    calculate_gammas al be = Ok gamma
    /\ calculate_zetas g (drop_last_col al) (obs_sequence g) = Ok sz
    /\ re_estimate_parameters set_iter g em al be
       = Ok (new_pi, new_A, new_B)
    /\ new_pi = column gamma 0
    /\ is_matrix N N new_A
    /\ (forall i j, i < N -> j < N ->
          entry new_A i j
          = div (entry sz i j)
                (vsum (map (fun t => entry gamma i t) (seq 0 (T - 1)))))
    /\ is_matrix N (set_length (obs_sequence g)) new_B
    /\ set_length (obs_sequence g) < M
    /\ (forall i c, i < N -> c < set_length (obs_sequence g) ->
          entry new_B i c
          = div (vsum (map (fun t => entry gamma i t)
                           (filter (fun t =>
                                      (nth t (obs_sequence g) 0
                                       =? nth c (set_iter (obs_sequence g)) 0)%Z)
                                   (seq 0 T))))
                (vsum (map (fun t => entry gamma i t) (seq 0 T)))).
Proof.
  intros HN HT Hal Hbe HA Hem Hgb Hobs Hrange Hnd Hset Hk Hnot.
  destruct (calculate_gammas_ok al be N T Hal Hbe HN)
    as [gamma [Hgam [Hg _]]].
  destruct (calculate_zetas_ok g N M T HN HA Hem Hgb (drop_last_col al)
              (obs_sequence g) (T - 1)
              (drop_last_col_is_matrix N T al Hal)
              ltac:(lia) ltac:(lia) ltac:(lia) Hrange)
    as [sz [Hzet [Hsz _]]].
  assert (Hks : set_iter (obs_sequence g) <> []).
  { destruct (obs_sequence g) as [|o os] eqn:E; [simpl in Hobs; lia|].
    intros Hnil. pose proof (proj2 (Hset o) (or_introl eq_refl)) as Hin.
    rewrite Hnil in Hin. exact Hin. }
  destruct (re_estimate_parameters_ok set_iter g em al be gamma sz N T
              Hgam Hzet Hg Hsz HN ltac:(lia) Hobs Hks)
    as [npi [nA [nB [Hrun [Hpi [HnA [HeA [HnB HeB]]]]]]]].
  rewrite (set_iter_length _ _ Hnd Hset) in HnB, HeB.
  exists gamma, sz, npi, nA, nB.
  repeat (split; [assumption|]).
  split; [exact (set_length_missing _ M k Hrange Hk Hnot)|]. assumption.
Qed.

Lemma re_estimate_drops_unseen_symbols_witness :
  exists gamma sz new_pi new_A new_B,
    calculate_gammas (alpha missing_symbol_tables)
      (beta missing_symbol_tables) = Ok gamma
    /\ calculate_zetas missing_symbol_tables
         (drop_last_col (alpha missing_symbol_tables))
         (obs_sequence missing_symbol_tables) = Ok sz
    /\ re_estimate_parameters ascending_set missing_symbol_tables
         (emission_matrix missing_symbol_tables)
         (alpha missing_symbol_tables) (beta missing_symbol_tables)
       = Ok (new_pi, new_A, new_B)
    /\ new_pi = column gamma 0
    /\ is_matrix 2 2 new_A
    /\ (forall i j, i < 2 -> j < 2 ->
          entry new_A i j
          = div (entry sz i j)
                (vsum (map (fun t => entry gamma i t) (seq 0 (3 - 1)))))
    /\ is_matrix 2 (set_length (obs_sequence missing_symbol_tables)) new_B
    /\ set_length (obs_sequence missing_symbol_tables) < 3
    /\ (forall i c, i < 2 ->
          c < set_length (obs_sequence missing_symbol_tables) ->
          entry new_B i c
          = div (vsum (map (fun t => entry gamma i t)
                     (filter (fun t =>
                        (nth t (obs_sequence missing_symbol_tables) 0
                         =? nth c (ascending_set
                                     (obs_sequence missing_symbol_tables))
                                  0)%Z)
                        (seq 0 3))))
                (vsum (map (fun t => entry gamma i t) (seq 0 3)))).
Proof.
  apply (re_estimate_drops_unseen_symbols ascending_set missing_symbol_tables
           (emission_matrix missing_symbol_tables)
           (alpha missing_symbol_tables) (beta missing_symbol_tables)
           2 3 3 1%Z).
  - lia.
  - lia.
  - concrete_shape.
  - concrete_shape.
  - concrete_shape.
  - concrete_shape.
  - concrete_shape.
  - reflexivity.
  - repeat constructor; simpl; lia.
  - vm_compute. repeat (constructor; [simpl; lia|]). constructor.
  - intros k. simpl. lia.
  - lia.
  - simpl. lia.
Defined.

(** On the numeric example with the sequence [0, 2, 2] the alphabet has three
    symbols but the re-estimated emission matrix has two columns (for the
    symbols 0 and 2): symbol 1 has no column and column 1 holds the values
    of symbol 2. *)
Lemma re_estimate_skips_unseen_symbol :
  ncols (emission_matrix missing_symbol_globals) = 3
  /\ rmap (fun r => map (map round4) (snd r))
          (one_pass ascending_set missing_symbol_globals)
     = Ok [[4329; 5671]; [1972; 8028]]%Z.
Proof. split; [reflexivity | vm_compute; reflexivity]. Qed.

(** With these re-estimated parameters the next forward pass on the same
    sequence stops at the symbol 2, for which the two-column emission matrix
    has no column. *)
Lemma re_estimate_unseen_symbol_breaks_next_pass :
  bind (one_pass ascending_set missing_symbol_globals)
       (fun r => forward {| obs_sequence := obs_sequence missing_symbol_globals;
                            pi := fst (fst r);
                            A := snd (fst r);
                            emission_matrix := snd r;
                            alpha := zeros 2 3;
                            beta := zeros 2 3 |}
                         (snd r) false)
  = Err IndexError.
Proof. vm_compute. reflexivity. Qed.

(** ** One E-step and one M-step *)

Section Partition.
Context {F : Type} {NF : Num F} {NL : NumLaws F}.

Lemma vsum_filter {X : Type} (f : X -> F) (p : X -> bool) (l : list X) :
  vsum (map f (filter p l))
  = vsum (map (fun x => if p x then f x else zero) l).
Proof.
  induction l as [|x l IH]; simpl; [reflexivity|].
  destruct (p x); simpl; rewrite IH; [reflexivity|]. now rewrite add_0_l.
Qed.

Lemma vsum_indicator_absent (ks : list Z) (k : Z) (x : F) :
  ~ In k ks ->
  vsum (map (fun k' => if (k =? k')%Z then x else zero) ks) = zero.
Proof.
  induction ks as [|k0 ks IH]; simpl; intros Hk; [reflexivity|].
  destruct (Z.eqb_spec k k0) as [->|Hne]; [exfalso; apply Hk; now left|].
  rewrite IH by (intros H; apply Hk; now right). apply add_0_l.
Qed.

Lemma vsum_indicator (ks : list Z) (k : Z) (x : F) :
  NoDup ks -> In k ks ->
  vsum (map (fun k' => if (k =? k')%Z then x else zero) ks) = x.
Proof.
  induction 1 as [|k0 ks Hk0 Hnd IH]; simpl; intros Hk; [contradiction|].
  destruct (Z.eqb_spec k k0) as [->|Hne].
  - rewrite vsum_indicator_absent by assumption.
    rewrite add_comm. apply add_0_l.
  - destruct Hk as [->|Hk]; [congruence|].
    rewrite IH by assumption. apply add_0_l.
Qed.

Lemma map_nth_seq {X Y : Type} (h : X -> Y) (l : list X) (d : X) :
  map (fun c => h (nth c l d)) (seq 0 (length l)) = map h l.
Proof.
  rewrite <- (map_map (fun c => nth c l d) h). f_equal.
  apply (nth_ext _ _ d d).
  - now rewrite length_map, length_seq.
  - intros c Hc. rewrite length_map, length_seq in Hc.
    now rewrite nth_map_seq.
Qed.

(** The positions of a sequence, grouped by the symbol they carry, are all
    the positions. *)
Lemma sum_over_classes (obs ks : list Z) (f : nat -> F) (T : nat) :
  length obs = T -> NoDup ks -> (forall k, In k ks <-> In k obs) ->
  vsum (map (fun c =>
               vsum (map f (filter (fun t => (nth t obs 0 =? nth c ks 0)%Z)
                                   (seq 0 T))))
            (seq 0 (length ks)))
  = vsum (map f (seq 0 T)).
Proof.
  intros Hobs Hnd Hks.
  rewrite (map_ext _
             (fun c => vsum (map (fun t =>
                                    if (nth t obs 0 =? nth c ks 0)%Z
                                    then f t else zero)
                                 (seq 0 T))))
    by (intros c; apply vsum_filter).
  rewrite vsum_swap. f_equal. apply map_ext_in. intros t Ht.
  apply in_seq in Ht.
  rewrite (map_nth_seq (fun k' => if (nth t obs 0 =? k')%Z then f t else zero)
             ks 0%Z).
  apply vsum_indicator; [assumption|]. apply Hks, nth_In. lia.
Qed.

End Partition.

Lemma forward_keeps_beta {F : Type} {NF : Num F} (g : globals F)
  (em : @matrix F) (log : bool) (ga : globals F * @matrix F) :
  forward g em log = Ok ga -> beta (fst ga) = beta g.
Proof.
  unfold forward.
  destruct (py_get (obs_sequence g) 0) as [o0|e]; simpl; [|discriminate].
  destruct (col em o0) as [b0|e]; simpl; [|discriminate].
  destruct (vmul (pi g) b0) as [a0|e]; simpl; [|discriminate].
  destruct (set_col (alpha g) 0 (scaled log a0)) as [al0|e]; simpl;
    [|discriminate].
  destruct (foldM _ _ al0) as [al|e]; simpl; [|discriminate].
  intros H. inversion H. reflexivity.
Qed.

(** C5 (the code departs from the claim).  One pass needs [backward], whose
    initialization column has two entries: for a model with any other
    number of states the pass raises and produces no parameters. *)
Theorem one_pass_rejects_other_state_counts {F : Type} {NF : Num F}
  (set_iter : list Z -> list Z) (g : globals F) (N T : nat) :
  is_matrix N T (beta g) -> 0 < N -> 0 < T -> N <> 2 ->
  raises (one_pass set_iter g).
Proof.
  intros Hbe HN HT Hne. unfold one_pass.
  destruct (forward g (emission_matrix g) false) as [ga|e] eqn:Efwd.
  - simpl bind.
    rewrite (backward_column_misfit (fst ga) _ false N T); try assumption.
    + now exists ShapeError.
    + now rewrite (forward_keeps_beta g _ false ga Efwd).
  - now exists e.
Qed.

Lemma one_pass_rejects_other_state_counts_witness :
  is_matrix 3 2 (beta three_state_globals) /\ 0 < 3 /\ 0 < 2 /\ 3 <> 2
  /\ raises (one_pass ascending_set three_state_globals).
Proof.
  split; [concrete_shape|].
  split; [lia|]. split; [lia|]. split; [lia|].
  apply (one_pass_rejects_other_state_counts ascending_set
           three_state_globals 3 2).
  - concrete_shape.
  - lia.
  - lia.
  - lia.
Defined.

Section TwoStates.
Context {F : Type} {NF : Num F} {NL : NumLaws F}.

Add Ring F_ring_two : (@F_semi_ring F NF NL).

(** X15.  What one pass does compute when the model has exactly two states
    (in exact arithmetic): it returns parameters, and wherever the denominator
    of a re-estimate is not zero the re-estimate sums to one. *)
Lemma one_pass_row_stochastic_two_states (set_iter : list Z -> list Z)
  (g : globals F) (M T : nat) :
  2 <= T -> length (pi g) = 2 ->
  is_matrix 2 2 (A g) -> is_matrix 2 M (emission_matrix g) ->
  is_matrix 2 T (alpha g) -> is_matrix 2 T (beta g) ->
  length (obs_sequence g) = T ->
  Forall (fun o => (0 <= o < Z.of_nat M)%Z) (obs_sequence g) ->
  NoDup (set_iter (obs_sequence g)) ->
  (forall k, In k (set_iter (obs_sequence g)) <-> In k (obs_sequence g)) ->
  exists al be gamma new_pi new_A new_B,
    forward g (emission_matrix g) false = Ok (set_alpha g al, al)
    /\ backward (set_alpha g al) (obs_sequence g) false
       = Ok (set_beta (set_alpha g al) be, be)
    /\ calculate_gammas al be = Ok gamma
    /\ one_pass set_iter g = Ok (new_pi, new_A, new_B)
    /\ (vsum (map (fun i => mul (entry al i 0) (entry be i 0)) (seq 0 2))
        <> zero ->
        vsum new_pi = one)
    /\ (forall i, i < 2 ->
          vsum (map (fun t => entry gamma i t) (seq 0 (T - 1))) <> zero ->
          vsum (nth i new_A []) = one)
    /\ (forall i, i < 2 ->
          vsum (map (fun t => entry gamma i t) (seq 0 T)) <> zero ->
          vsum (nth i new_B []) = one).
Proof.
  intros HT Hpi HA HB Hal Hbe Hobs Hrange Hnd Hset.
  assert (H2 : 0 < 2) by lia.
  destruct (forward_table g (emission_matrix g) 2 M T H2 ltac:(lia) Hpi HA HB
              Hal Hobs Hrange) as [al [Hfwd [Hal' _]]].
  destruct (backward_recurrence_two_states (set_alpha g al) (obs_sequence g)
              M T mul_comm ltac:(lia) HA HB Hbe Hobs Hrange)
    as [be [Hbwd [Hbe' [_ Hrec]]]].
  destruct (calculate_gammas_ok al be 2 T Hal' Hbe' H2)
    as [gamma [Hgam [Hg Hge]]].
  set (g2 := set_beta (set_alpha g al) be).
  destruct (calculate_zetas_ok g2 2 M T H2 HA HB Hbe' (drop_last_col al)
              (obs_sequence g) (T - 1)
              (drop_last_col_is_matrix 2 T al Hal')
              ltac:(lia) ltac:(lia) ltac:(lia) Hrange)
    as [sz [Hzet [Hsz Hsze]]].
  assert (Hks : set_iter (obs_sequence g) <> []).
  { destruct (obs_sequence g) as [|o os] eqn:E; [simpl in Hobs; lia|].
    intros Hnil. pose proof (proj2 (Hset o) (or_introl eq_refl)) as Hin.
    rewrite Hnil in Hin. exact Hin. }
  destruct (re_estimate_parameters_ok set_iter g2 (emission_matrix g) al be
              gamma sz 2 T Hgam Hzet Hg Hsz H2 ltac:(lia) Hobs Hks)
    as [npi [nA [nB [Hrun [Hpi' [HnA [HeA [HnB HeB]]]]]]]].
  exists al, be, gamma, npi, nA, nB.
  split; [exact Hfwd|]. split; [exact Hbwd|]. split; [exact Hgam|].
  split.
  { unfold one_pass. rewrite Hfwd. cbn [bind fst snd].
    change (obs_sequence (set_alpha g al)) with (obs_sequence g).
    rewrite Hbwd. cbn [bind fst snd]. exact Hrun. }
  assert (Hkey : forall i t, i < 2 -> t < T - 1 ->
            vsum (map (zeta_numerator g2 (drop_last_col al)
                         (obs_sequence g) t i) (seq 0 2))
            = mul (entry al i t) (entry be i t)).
  { intros i t Hi Ht. unfold zeta_numerator.
    rewrite (drop_last_col_entry 2 T al i t Hal' Hi Ht).
    rewrite (Hrec t i ltac:(lia) Hi).
    rewrite <- vsum_map_mul_l. f_equal. apply map_ext. intros j.
    cbn [g2 set_beta set_alpha A emission_matrix beta]. ring. }
  assert (Htot : forall t, t < T - 1 ->
            zeta_total g2 (drop_last_col al) (obs_sequence g) 2 t
            = vsum (map (fun i => mul (entry al i t) (entry be i t))
                        (seq 0 2))).
  { intros t Ht. unfold zeta_total. rewrite vsum_swap. f_equal.
    apply map_ext_in. intros i Hi. apply in_seq in Hi.
    apply Hkey; lia. }
  split; [|split].
  - intros HD. subst npi. rewrite (column_as_seq 2 T gamma 0 Hg).
    rewrite (map_ext_in _
               (fun i => div (mul (entry al i 0) (entry be i 0))
                             (vsum (map (fun i' => mul (entry al i' 0)
                                                       (entry be i' 0))
                                        (seq 0 2)))))
      by (intros i Hi; apply in_seq in Hi; apply Hge; lia).
    rewrite vsum_map_div. now apply div_self.
  - intros i Hi HS. rewrite (row_as_seq 2 2 nA i HnA Hi).
    rewrite (map_ext_in _
               (fun j => div (entry sz i j)
                             (vsum (map (fun t => entry gamma i t)
                                        (seq 0 (T - 1))))))
      by (intros j Hj; apply in_seq in Hj; apply HeA; lia).
    rewrite vsum_map_div.
    replace (vsum (map (fun j => entry sz i j) (seq 0 2)))
      with (vsum (map (fun t => entry gamma i t) (seq 0 (T - 1))));
      [now apply div_self|].
    rewrite (map_ext_in (fun j => entry sz i j)
               (fun j => vsum (map (fun t =>
                                      div (zeta_numerator g2 (drop_last_col al)
                                             (obs_sequence g) t i j)
                                          (zeta_total g2 (drop_last_col al)
                                             (obs_sequence g) 2 t))
                                   (seq 0 (T - 1)))))
      by (intros j Hj; apply in_seq in Hj; apply Hsze; lia).
    rewrite vsum_swap. f_equal. apply map_ext_in. intros t Ht.
    apply in_seq in Ht. rewrite vsum_map_div.
    rewrite (Hge i t Hi ltac:(lia)).
    rewrite (Hkey i t Hi ltac:(lia)), (Htot t ltac:(lia)). reflexivity.
  - intros i Hi HR.
    rewrite (row_as_seq 2 _ nB i HnB Hi).
    rewrite (map_ext_in _
               (fun c =>
                  div (vsum (map (fun t => entry gamma i t)
                               (filter (fun t =>
                                  (nth t (obs_sequence g) 0
                                   =? nth c (set_iter (obs_sequence g)) 0)%Z)
                                  (seq 0 T))))
                      (vsum (map (fun t => entry gamma i t) (seq 0 T)))))
      by (intros c Hc; apply in_seq in Hc; apply HeB; [assumption | lia]).
    rewrite vsum_map_div.
    rewrite (sum_over_classes (obs_sequence g) (set_iter (obs_sequence g))
               (fun t => entry gamma i t) T Hobs Hnd Hset).
    now apply div_self.
Qed.

End TwoStates.

(** * Further properties of the notebook's functions *)

(** ** Both branches of the recursions *)

Lemma scaled_length {F : Type} {NF : Num F} (log : bool) (v : @vector F) :
  length (scaled log v) = length v.
Proof.
  destruct log; simpl; [|reflexivity].
  unfold vdiv_scalar. apply length_map.
Qed.

Section ForwardAny.
Context {F : Type} {NF : Num F}.
Variables (g : globals F) (em : @matrix F) (log : bool) (N M T : nat).
Hypothesis HN : 0 < N.
Hypothesis HA : is_matrix N N (A g).
Hypothesis Hem : is_matrix N M em.

Lemma forward_step_any (al : @matrix F) (i : nat) (o : Z) :
  is_matrix N T al -> i + 1 < T -> (0 <= o < Z.of_nat M)%Z ->
  forward_step g em log al (i, o)
  = Ok (put_col al (S i)
          (scaled log (forward_column N (A g) em (column al i) o))).
Proof.
  intros Hal Hi Ho. unfold forward_step. simpl fst. simpl snd.
  rewrite (col_nat N T al i Hal HN) by lia. simpl bind.
  rewrite (matmul_vm_ok N N (column al i) (A g) HA HN)
    by (rewrite column_length; now destruct Hal).
  simpl bind. rewrite (col_Z N M em o Hem HN Ho). simpl bind.
  rewrite vmul_same
    by (rewrite length_map, length_seq, column_length; now destruct Hem).
  simpl bind.
  replace (Z.of_nat i + 1)%Z with (Z.of_nat (S i)) by lia.
  match goal with
  | |- set_col _ _ (scaled log ?v) = _ =>
      assert (Hcol : v = forward_column N (A g) em (column al i) o)
  end.
  { rewrite (map2_as_seq mul _ _ N)
      by (rewrite ?length_map, ?length_seq, ?column_length;
          try reflexivity; now destruct Hem).
    unfold forward_column. apply map_ext_in. intros j Hj.
    apply in_seq in Hj. rewrite nth_map_seq by lia.
    now rewrite nth_column. }
  rewrite Hcol.
  apply set_col_nat with (n := N) (c := T); try assumption; try lia.
  rewrite scaled_length. unfold forward_column.
  now rewrite length_map, length_seq.
Qed.

Lemma forward_loop_any (os : list Z) :
  forall (k : nat) (al : @matrix F),
    is_matrix N T al -> k + length os < T ->
    Forall (fun o => (0 <= o < Z.of_nat M)%Z) os ->
    exists al',
      foldM (forward_step g em log) (combine (seq k (length os)) os) al
      = Ok al'
      /\ is_matrix N T al'
      /\ (forall t, t <= k -> column al' t = column al t)
      /\ (forall j, j < length os ->
            column al' (k + 1 + j)
            = scaled log (forward_column N (A g) em (column al' (k + j))
                            (nth j os 0%Z))).
Proof.
  induction os as [|o os IH]; intros k al Hal Hk Hos.
  - exists al. simpl. split; [reflexivity|]. split; [assumption|].
    split; [reflexivity|]. intros j Hj. lia.
  - simpl in Hk. pose proof (Forall_inv Hos) as Ho.
    pose proof (Forall_inv_tail Hos) as Hos'. simpl in Ho.
    simpl. rewrite forward_step_any by (try assumption; lia). simpl.
    set (v := scaled log (forward_column N (A g) em (column al k) o)).
    assert (Hv : length v = N).
    { unfold v. rewrite scaled_length. unfold forward_column.
      now rewrite length_map, length_seq. }
    assert (Hal1 : is_matrix N T (put_col al (S k) v))
      by now apply put_col_is_matrix.
    destruct (IH (S k) _ Hal1 ltac:(lia) Hos')
      as [al' [Hrun [Hal' [Hkeep Hrec]]]].
    exists al'. split; [assumption|]. split; [assumption|]. split.
    + intros t Ht. rewrite Hkeep by lia.
      rewrite (put_col_column N T al (S k) v t Hal Hv) by lia.
      destruct (Nat.eqb_spec t (S k)); [lia | reflexivity].
    + intros [|j] Hj.
      * rewrite !Nat.add_0_r. replace (k + 1) with (S k) by lia.
        rewrite !Hkeep by lia.
        rewrite !(put_col_column N T al (S k) v _ Hal Hv) by lia.
        rewrite Nat.eqb_refl.
        destruct (Nat.eqb_spec k (S k)); [lia | reflexivity].
      * simpl in Hj. simpl nth.
        replace (k + 1 + S j) with (S k + 1 + j) by lia.
        replace (k + S j) with (S k + j) by lia.
        apply Hrec. lia.
Qed.

End ForwardAny.

(** [forward], for either value of [log], column by column. *)
Lemma forward_table_any {F : Type} {NF : Num F} (g : globals F)
  (B : @matrix F) (log : bool) (N M T : nat) :
  0 < N -> 1 <= T ->
  length (pi g) = N -> is_matrix N N (A g) -> is_matrix N M B ->
  is_matrix N T (alpha g) ->
  length (obs_sequence g) = T ->
  Forall (fun o => (0 <= o < Z.of_nat M)%Z) (obs_sequence g) ->
  exists al,
    forward g B log = Ok (set_alpha g al, al)
    /\ is_matrix N T al
    /\ column al 0
       = scaled log
           (map (fun ab => mul (fst ab) (snd ab))
                (combine (pi g)
                   (column B (Z.to_nat (nth 0 (obs_sequence g) 0%Z)))))
    /\ (forall t, t + 1 < T ->
          column al (t + 1)
          = scaled log (forward_column N (A g) B (column al t)
                          (nth (t + 1) (obs_sequence g) 0%Z))).
Proof.
  intros HN HT Hpi HA HB Hal Hlen Hobs.
  unfold forward. destruct (obs_sequence g) as [|o0 os] eqn:Eobs.
  { simpl in Hlen. lia. }
  pose proof (Forall_inv Hobs) as Ho0. pose proof (Forall_inv_tail Hobs) as Hos.
  simpl in Ho0, Hlen.
  replace (py_get (o0 :: os) 0) with (Ok o0) by reflexivity. simpl bind.
  rewrite (col_Z N M B o0 HB HN Ho0). simpl bind.
  assert (HlenB : length (column B (Z.to_nat o0)) = N)
    by (rewrite column_length; now destruct HB).
  rewrite vmul_same by lia. simpl bind.
  set (v0 := scaled log (map (fun ab => mul (fst ab) (snd ab))
                             (combine (pi g) (column B (Z.to_nat o0))))).
  assert (Hv0 : length v0 = N)
    by (unfold v0; rewrite scaled_length, map2_length; lia).
  pose proof (set_col_nat N T (alpha g) 0 v0 Hal HN
                ltac:(lia) Hv0) as Hset.
  simpl Z.of_nat in Hset. rewrite Hset.
  simpl bind. simpl tl. unfold enumerate.
  assert (Hal0 : is_matrix N T (put_col (alpha g) 0 v0))
    by (apply put_col_is_matrix; assumption).
  destruct (forward_loop_any g B log N M T HN HA HB os 0 _ Hal0
              ltac:(simpl; lia) Hos)
    as [al [Hrun [Hal' [Hkeep Hrec]]]].
  rewrite Hrun. simpl bind. exists al.
  split; [reflexivity|]. split; [assumption|]. split.
  - rewrite Hkeep by lia.
    rewrite (put_col_column N T (alpha g) 0 v0 0 Hal Hv0) by lia.
    reflexivity.
  - intros t Ht. replace (t + 1) with (0 + 1 + t) at 1 by lia.
    rewrite Hrec by lia. simpl. now rewrite Nat.add_1_r.
Qed.

Section BackwardAny.
Context {F : Type} {NF : Num F}.
Variables (g : globals F) (log : bool) (N M T : nat).
Hypothesis HN : 0 < N.
Hypothesis HA : is_matrix N N (A g).
Hypothesis Hem : is_matrix N M (emission_matrix g).

Lemma backward_step_any (be : @matrix F) (i : nat) (o : Z) :
  is_matrix N T be -> i + 2 <= T -> (0 <= o < Z.of_nat M)%Z ->
  backward_step g log be (i, o)
  = Ok (put_col be (T - (i + 2))
          (scaled log (backward_column N (A g) (emission_matrix g)
                         (column be (T - (i + 1))) o))).
Proof.
  intros Hbe Hi Ho. unfold backward_step. simpl fst. simpl snd.
  rewrite (col_Z N M (emission_matrix g) o Hem HN Ho). simpl bind.
  rewrite (mmul_row_bcast N N _ (A g) HA)
    by (rewrite column_length; now destruct Hem).
  simpl bind.
  replace (- (Z.of_nat i + 1))%Z with (- Z.of_nat (i + 1))%Z by lia.
  rewrite (col_neg N HN T be (i + 1) Hbe) by lia. simpl bind.
  set (m := map (fun r => map (fun ab => mul (fst ab) (snd ab))
                              (combine (column (emission_matrix g)
                                          (Z.to_nat o)) r)) (A g)).
  assert (Hcl : length (column (emission_matrix g) (Z.to_nat o)) = N)
    by (rewrite column_length; now destruct Hem).
  assert (Hm : is_matrix N N m) by now apply scaled_rows_is_matrix.
  rewrite (matmul_mv_ok N N m _ Hm HN)
    by (rewrite column_length; now destruct Hbe).
  simpl bind.
  replace (- (Z.of_nat i + 2))%Z with (- Z.of_nat (i + 2))%Z by lia.
  match goal with
  | |- set_col _ _ (scaled log ?v) = _ =>
      assert (Hcol : v = backward_column N (A g) (emission_matrix g)
                           (column be (T - (i + 1))) o)
  end.
  { unfold backward_column. apply map_ext_in. intros i' Hi'.
    apply in_seq in Hi'. f_equal. apply map_ext_in. intros j Hj.
    apply in_seq in Hj. f_equal. unfold m.
    rewrite (scaled_rows_entry N HN N N _ (A g) i' j HA Hcl) by lia.
    now rewrite nth_column. }
  rewrite Hcol. apply set_col_neg with (N := N); try assumption; try lia.
  rewrite scaled_length. unfold backward_column.
  now rewrite length_map, length_seq.
Qed.

Lemma backward_loop_any (os : list Z) :
  forall (k : nat) (be : @matrix F),
    is_matrix N T be -> k + length os < T ->
    Forall (fun o => (0 <= o < Z.of_nat M)%Z) os ->
    exists be',
      foldM (backward_step g log) (combine (seq k (length os)) os) be
      = Ok be'
      /\ is_matrix N T be'
      /\ (forall t, T - 1 - k <= t -> column be' t = column be t)
      /\ (forall t, t + k + length os + 1 < T ->
            column be' t = column be t)
      /\ (forall j, j < length os ->
            column be' (T - 2 - k - j)
            = scaled log (backward_column N (A g) (emission_matrix g)
                            (column be' (T - 1 - k - j)) (nth j os 0%Z))).
Proof.
  induction os as [|o os IH]; intros k be Hbe Hk Hos.
  - exists be. simpl. split; [reflexivity|]. split; [assumption|].
    split; [reflexivity|]. split; [reflexivity|]. intros j Hj. lia.
  - simpl in Hk. pose proof (Forall_inv Hos) as Ho.
    pose proof (Forall_inv_tail Hos) as Hos'. simpl in Ho.
    simpl. rewrite backward_step_any by (try assumption; lia). simpl.
    set (v := scaled log (backward_column N (A g) (emission_matrix g)
                            (column be (T - (k + 1))) o)).
    assert (Hv : length v = N).
    { unfold v. rewrite scaled_length. unfold backward_column.
      now rewrite length_map, length_seq. }
    assert (Hbe1 : is_matrix N T (put_col be (T - (k + 2)) v))
      by now apply put_col_is_matrix.
    destruct (IH (S k) _ Hbe1 ltac:(lia) Hos')
      as [be' [Hrun [Hbe' [Hkeep [Hlow Hrec]]]]].
    exists be'. split; [assumption|]. split; [assumption|]. split; [|split].
    + intros t Ht. rewrite Hkeep by lia.
      rewrite (put_col_column N T be (T - (k + 2)) v t Hbe Hv) by lia.
      destruct (Nat.eqb_spec t (T - (k + 2))); [lia | reflexivity].
    + intros t Ht. rewrite Hlow by lia.
      rewrite (put_col_column N T be (T - (k + 2)) v t Hbe Hv) by lia.
      destruct (Nat.eqb_spec t (T - (k + 2))); [lia | reflexivity].
    + intros [|j] Hj.
      * rewrite !Nat.sub_0_r. rewrite !Hkeep by lia.
        rewrite !(put_col_column N T be (T - (k + 2)) v _ Hbe Hv) by lia.
        replace (T - 2 - k) with (T - (k + 2)) by lia.
        rewrite Nat.eqb_refl.
        destruct (Nat.eqb_spec (T - 1 - k) (T - (k + 2))); [lia|].
        simpl nth. unfold v. f_equal. f_equal. f_equal. lia.
      * simpl in Hj. simpl nth.
        replace (T - 2 - k - S j) with (T - 2 - S k - j) by lia.
        replace (T - 1 - k - S j) with (T - 1 - S k - j) by lia.
        apply Hrec. lia.
Qed.

End BackwardAny.

(** [backward] on a two-state model, for either value of [log] and an
    observation sequence no longer than the table. *)
Lemma backward_table_any {F : Type} {NF : Num F} (g : globals F)
  (observation : list Z) (log : bool) (M T L : nat) :
  1 <= T ->
  is_matrix 2 2 (A g) -> is_matrix 2 M (emission_matrix g) ->
  is_matrix 2 T (beta g) ->
  length observation = L -> L <= T ->
  Forall (fun o => (0 <= o < Z.of_nat M)%Z) observation ->
  exists be,
    backward g observation log = Ok (set_beta g be, be)
    /\ is_matrix 2 T be
    /\ column be (T - 1) = [one; one]
    /\ (forall t, t + Nat.max L 1 < T -> column be t = column (beta g) t)
    /\ (forall j, j + 1 < L ->
          column be (T - 2 - j)
          = scaled log (backward_column 2 (A g) (emission_matrix g)
                          (column be (T - 1 - j))
                          (nth (L - 1 - j) observation 0%Z))).
Proof.
  intros HT HA HB Hbe Hlen HL Hobs. unfold backward.
  assert (H2 : 0 < 2) by lia.
  change (-1)%Z with (- Z.of_nat 1)%Z.
  rewrite (set_col_neg 2 H2 T (beta g) 1 [one; one] Hbe) by (simpl; lia).
  simpl bind. unfold enumerate.
  assert (Hone : length [@one F _; one] = 2) by reflexivity.
  assert (Hbe0 : is_matrix 2 T (put_col (beta g) (T - 1) [one; one]))
    by (apply put_col_is_matrix; assumption).
  assert (Hos : Forall (fun o => (0 <= o < Z.of_nat M)%Z)
                       (rev (tl observation))).
  { apply Forall_rev. destruct observation; [constructor|].
    now apply Forall_inv_tail in Hobs. }
  assert (Hlos : length (rev (tl observation)) = L - 1).
  { rewrite length_rev. destruct observation; simpl in *; lia. }
  destruct (backward_loop_any g log 2 M T H2 HA HB (rev (tl observation)) 0 _
              Hbe0 ltac:(lia) Hos)
    as [be [Hrun [Hbe' [Hkeep [Hlow Hrec]]]]].
  rewrite Hrun. simpl bind. exists be.
  split; [reflexivity|]. split; [assumption|]. split; [|split].
  - rewrite Hkeep by lia.
    rewrite (put_col_column 2 T (beta g) (T - 1) [one; one] (T - 1) Hbe Hone)
      by lia.
    now rewrite Nat.eqb_refl.
  - intros t Ht. rewrite Hlow by lia.
    rewrite (put_col_column 2 T (beta g) (T - 1) [one; one] t Hbe Hone)
      by lia.
    destruct (Nat.eqb_spec t (T - 1)); [lia | reflexivity].
  - intros j Hj.
    replace (T - 2 - j) with (T - 2 - 0 - j) by lia.
    rewrite Hrec by lia.
    replace (T - 1 - 0 - j) with (T - 1 - j) by lia.
    rewrite rev_nth by (rewrite length_rev in Hlos; lia).
    rewrite length_rev in Hlos. rewrite Hlos.
    replace (nth (L - 1 - S j) (tl observation) 0%Z)
      with (nth (L - 1 - j) observation 0%Z); [reflexivity|].
    replace (L - 1 - j) with (S (L - 1 - S j)) by lia.
    destruct observation; [now destruct (L - 1 - S j) | reflexivity].
Qed.

Lemma scaled_true {F : Type} {NF : Num F} (v : @vector F) :
  scaled true v = vdiv_scalar v (vsum v).
Proof. reflexivity. Qed.

Lemma scaled_false {F : Type} {NF : Num F} (v : @vector F) :
  scaled false v = v.
Proof. reflexivity. Qed.

Lemma matrix_ext_columns {F : Type} {NF : Num F} (n c : nat)
  (a b : @matrix F) :
  is_matrix n c a -> is_matrix n c b ->
  (forall t, t < c -> column a t = column b t) -> a = b.
Proof.
  intros Ha Hb Hcols.
  assert (La : length a = n) by now destruct Ha.
  assert (Lb : length b = n) by now destruct Hb.
  apply (nth_ext _ _ [] []); [unfold matrix in *; lia|].
  intros i Hi. unfold matrix in *. rewrite La in Hi.
  apply (nth_ext _ _ zero zero).
  - rewrite (is_matrix_row n c a i Ha Hi).
    now rewrite (is_matrix_row n c b i Hb Hi).
  - intros t Ht. rewrite (is_matrix_row n c a i Ha Hi) in Ht.
    change (entry a i t = entry b i t).
    now rewrite <- !nth_column, (Hcols t Ht).
Qed.

(** X1.  With [log = True], [forward] returns an N-by-T table in which
    every column is the unnormalized column divided by its own sum: column
    0 is [pi * B[:, obs[0]]] over its sum, and column [t+1] is
    [(alpha[:, t] @ A) * B[:, obs[t+1]]] (computed from the already
    normalized column [t]) over its sum. *)
Theorem forward_normalized_recurrence {F : Type} {NF : Num F}
  (g : globals F) (B : @matrix F) (N M T : nat) :
  0 < N -> 1 <= T ->
  length (pi g) = N -> is_matrix N N (A g) -> is_matrix N M B ->
  is_matrix N T (alpha g) ->
  length (obs_sequence g) = T ->
  Forall (fun o => (0 <= o < Z.of_nat M)%Z) (obs_sequence g) ->
  exists al,
    forward g B true = Ok (set_alpha g al, al)
    /\ is_matrix N T al
    /\ (forall i, i < N ->
          entry al i 0
          = div (mul (nth i (pi g) zero)
                     (entry B i (Z.to_nat (nth 0 (obs_sequence g) 0%Z))))
                (vsum (map (fun i' =>
                              mul (nth i' (pi g) zero)
                                  (entry B i'
                                     (Z.to_nat (nth 0 (obs_sequence g) 0%Z))))
                           (seq 0 N))))
    /\ (forall t i, t + 1 < T -> i < N ->
          entry al i (t + 1)
          = div (mul (vsum (map (fun j => mul (entry al j t) (entry (A g) j i))
                                (seq 0 N)))
                     (entry B i (Z.to_nat (nth (t + 1) (obs_sequence g) 0%Z))))
                (vsum (map (fun i' =>
                              mul (vsum (map (fun j => mul (entry al j t)
                                                           (entry (A g) j i'))
                                             (seq 0 N)))
                                  (entry B i'
                                     (Z.to_nat
                                        (nth (t + 1) (obs_sequence g) 0%Z))))
                           (seq 0 N)))).
Proof.
  intros HN HT Hpi HA HB Hal Hlen Hobs.
  destruct (forward_table_any g B true N M T HN HT Hpi HA HB Hal Hlen Hobs)
    as [al [Hrun [Hal' [Hinit Hrec]]]].
  exists al. split; [assumption|]. split; [assumption|]. split.
  - intros i Hi. rewrite <- nth_column, Hinit. rewrite ?scaled_true, ?scaled_false.
    assert (HlB : length (column B (Z.to_nat (nth 0 (obs_sequence g) 0%Z)))
                  = N) by (rewrite column_length; now destruct HB).
    rewrite (map2_as_seq mul _ _ N) by lia.
    unfold vdiv_scalar.
    rewrite (nth_map_in _ _ i zero zero)
      by (rewrite length_map, length_seq; lia).
    rewrite nth_map_seq by lia.
    rewrite nth_column. f_equal. f_equal. apply map_ext. intros i'.
    now rewrite nth_column.
  - intros t i Ht Hi. rewrite <- nth_column, (Hrec t Ht). rewrite ?scaled_true, ?scaled_false.
    assert (Hfc : forward_column N (A g) B (column al t)
                    (nth (t + 1) (obs_sequence g) 0%Z)
                  = map (fun i' =>
                           mul (vsum (map (fun j => mul (entry al j t)
                                                        (entry (A g) j i'))
                                          (seq 0 N)))
                               (entry B i'
                                  (Z.to_nat
                                     (nth (t + 1) (obs_sequence g) 0%Z))))
                        (seq 0 N)).
    { unfold forward_column. apply map_ext. intros i'. f_equal. f_equal.
      apply map_ext. intros j. now rewrite nth_column. }
    rewrite Hfc. unfold vdiv_scalar.
    rewrite (nth_map_in _ _ i zero zero)
      by (rewrite length_map, length_seq; lia).
    now rewrite nth_map_seq by lia.
Qed.

Lemma forward_normalized_recurrence_witness :
  exists al,
    forward example_globals (emission_matrix example_globals) true
    = Ok (set_alpha example_globals al, al)
    /\ is_matrix 2 4 al.
Proof.
  destruct (forward_normalized_recurrence example_globals
              (emission_matrix example_globals) 2 3 4)
    as [al [Hrun [Hal _]]].
  - lia.
  - lia.
  - reflexivity.
  - concrete_shape.
  - concrete_shape.
  - concrete_shape.
  - reflexivity.
  - repeat constructor; simpl; lia.
  - exists al. split; assumption.
Defined.

Lemma vsum_vdiv_scalar {F : Type} {NF : Num F} {NL : NumLaws F}
  (v : @vector F) :
  vsum v <> zero -> vsum (vdiv_scalar v (vsum v)) = one.
Proof.
  intros Hv. unfold vdiv_scalar.
  rewrite (vsum_map_div (fun a => a) (vsum v) v), map_id.
  now apply div_self.
Qed.

(** X2.  With [log = True] and exact arithmetic, every column of the table
    returned by [forward] sums to one, provided the unnormalized column it
    was scaled from does not sum to zero. *)
Theorem forward_normalized_columns_sum_to_one {F : Type} {NF : Num F}
  {NL : NumLaws F} (g : globals F) (B : @matrix F) (N M T : nat) :
  0 < N -> 1 <= T ->
  length (pi g) = N -> is_matrix N N (A g) -> is_matrix N M B ->
  is_matrix N T (alpha g) ->
  length (obs_sequence g) = T ->
  Forall (fun o => (0 <= o < Z.of_nat M)%Z) (obs_sequence g) ->
  exists al,
    forward g B true = Ok (set_alpha g al, al)
    /\ is_matrix N T al
    /\ (vsum (map (fun ab => mul (fst ab) (snd ab))
                  (combine (pi g)
                     (column B (Z.to_nat (nth 0 (obs_sequence g) 0%Z)))))
        <> zero ->
        vsum (column al 0) = one)
    /\ (forall t, t + 1 < T ->
          vsum (forward_column N (A g) B (column al t)
                  (nth (t + 1) (obs_sequence g) 0%Z)) <> zero ->
          vsum (column al (t + 1)) = one).
Proof.
  intros HN HT Hpi HA HB Hal Hlen Hobs.
  destruct (forward_table_any g B true N M T HN HT Hpi HA HB Hal Hlen Hobs)
    as [al [Hrun [Hal' [Hinit Hrec]]]].
  exists al. split; [assumption|]. split; [assumption|]. split.
  - intros Hnz. rewrite Hinit. rewrite ?scaled_true, ?scaled_false. now apply vsum_vdiv_scalar.
  - intros t Ht Hnz. rewrite (Hrec t Ht). rewrite ?scaled_true, ?scaled_false.
    now apply vsum_vdiv_scalar.
Qed.

Lemma forward_normalized_columns_sum_to_one_witness :
  exists al,
    forward example_globals (emission_matrix example_globals) true
    = Ok (set_alpha example_globals al, al)
    /\ is_matrix 2 4 al.
Proof.
  destruct (@forward_normalized_columns_sum_to_one Qc Qc_Num Qc_NumLaws
              example_globals (emission_matrix example_globals) 2 3 4)
    as [al [Hrun [Hal _]]].
  - lia.
  - lia.
  - reflexivity.
  - concrete_shape.
  - concrete_shape.
  - concrete_shape.
  - reflexivity.
  - repeat constructor; simpl; lia.
  - exists al. split; assumption.
Defined.

(** X3.  On a model with exactly two states and with [log = False],
    [backward] returns the 2-by-T table whose last column is the column of
    ones and whose column [t] is
    [sum_j A[i, j] * B[j, obs[t+1]] * beta[j, t+1]]. *)
Theorem backward_two_states_recurrence {F : Type} {NF : Num F}
  (g : globals F) (observation : list Z) (M T : nat) :
  (forall a b : F, mul a b = mul b a) ->
  1 <= T ->
  is_matrix 2 2 (A g) -> is_matrix 2 M (emission_matrix g) ->
  is_matrix 2 T (beta g) ->
  length observation = T ->
  Forall (fun o => (0 <= o < Z.of_nat M)%Z) observation ->
  exists be,
    backward g observation false = Ok (set_beta g be, be)
    /\ is_matrix 2 T be
    /\ (forall i, i < 2 -> entry be i (T - 1) = one)
    /\ (forall t i, t + 1 < T -> i < 2 ->
          entry be i t
          = vsum (map (fun j =>
                         mul (mul (entry (A g) i j)
                                  (entry (emission_matrix g) j
                                     (Z.to_nat (nth (t + 1) observation 0%Z))))
                             (entry be j (t + 1)))
                      (seq 0 2))).
Proof.
  intros Hcomm HT HA HB Hbe Hlen Hobs.
  destruct (backward_table_any g observation false M T T HT HA HB Hbe Hlen
              (Nat.le_refl T) Hobs)
    as [be [Hrun [Hbe' [Hlast [_ Hrec]]]]].
  exists be. split; [assumption|]. split; [assumption|]. split.
  - intros i Hi. rewrite <- nth_column, Hlast.
    destruct i as [|[|i]]; simpl; try reflexivity; lia.
  - intros t i Ht Hi. rewrite <- nth_column.
    replace t with (T - 2 - (T - 2 - t)) at 1 by lia.
    rewrite Hrec by lia. rewrite ?scaled_true, ?scaled_false.
    replace (T - 1 - (T - 2 - t)) with (t + 1) by lia.
    unfold backward_column. rewrite nth_map_seq by lia.
    apply f_equal, map_ext. intros j.
    rewrite nth_column. f_equal. apply Hcomm.
Qed.

Lemma backward_two_states_recurrence_witness :
  exists be,
    backward example_globals (obs_sequence example_globals) false
    = Ok (set_beta example_globals be, be)
    /\ is_matrix 2 4 be.
Proof.
  destruct (backward_two_states_recurrence example_globals
              (obs_sequence example_globals) 3 4)
    as [be [Hrun [Hbe _]]].
  - exact Qcmult_comm.
  - lia.
  - concrete_shape.
  - concrete_shape.
  - concrete_shape.
  - reflexivity.
  - repeat constructor; simpl; lia.
  - exists be. split; assumption.
Defined.

(** X4.  On a two-state model with [log = True], [backward] leaves the last
    column as the unscaled column of ones (it sums to two, not one), while
    every earlier column is divided by its own sum and so, in exact
    arithmetic, sums to one when that sum is not zero. *)
Theorem backward_normalized_columns {F : Type} {NF : Num F}
  {NL : NumLaws F} (g : globals F) (observation : list Z) (M T : nat) :
  1 <= T ->
  is_matrix 2 2 (A g) -> is_matrix 2 M (emission_matrix g) ->
  is_matrix 2 T (beta g) ->
  length observation = T ->
  Forall (fun o => (0 <= o < Z.of_nat M)%Z) observation ->
  exists be,
    backward g observation true = Ok (set_beta g be, be)
    /\ is_matrix 2 T be
    /\ column be (T - 1) = [one; one]
    /\ vsum (column be (T - 1)) = add one one
    /\ (forall t, t + 1 < T ->
          vsum (backward_column 2 (A g) (emission_matrix g)
                  (column be (t + 1)) (nth (t + 1) observation 0%Z))
          <> zero ->
          vsum (column be t) = one).
Proof.
  intros HT HA HB Hbe Hlen Hobs.
  destruct (backward_table_any g observation true M T T HT HA HB Hbe Hlen
              (Nat.le_refl T) Hobs)
    as [be [Hrun [Hbe' [Hlast [_ Hrec]]]]].
  exists be. split; [assumption|]. split; [assumption|].
  split; [assumption|]. split.
  - rewrite Hlast. simpl. rewrite (add_comm one zero), add_0_l. reflexivity.
  - intros t Ht Hnz.
    replace t with (T - 2 - (T - 2 - t)) at 1 by lia.
    rewrite Hrec by lia. rewrite ?scaled_true, ?scaled_false.
    replace (T - 1 - (T - 2 - t)) with (t + 1) by lia.
    now apply vsum_vdiv_scalar.
Qed.

Lemma backward_normalized_columns_witness :
  exists be,
    backward example_globals (obs_sequence example_globals) true
    = Ok (set_beta example_globals be, be)
    /\ column be (4 - 1) = [one; one].
Proof.
  destruct (@backward_normalized_columns Qc Qc_Num Qc_NumLaws example_globals
              (obs_sequence example_globals) 3 4)
    as [be [Hrun [_ [Hlast _]]]].
  - lia.
  - concrete_shape.
  - concrete_shape.
  - concrete_shape.
  - reflexivity.
  - repeat constructor; simpl; lia.
  - exists be. split; assumption.
Defined.

(** X5.  [backward] never compares the length of the observation sequence
    with the width of the table.  On a two-state model, with a sequence of
    [L] symbols that is shorter than the table, it writes the column of ones
    into the last column and, by the recurrence, one further column per
    remaining symbol (the [L - 1] columns to the left of the last one);
    every column to the left of those keeps the contents it had before the
    call. *)
Theorem backward_short_observation {F : Type} {NF : Num F}
  (g : globals F) (observation : list Z) (log : bool) (M T L : nat) :
  is_matrix 2 2 (A g) -> is_matrix 2 M (emission_matrix g) ->
  is_matrix 2 T (beta g) ->
  length observation = L -> 1 <= L -> L < T ->
  Forall (fun o => (0 <= o < Z.of_nat M)%Z) observation ->
  exists be,
    backward g observation log = Ok (set_beta g be, be)
    /\ is_matrix 2 T be
    /\ column be (T - 1) = [one; one]
    /\ (forall t, T - L <= t -> t + 1 < T ->
          column be t
          = scaled log (backward_column 2 (A g) (emission_matrix g)
                          (column be (t + 1))
                          (nth (t + 1 - (T - L)) observation 0%Z)))
    /\ (forall t, t < T - L -> column be t = column (beta g) t).
Proof.
  intros HA HB Hbe Hlen HL1 HL Hobs.
  destruct (backward_table_any g observation log M T L ltac:(lia) HA HB Hbe
              Hlen ltac:(lia) Hobs)
    as [be [Hrun [Hbe' [Hlast [Hlow Hrec]]]]].
  exists be. split; [assumption|]. split; [assumption|].
  split; [assumption|]. split.
  - intros t Ht0 Ht1.
    pose proof (Hrec (T - 2 - t) ltac:(lia)) as Hcol.
    replace (T - 2 - (T - 2 - t)) with t in Hcol by lia.
    replace (T - 1 - (T - 2 - t)) with (t + 1) in Hcol by lia.
    replace (L - 1 - (T - 2 - t)) with (t + 1 - (T - L)) in Hcol by lia.
    exact Hcol.
  - intros t Ht. apply Hlow. lia.
Qed.

Lemma backward_short_observation_witness :
  exists be,
    backward (set_beta example_globals stale_table) [2; 2]%Z false
    = Ok (set_beta (set_beta example_globals stale_table) be, be)
    /\ is_matrix 2 4 be
    /\ column be (4 - 1) = [one; one]
    /\ (forall t, 4 - 2 <= t -> t + 1 < 4 ->
          column be t
          = scaled false
              (backward_column 2 (A example_globals)
                 (emission_matrix example_globals) (column be (t + 1))
                 (nth (t + 1 - (4 - 2)) [2; 2]%Z 0%Z)))
    /\ (forall t, t < 4 - 2 -> column be t = column stale_table t).
Proof.
  apply (backward_short_observation (set_beta example_globals stale_table)
           [2; 2]%Z false 3 4 2).
  - concrete_shape.
  - concrete_shape.
  - concrete_shape.
  - reflexivity.
  - lia.
  - lia.
  - repeat constructor; simpl; lia.
Defined.

(** X6.  [forward] overwrites every column of the ambient table: what the
    table held before the call has no influence on the result, for either
    value of [log]. *)
Theorem forward_ignores_previous_alpha {F : Type} {NF : Num F}
  (g : globals F) (B al0 : @matrix F) (log : bool) (N M T : nat) :
  0 < N -> 1 <= T ->
  length (pi g) = N -> is_matrix N N (A g) -> is_matrix N M B ->
  is_matrix N T (alpha g) -> is_matrix N T al0 ->
  length (obs_sequence g) = T ->
  Forall (fun o => (0 <= o < Z.of_nat M)%Z) (obs_sequence g) ->
  forward (set_alpha g al0) B log = forward g B log.
Proof.
  intros HN HT Hpi HA HB Hal Hal0 Hlen Hobs.
  destruct (forward_table_any g B log N M T HN HT Hpi HA HB Hal Hlen Hobs)
    as [al1 [Hrun1 [Hal1 [Hinit1 Hrec1]]]].
  destruct (forward_table_any (set_alpha g al0) B log N M T HN HT Hpi HA HB
              Hal0 Hlen Hobs)
    as [al2 [Hrun2 [Hal2 [Hinit2 Hrec2]]]].
  cbn [set_alpha pi A obs_sequence] in Hinit2, Hrec2.
  assert (Hcols : forall t, t < T -> column al2 t = column al1 t).
  { induction t as [|t IH]; intros Ht.
    - now rewrite Hinit1, Hinit2.
    - replace (S t) with (t + 1) by lia.
      rewrite (Hrec1 t) by lia. rewrite (Hrec2 t) by lia.
      now rewrite IH by lia. }
  rewrite Hrun1, Hrun2.
  now rewrite (matrix_ext_columns N T al2 al1 Hal2 Hal1 Hcols).
Qed.

Lemma forward_ignores_previous_alpha_witness :
  forward (set_alpha example_globals stale_table)
    (emission_matrix example_globals) true
  = forward example_globals (emission_matrix example_globals) true.
Proof.
  apply (forward_ignores_previous_alpha example_globals
           (emission_matrix example_globals) stale_table true 2 3 4).
  - lia.
  - lia.
  - reflexivity.
  - concrete_shape.
  - concrete_shape.
  - concrete_shape.
  - concrete_shape.
  - reflexivity.
  - repeat constructor; simpl; lia.
Defined.

(** X7.  On a two-state model and with an observation sequence as long as
    the table is wide, [backward] overwrites every column: what the table
    held before the call has no influence on the result. *)
Theorem backward_ignores_previous_beta {F : Type} {NF : Num F}
  (g : globals F) (observation : list Z) (be0 : @matrix F) (log : bool)
  (M T : nat) :
  1 <= T ->
  is_matrix 2 2 (A g) -> is_matrix 2 M (emission_matrix g) ->
  is_matrix 2 T (beta g) -> is_matrix 2 T be0 ->
  length observation = T ->
  Forall (fun o => (0 <= o < Z.of_nat M)%Z) observation ->
  backward (set_beta g be0) observation log = backward g observation log.
Proof.
  intros HT HA HB Hbe Hbe0 Hlen Hobs.
  destruct (backward_table_any g observation log M T T HT HA HB Hbe Hlen
              (Nat.le_refl T) Hobs)
    as [b1 [Hrun1 [Hb1 [Hlast1 [_ Hrec1]]]]].
  destruct (backward_table_any (set_beta g be0) observation log M T T HT HA HB
              Hbe0 Hlen (Nat.le_refl T) Hobs)
    as [b2 [Hrun2 [Hb2 [Hlast2 [_ Hrec2]]]]].
  cbn [set_beta A emission_matrix] in Hrec2.
  assert (Hcols : forall j, j < T -> column b2 (T - 1 - j) = column b1 (T - 1 - j)).
  { induction j as [|j IH]; intros Hj.
    - rewrite Nat.sub_0_r. now rewrite Hlast1, Hlast2.
    - replace (T - 1 - S j) with (T - 2 - j) by lia.
      rewrite (Hrec1 j) by lia. rewrite (Hrec2 j) by lia.
      now rewrite IH by lia. }
  rewrite Hrun1, Hrun2.
  assert (Hall : forall t, t < T -> column b2 t = column b1 t).
  { intros t Ht. replace t with (T - 1 - (T - 1 - t)) by lia.
    apply Hcols. lia. }
  now rewrite (matrix_ext_columns 2 T b2 b1 Hb2 Hb1 Hall).
Qed.

Lemma backward_ignores_previous_beta_witness :
  backward (set_beta example_globals stale_table)
    (obs_sequence example_globals) true
  = backward example_globals (obs_sequence example_globals) true.
Proof.
  apply (backward_ignores_previous_beta example_globals
           (obs_sequence example_globals) stale_table true 3 4).
  - lia.
  - concrete_shape.
  - concrete_shape.
  - concrete_shape.
  - concrete_shape.
  - reflexivity.
  - repeat constructor; simpl; lia.
Defined.

(** ** Sequences that do not fit the tables *)

Lemma py_index_above (len : nat) (i : Z) :
  (Z.of_nat len <= i)%Z -> py_index len i = Err IndexError.
Proof.
  intros Hi. unfold py_index.
  replace (i <? Z.of_nat len)%Z with false by (symmetry; apply Z.ltb_ge; lia).
  replace (i <? 0)%Z with false by (symmetry; apply Z.ltb_ge; lia).
  now rewrite !andb_false_r.
Qed.

Lemma foldM_app {S X : Type} (f : S -> X -> result S) (l1 l2 : list X) :
  forall s, foldM f (l1 ++ l2) s = bind (foldM f l1 s) (foldM f l2).
Proof.
  induction l1 as [|x l1 IH]; intros s; simpl; [reflexivity|].
  destruct (f s x) as [s'|e]; simpl; [apply IH | reflexivity].
Qed.

Lemma combine_seq_app {X : Type} (a b : list X) :
  forall k,
    combine (seq k (length (a ++ b))) (a ++ b)
    = combine (seq k (length a)) a
      ++ combine (seq (k + length a) (length b)) b.
Proof.
  induction a as [|x a IH]; intros k; simpl.
  - now rewrite Nat.add_0_r.
  - rewrite IH. now rewrite Nat.add_succ_r.
Qed.

Section ForwardFails.
Context {F : Type} {NF : Num F}.
Variables (g : globals F) (em : @matrix F) (log : bool) (N M T : nat).
Hypothesis HN : 0 < N.
Hypothesis HA : is_matrix N N (A g).
Hypothesis Hem : is_matrix N M em.

Lemma col_above (o : Z) : (Z.of_nat M <= o)%Z -> col em o = Err IndexError.
Proof.
  intros Ho. unfold col.
  now rewrite (is_matrix_ncols N M em Hem HN), py_index_above.
Qed.

(** One induction step fails on a symbol that is not a column of the
    emission matrix, and on a column index beyond the table. *)
Lemma forward_step_fails (al : @matrix F) (i : nat) (o : Z) :
  is_matrix N T al -> i < T ->
  (Z.of_nat M <= o)%Z \/ ((0 <= o < Z.of_nat M)%Z /\ i + 1 = T) ->
  forward_step g em log al (i, o) = Err IndexError.
Proof.
  intros Hal Hi Hbad. unfold forward_step. simpl fst. simpl snd.
  rewrite (col_nat N T al i Hal HN) by lia. simpl bind.
  rewrite (matmul_vm_ok N N (column al i) (A g) HA HN)
    by (rewrite column_length; now destruct Hal).
  simpl bind. destruct Hbad as [Ho|[Ho Hlast]].
  - now rewrite (col_above o Ho).
  - rewrite (col_Z N M em o Hem HN Ho). simpl bind.
    rewrite vmul_same
      by (rewrite length_map, length_seq, column_length; now destruct Hem).
    simpl bind. unfold set_col.
    rewrite (is_matrix_ncols N T al Hal HN), py_index_above by lia.
    reflexivity.
Qed.

Lemma forward_loop_fails (pre post : list Z) (o : Z) (k : nat)
  (al : @matrix F) :
  is_matrix N T al -> k + length pre < T ->
  Forall (fun o => (0 <= o < Z.of_nat M)%Z) pre ->
  (Z.of_nat M <= o)%Z
  \/ ((0 <= o < Z.of_nat M)%Z /\ k + length pre + 1 = T) ->
  foldM (forward_step g em log)
        (combine (seq k (length (pre ++ o :: post))) (pre ++ o :: post)) al
  = Err IndexError.
Proof.
  intros Hal Hk Hpre Hbad.
  rewrite combine_seq_app, foldM_app.
  destruct (forward_loop_any g em log N M T HN HA Hem pre k al Hal Hk Hpre)
    as [al' [Hrun [Hal' _]]].
  rewrite Hrun. simpl bind. simpl combine. simpl foldM.
  now rewrite (forward_step_fails al' (k + length pre) o Hal' Hk Hbad).
Qed.

End ForwardFails.



Lemma split_at {X : Type} (l : list X) (n : nat) (d : X) :
  n < length l -> l = firstn n l ++ nth n l d :: skipn (S n) l.
Proof.
  revert n. induction l as [|x l IH]; intros n Hn; simpl in Hn; [lia|].
  destruct n as [|n]; simpl; [reflexivity|].
  f_equal. apply IH. lia.
Qed.

(** X9.  [forward] does not compare the length of the observation sequence
    with the width of the ambient table: on a sequence with more symbols
    than the table has columns it fills the whole table and then raises
    [IndexError] on the first column that does not exist. *)
Theorem forward_rejects_long_sequence {F : Type} {NF : Num F}
  (g : globals F) (B : @matrix F) (log : bool) (N M T : nat) :
  0 < N -> 1 <= T ->
  length (pi g) = N -> is_matrix N N (A g) -> is_matrix N M B ->
  is_matrix N T (alpha g) ->
  T < length (obs_sequence g) ->
  Forall (fun o => (0 <= o < Z.of_nat M)%Z) (obs_sequence g) ->
  forward g B log = Err IndexError.
Proof.
  intros HN HT Hpi HA HB Hal Hlen Hobs. unfold forward.
  destruct (obs_sequence g) as [|o0 os] eqn:Eobs; [simpl in Hlen; lia|].
  pose proof (Forall_inv Hobs) as Ho0. pose proof (Forall_inv_tail Hobs) as Hos.
  simpl in Ho0, Hlen.
  replace (py_get (o0 :: os) 0) with (Ok o0) by reflexivity. simpl bind.
  rewrite (col_Z N M B o0 HB HN Ho0). simpl bind.
  assert (HlenB : length (column B (Z.to_nat o0)) = N)
    by (rewrite column_length; now destruct HB).
  rewrite vmul_same by lia. simpl bind.
  set (v0 := scaled log _).
  assert (Hv0 : length v0 = N)
    by (unfold v0; rewrite scaled_length, map2_length; lia).
  pose proof (set_col_nat N T (alpha g) 0 v0 Hal HN ltac:(lia) Hv0) as Hset.
  simpl Z.of_nat in Hset. rewrite Hset. simpl bind. simpl tl.
  unfold enumerate.
  rewrite (split_at os (T - 1) 0%Z) by lia.
  assert (Hfirst : length (firstn (T - 1) os) = T - 1)
    by (rewrite length_firstn; lia).
  rewrite (forward_loop_fails g B log N M T HN HA HB);
    [reflexivity | now apply put_col_is_matrix | lia | | ].
  - apply Forall_forall. intros o Ho. rewrite Forall_forall in Hos.
    apply Hos. rewrite <- (firstn_skipn (T - 1) os).
    apply in_or_app. now left.
  - right. split; [|lia]. rewrite Forall_forall in Hos.
    apply (Hos (nth (T - 1) os 0%Z)), nth_In. lia.
Qed.

Lemma forward_rejects_long_sequence_witness :
  forward long_sequence_globals (emission_matrix long_sequence_globals) false
  = Err IndexError.
Proof.
  apply (forward_rejects_long_sequence long_sequence_globals
           (emission_matrix long_sequence_globals) false 2 3 4).
  - lia.
  - lia.
  - reflexivity.
  - concrete_shape.
  - concrete_shape.
  - concrete_shape.
  - simpl; lia.
  - repeat constructor; simpl; lia.
Defined.

(** ** Gammas and zetas *)

(** X10.  [calculate_gammas] multiplies its two tables element by element:
    tables with as many rows but different widths, neither of them one, do
    not broadcast, and the function raises on the first row. *)
Theorem calculate_gammas_rejects_width_mismatch {F : Type} {NF : Num F}
  (alpha beta : @matrix F) (N T T' : nat) :
  is_matrix N T alpha -> is_matrix N T' beta -> 0 < N ->
  T <> T' -> T <> 1 -> T' <> 1 ->
  calculate_gammas alpha beta = Err ShapeError.
Proof.
  intros [Ha Hra] [Hb Hrb] HN Hne H1 H1'.
  unfold calculate_gammas, mmul, bzip. unfold matrix, vector in *.
  rewrite Ha, Hb, Nat.eqb_refl.
  destruct alpha as [|r alpha]; [simpl in Ha; lia|].
  destruct beta as [|r' beta]; [simpl in Hb; lia|].
  pose proof (Forall_inv Hra) as Hr. pose proof (Forall_inv Hrb) as Hr'.
  simpl in Hr, Hr'. simpl combine. simpl mapM.
  assert (Hrow : vmul r r' = Err ShapeError).
  { unfold vmul, bzip.
    replace (length r =? length r') with false
      by (symmetry; apply Nat.eqb_neq; lia).
    destruct r as [|a [|a' r]]; destruct r' as [|b [|b' r']];
      simpl in Hr, Hr'; try lia; reflexivity. }
  now rewrite Hrow.
Qed.

Lemma calculate_gammas_rejects_width_mismatch_witness :
  calculate_gammas (zeros (F := Qc) 2 4) (zeros 2 3) = Err ShapeError.
Proof.
  apply (calculate_gammas_rejects_width_mismatch
           (zeros (F := Qc) 2 4) (zeros 2 3) 2 4 3).
  - concrete_shape.
  - concrete_shape.
  - lia.
  - lia.
  - lia.
  - lia.
Defined.

Lemma vsum_const_seq {F : Type} {NF : Num F} (x : F) (n : nat) :
  forall s, vsum (map (fun _ : nat => x) (seq s n)) = vsum (repeat x n).
Proof.
  induction n as [|n IH]; intros s; simpl; [reflexivity|].
  now rewrite IH.
Qed.

(** X11.  Every per-step table of [calculate_zetas] is divided by the sum
    of its own entries, so (in exact arithmetic, the sums being non-zero)
    the entries of the returned accumulator add up to the number of steps,
    one for each column of the table passed in. *)
Theorem summed_zetas_total {F : Type} {NF : Num F} {NL : NumLaws F}
  (g : globals F) (alpha' : @matrix F) (obs_seq : list Z)
  (N M Tb T' : nat) :
  0 < N -> is_matrix N N (A g) -> is_matrix N M (emission_matrix g) ->
  is_matrix N Tb (beta g) -> is_matrix N T' alpha' ->
  1 <= T' -> T' < Tb -> T' < length obs_seq ->
  Forall (fun o => (0 <= o < Z.of_nat M)%Z) obs_seq ->
  (forall t, t < T' -> zeta_total g alpha' obs_seq N t <> zero) ->
  exists sz,
    calculate_zetas g alpha' obs_seq = Ok sz
    /\ vsum (map vsum sz) = vsum (repeat one T').
Proof.
  intros HN HA Hem Hbe Hal HT HTb Hlen Hobs Hnz.
  destruct (calculate_zetas_ok g N M Tb HN HA Hem Hbe alpha' obs_seq T'
              Hal HT HTb Hlen Hobs) as [sz [Hrun [Hsz Hent]]].
  exists sz. split; [exact Hrun|].
  assert (HlenN : length sz = N) by now destruct Hsz.
  rewrite <- (map_nth_seq vsum sz []). unfold matrix, vector in *.
  rewrite HlenN.
  transitivity
    (vsum (map (fun i =>
                  vsum (map (fun t =>
                               vsum (map (fun j =>
                                            div (zeta_numerator g alpha'
                                                   obs_seq t i j)
                                                (zeta_total g alpha' obs_seq
                                                   N t))
                                         (seq 0 N)))
                            (seq 0 T')))
               (seq 0 N))).
  { f_equal. apply map_ext_in. intros i Hi. apply in_seq in Hi.
    rewrite (row_as_seq N N sz i Hsz) by lia.
    rewrite (vsum_swap (fun t j => div (zeta_numerator g alpha' obs_seq t i j)
                                       (zeta_total g alpha' obs_seq N t))).
    f_equal. apply map_ext_in. intros j Hj. apply in_seq in Hj.
    apply Hent; lia. }
  rewrite (vsum_swap (fun i t =>
             vsum (map (fun j => div (zeta_numerator g alpha' obs_seq t i j)
                                     (zeta_total g alpha' obs_seq N t))
                       (seq 0 N)))).
  rewrite <- (vsum_const_seq one T' 0).
  f_equal. apply map_ext_in. intros t Ht. apply in_seq in Ht.
  transitivity
    (vsum (map (fun i =>
                  div (vsum (map (fun j => zeta_numerator g alpha' obs_seq
                                             t i j) (seq 0 N)))
                      (zeta_total g alpha' obs_seq N t))
               (seq 0 N))).
  { f_equal. apply map_ext. intros i.
    apply (vsum_map_div (fun j => zeta_numerator g alpha' obs_seq t i j)). }
  rewrite (vsum_map_div
             (fun i => vsum (map (fun j => zeta_numerator g alpha' obs_seq
                                             t i j) (seq 0 N)))).
  rewrite (vsum_swap (fun i j => zeta_numerator g alpha' obs_seq t i j)).
  apply div_self. apply Hnz. lia.
Qed.

Lemma summed_zetas_total_witness :
  exists sz,
    calculate_zetas three_step_globals
      (drop_last_col (alpha three_step_globals))
      (obs_sequence three_step_globals) = Ok sz
    /\ vsum (map vsum sz) = vsum (repeat one 2).
Proof.
  apply (@summed_zetas_total Qc Qc_Num Qc_NumLaws three_step_globals
           (drop_last_col (alpha three_step_globals))
           (obs_sequence three_step_globals) 2 3 3 2).
  - lia.
  - concrete_shape.
  - concrete_shape.
  - concrete_shape.
  - concrete_shape.
  - lia.
  - lia.
  - simpl; lia.
  - repeat constructor; simpl; lia.
  - intros t Ht. destruct t as [|[|t]].
    + vm_compute. discriminate.
    + vm_compute. discriminate.
    + lia.
Defined.

Lemma mapM_fails_at {X Y : Type} (f : X -> result Y) (l1 l2 : list X)
  (x : X) (e : error) :
  (forall y, In y l1 -> exists z, f y = Ok z) -> f x = Err e ->
  mapM f (l1 ++ x :: l2) = Err e.
Proof.
  induction l1 as [|a l1 IH]; simpl; intros Hok Hx.
  - now rewrite Hx.
  - destruct (Hok a (or_introl eq_refl)) as [z Hz]. rewrite Hz. simpl.
    rewrite IH; [reflexivity | | assumption].
    intros y Hy. apply Hok. now right.
Qed.

(** X12.  [calculate_zetas] reads [obs_seq[t+1]] and [beta[:, t+1]] for
    every column [t] of the table it is given.  Handed the whole forward
    table (as many columns as there are observations) instead of the slice
    [alpha[:, :-1]], it computes every step but the last and then raises
    [IndexError] on the observation after the last one. *)
Theorem calculate_zetas_needs_truncated_table {F : Type} {NF : Num F}
  (g : globals F) (alpha : @matrix F) (obs_seq : list Z) (N M T : nat) :
  0 < N -> 1 <= T ->
  is_matrix N N (A g) -> is_matrix N M (emission_matrix g) ->
  is_matrix N T (beta g) -> is_matrix N T alpha ->
  length obs_seq = T ->
  Forall (fun o => (0 <= o < Z.of_nat M)%Z) obs_seq ->
  calculate_zetas g alpha obs_seq = Err IndexError.
Proof.
  intros HN HT HA Hem Hbe Hal Hlen Hobs. unfold calculate_zetas.
  pose proof (is_matrix_ncols N T alpha Hal HN) as Hnc.
  assert (Hcols : length (transpose alpha) = T)
    by now rewrite transpose_length.
  assert (Hfirst : length (firstn (T - 1) (transpose alpha)) = T - 1)
    by (rewrite length_firstn; lia).
  unfold enumerate.
  rewrite (split_at (transpose alpha) (T - 1) []) by lia.
  rewrite combine_seq_app. simpl combine.
  rewrite (mapM_fails_at _ _ _ _ IndexError); [reflexivity | | ].
  - intros [t y] Hin.
    destruct (in_combine_seq _ t y [] 0 Hin) as [Ht Hy].
    unfold matrix, vector in *. rewrite Hfirst in Ht. rewrite Nat.sub_0_r in Hy.
    rewrite nth_firstn in Hy.
    replace (t <? T - 1) with true in Hy by (symmetry; apply Nat.ltb_lt; lia).
    rewrite nth_transpose in Hy by lia. subst y.
    destruct (zeta_step_ok g N M T HN HA Hem Hbe alpha obs_seq T t Hal)
      as [z [Hz _]]; try lia.
    { rewrite Forall_forall in Hobs. apply Hobs, nth_In. lia. }
    now exists z.
  - unfold matrix, vector in *. rewrite Hfirst, nth_transpose by lia.
    unfold zeta_step. cbn [fst snd].
    rewrite (mmul_row_bcast N N _ _ (transpose_is_matrix N N (A g) HA HN))
      by (rewrite column_length; now destruct Hal).
    simpl bind. unfold py_get.
    rewrite py_index_above by lia. reflexivity.
Qed.

Lemma calculate_zetas_needs_truncated_table_witness :
  calculate_zetas three_step_globals (alpha three_step_globals)
    (obs_sequence three_step_globals) = Err IndexError.
Proof.
  apply (calculate_zetas_needs_truncated_table three_step_globals
           (alpha three_step_globals) (obs_sequence three_step_globals)
           2 3 3).
  - lia.
  - lia.
  - concrete_shape.
  - concrete_shape.
  - concrete_shape.
  - concrete_shape.
  - reflexivity.
  - repeat constructor; simpl; lia.
Defined.

(** ** Re-estimation *)

(** X14.  For any number of states, and for any two tables of the shape of
    the observation sequence: [re_estimate_parameters] returns estimates
    whose initial distribution sums to one and whose emission rows sum to
    one, wherever the denominator of the estimate is not zero (exact
    arithmetic).  The global [beta] read by the zetas only has to be wide
    enough. *)
Theorem re_estimate_pi_and_emission_sum_to_one
  {F : Type} {NF : Num F} {NL : NumLaws F}
  (set_iter : list Z -> list Z) (g : globals F)
  (em al be : @matrix F) (N M T Tb : nat) :
  0 < N -> 2 <= T -> T <= Tb ->
  is_matrix N N (A g) -> is_matrix N M (emission_matrix g) ->
  is_matrix N Tb (beta g) ->
  is_matrix N T al -> is_matrix N T be ->
  length (obs_sequence g) = T ->
  Forall (fun o => (0 <= o < Z.of_nat M)%Z) (obs_sequence g) ->
  NoDup (set_iter (obs_sequence g)) ->
  (forall k, In k (set_iter (obs_sequence g)) <-> In k (obs_sequence g)) ->
  exists gamma new_pi new_A new_B,
    calculate_gammas al be = Ok gamma
    /\ re_estimate_parameters set_iter g em al be
       = Ok (new_pi, new_A, new_B)
    /\ (vsum (map (fun i => mul (entry al i 0) (entry be i 0))
                  (seq 0 N)) <> zero ->
        vsum new_pi = one)
    /\ (forall i, i < N ->
          vsum (map (fun t => entry gamma i t) (seq 0 T)) <> zero ->
          vsum (nth i new_B []) = one).
Proof.
  intros HN HT HTb HA Hem Hbe Hal Hbeta Hobs Hrange Hnd Hset.
  destruct (calculate_gammas_ok al be N T Hal Hbeta HN)
    as [gamma [Hgam [Hg Hge]]].
  destruct (calculate_zetas_ok g N M Tb HN HA Hem Hbe (drop_last_col al)
              (obs_sequence g) (T - 1)
              (drop_last_col_is_matrix N T al Hal)
              ltac:(lia) ltac:(lia) ltac:(lia) Hrange)
    as [sz [Hzet [Hsz _]]].
  assert (Hks : set_iter (obs_sequence g) <> []).
  { destruct (obs_sequence g) as [|o os] eqn:E; [simpl in Hobs; lia|].
    intros Hnil. pose proof (proj2 (Hset o) (or_introl eq_refl)) as Hin.
    rewrite Hnil in Hin. exact Hin. }
  destruct (re_estimate_parameters_ok set_iter g em al be
              gamma sz N T Hgam Hzet Hg Hsz HN ltac:(lia) Hobs Hks)
    as [npi [nA [nB [Hrun [Hpi' [_ [_ [HnB HeB]]]]]]]].
  exists gamma, npi, nA, nB.
  split; [exact Hgam|]. split; [exact Hrun|]. split.
  - intros HD. subst npi. rewrite (column_as_seq N T gamma 0 Hg).
    rewrite (map_ext_in _
               (fun i => div (mul (entry al i 0) (entry be i 0))
                             (vsum (map (fun i' => mul (entry al i' 0)
                                                       (entry be i' 0))
                                        (seq 0 N)))))
      by (intros i Hi; apply in_seq in Hi; apply Hge; lia).
    rewrite vsum_map_div. now apply div_self.
  - intros i Hi HR.
    rewrite (row_as_seq N _ nB i HnB Hi).
    rewrite (map_ext_in _
               (fun c =>
                  div (vsum (map (fun t => entry gamma i t)
                               (filter (fun t =>
                                  (nth t (obs_sequence g) 0
                                   =? nth c (set_iter (obs_sequence g)) 0)%Z)
                                  (seq 0 T))))
                      (vsum (map (fun t => entry gamma i t) (seq 0 T)))))
      by (intros c Hc; apply in_seq in Hc; apply HeB; [assumption | lia]).
    rewrite vsum_map_div.
    rewrite (sum_over_classes (obs_sequence g) (set_iter (obs_sequence g))
               (fun t => entry gamma i t) T Hobs Hnd Hset).
    now apply div_self.
Qed.

Lemma re_estimate_pi_and_emission_sum_to_one_witness :
  exists gamma new_pi new_A new_B,
    calculate_gammas (alpha three_step_globals) (beta three_step_globals)
    = Ok gamma
    /\ re_estimate_parameters ascending_set three_step_globals
         (emission_matrix three_step_globals)
         (alpha three_step_globals) (beta three_step_globals)
       = Ok (new_pi, new_A, new_B)
    /\ (vsum (map (fun i => mul (entry (alpha three_step_globals) i 0)
                                (entry (beta three_step_globals) i 0))
                  (seq 0 2)) <> zero ->
        vsum new_pi = one)
    /\ (forall i, i < 2 ->
          vsum (map (fun t => entry gamma i t) (seq 0 3)) <> zero ->
          vsum (nth i new_B []) = one).
Proof.
  apply (@re_estimate_pi_and_emission_sum_to_one Qc Qc_Num Qc_NumLaws
           ascending_set three_step_globals
           (emission_matrix three_step_globals)
           (alpha three_step_globals) (beta three_step_globals) 2 3 3 3).
  - lia.
  - lia.
  - lia.
  - concrete_shape.
  - concrete_shape.
  - concrete_shape.
  - concrete_shape.
  - concrete_shape.
  - reflexivity.
  - repeat constructor; simpl; lia.
  - vm_compute. repeat (constructor; [simpl; lia|]). constructor.
  - intros k. simpl. lia.
Defined.

Lemma one_pass_row_stochastic_two_states_witness :
  exists al be gamma new_pi new_A new_B,
    forward example_globals (emission_matrix example_globals) false
    = Ok (set_alpha example_globals al, al)
    /\ backward (set_alpha example_globals al)
         (obs_sequence example_globals) false
       = Ok (set_beta (set_alpha example_globals al) be, be)
    /\ calculate_gammas al be = Ok gamma
    /\ one_pass ascending_set example_globals = Ok (new_pi, new_A, new_B)
    /\ (vsum (map (fun i => mul (entry al i 0) (entry be i 0)) (seq 0 2))
        <> zero ->
        vsum new_pi = one)
    /\ (forall i, i < 2 ->
          vsum (map (fun t => entry gamma i t) (seq 0 (4 - 1))) <> zero ->
          vsum (nth i new_A []) = one)
    /\ (forall i, i < 2 ->
          vsum (map (fun t => entry gamma i t) (seq 0 4)) <> zero ->
          vsum (nth i new_B []) = one).
Proof.
  apply (@one_pass_row_stochastic_two_states Qc Qc_Num Qc_NumLaws
           ascending_set example_globals 3 4).
  - lia.
  - reflexivity.
  - concrete_shape.
  - concrete_shape.
  - concrete_shape.
  - concrete_shape.
  - reflexivity.
  - repeat constructor; simpl; lia.
  - vm_compute. repeat (constructor; [simpl; lia|]). constructor.
  - intros k. simpl. lia.
Defined.

(** X16.  [expected_output_occurrence] selects the columns listed in
    [index]: with every index inside the table it returns, state by state,
    the sum of the selected gammas over the given denominator; one index
    outside the table makes [index_select] raise its RuntimeError. *)
Theorem expected_output_occurrence_by_index {F : Type} {NF : Num F}
  (n c : nat) (index : list nat) (gamma : @matrix F) (sg : @vector F) :
  is_matrix n c gamma -> 0 < n -> length sg = n ->
  (Forall (fun t => t < c) index ->
   exists v,
     expected_output_occurrence index gamma sg = Ok v
     /\ length v = n
     /\ forall i, i < n ->
          nth i v zero
          = div (vsum (map (fun t => entry gamma i t) index))
                (nth i sg zero))
  /\ (Exists (fun t => c <= t) index ->
      expected_output_occurrence index gamma sg = Err IndexSelectError).
Proof.
  intros Hg Hn Hsg. split.
  - intros Hidx.
    rewrite (expected_output_occurrence_ok n c index gamma sg Hg Hn Hsg Hidx).
    eexists. split; [reflexivity|]. split.
    + now rewrite length_map, length_seq.
    + intros i Hi. now rewrite nth_map_seq.
  - intros Hex. unfold expected_output_occurrence, index_select1.
    rewrite (is_matrix_ncols n c gamma Hg Hn).
    replace (forallb (fun j => j <? c) index) with false; [reflexivity|].
    symmetry. apply not_true_is_false. intros Hall.
    rewrite forallb_forall in Hall. apply Exists_exists in Hex.
    destruct Hex as [t [Hin Ht]]. specialize (Hall t Hin).
    apply Nat.ltb_lt in Hall. lia.
Qed.

Lemma expected_output_occurrence_by_index_witness :
  (exists v,
     expected_output_occurrence [0; 1] small_alpha [ratio 1 2; ratio 1 3]
     = Ok v
     /\ length v = 2
     /\ forall i, i < 2 ->
          nth i v zero
          = div (vsum (map (fun t => entry small_alpha i t) [0; 1]))
                (nth i [ratio 1 2; ratio 1 3] zero))
  /\ expected_output_occurrence [0; 2] small_alpha [ratio 1 2; ratio 1 3]
     = Err IndexSelectError.
Proof.
  assert (Hg : is_matrix 2 2 small_alpha) by concrete_shape.
  split.
  - apply (proj1 (expected_output_occurrence_by_index 2 2 [0; 1] small_alpha
                    [ratio 1 2; ratio 1 3] Hg ltac:(lia) eq_refl)).
    repeat constructor.
  - apply (proj2 (expected_output_occurrence_by_index 2 2 [0; 2] small_alpha
                    [ratio 1 2; ratio 1 3] Hg ltac:(lia) eq_refl)).
    apply Exists_cons_tl, Exists_cons_hd. lia.
Defined.

(** ** What the initialisers write *)

Section CounterCounts.
Context {K : Type}.
Variable eqb : K -> K -> bool.
Hypothesis eqb_eq : forall a b, eqb a b = true <-> a = b.

Lemma eqb_same (a : K) : eqb a a = true.
Proof. now apply eqb_eq. Qed.

Lemma counter_get_incr (k k' : K) (d : list (K * Z)) :
  counter_get eqb (incr eqb k d) k'
  = (counter_get eqb d k' + (if eqb k k' then 1 else 0))%Z.
Proof.
  unfold counter_get. induction d as [|[k0 c] d IH]; simpl.
  - destruct (eqb k k'); reflexivity.
  - destruct (eqb k0 k) eqn:E0; simpl.
    + apply eqb_eq in E0. subst k0.
      destruct (eqb k k'); [reflexivity | lia].
    + destruct (eqb k0 k') eqn:E1; [|exact IH].
      apply eqb_eq in E1. subst k0.
      destruct (eqb k k') eqn:E2; [|lia].
      apply eqb_eq in E2. subst k'. rewrite eqb_same in E0. discriminate.
Qed.

Lemma Counter_counts_from (l : list K) (k : K) :
  forall d : list (K * Z),
    counter_get eqb (fold_left (fun d k => incr eqb k d) l d) k
    = (counter_get eqb d k + occurrences eqb k l)%Z.
Proof.
  unfold occurrences.
  induction l as [|x l IH]; intros d; simpl; [lia|].
  rewrite IH, counter_get_incr.
  destruct (eqb x k); simpl length; lia.
Qed.

(** A [Counter] maps every value to the number of its occurrences. *)
Lemma Counter_counts (l : list K) (k : K) :
  counter_get eqb (Counter eqb l) k = occurrences eqb k l.
Proof. unfold Counter. now rewrite Counter_counts_from. Qed.

Lemma incr_keeps_keys (k k' : K) (d : list (K * Z)) :
  In k' (map fst d) -> In k' (map fst (incr eqb k d)).
Proof.
  induction d as [|[k0 c] d IH]; simpl; [contradiction|].
  destruct (eqb k0 k); simpl; intros [H|H]; auto.
Qed.

Lemma incr_adds_key (k : K) (d : list (K * Z)) :
  In k (map fst (incr eqb k d)).
Proof.
  induction d as [|[k0 c] d IH]; simpl; [now left|].
  destruct (eqb k0 k) eqn:E; simpl; [|now right].
  left. now apply eqb_eq.
Qed.

Lemma incr_NoDup (k : K) (d : list (K * Z)) :
  NoDup (map fst d) -> NoDup (map fst (incr eqb k d)).
Proof.
  induction d as [|[k0 c] d IH]; simpl; intros Hd.
  - constructor; [intros [] | constructor].
  - inversion Hd as [|? ? Hk0 Hd']; subst.
    destruct (eqb k0 k) eqn:E; simpl; constructor; auto.
    intros Hin. destruct (incr_keys eqb k d k0 Hin) as [->|H];
      [|contradiction].
    rewrite eqb_same in E. discriminate.
Qed.

Lemma Counter_NoDup (l : list K) : NoDup (map fst (Counter eqb l)).
Proof.
  unfold Counter. generalize (@NoDup_nil K).
  change (@nil K) with (map fst (@nil (K * Z))).
  generalize (@nil (K * Z)) as d.
  induction l as [|x l IH]; intros d Hd; simpl; [exact Hd|].
  apply IH. now apply incr_NoDup.
Qed.

Lemma Counter_has_key (l : list K) (k : K) :
  In k l -> In k (map fst (Counter eqb l)).
Proof.
  unfold Counter. generalize (@nil (K * Z)) as d.
  assert (Hkeep : forall l d, In k (map fst d) ->
            In k (map fst (fold_left (fun d k => incr eqb k d) l d))).
  { clear l. induction l as [|x l IH]; intros d Hd; simpl; [exact Hd|].
    apply IH. now apply incr_keeps_keys. }
  induction l as [|x l IH]; intros d Hin; simpl; [contradiction|].
  destruct Hin as [->|Hin]; [|now apply IH].
  apply Hkeep, incr_adds_key.
Qed.

Lemma dict_get_in (d : list (K * Z)) (k : K) (c : Z) :
  NoDup (map fst d) -> In (k, c) d -> dict_get eqb d k = Some c.
Proof.
  induction d as [|[k0 c0] d IH]; simpl; intros Hd Hin; [contradiction|].
  inversion Hd as [|? ? Hk0 Hd']; subst.
  destruct Hin as [Heq|Hin].
  - inversion Heq; subst. now rewrite eqb_same.
  - destruct (eqb k0 k) eqn:E; [|now apply IH].
    apply eqb_eq in E. subst k0. exfalso. apply Hk0.
    apply in_map_iff. now exists (k, c).
Qed.

(** Every item of a [Counter] pairs a value with the number of its
    occurrences. *)
Lemma Counter_item (l : list K) (k : K) (c : Z) :
  In (k, c) (Counter eqb l) -> c = occurrences eqb k l.
Proof.
  intros Hin. rewrite <- Counter_counts. unfold counter_get.
  now rewrite (dict_get_in _ k c (Counter_NoDup l) Hin).
Qed.

Lemma Counter_item_of (l : list K) (k : K) :
  In k l -> In (k, occurrences eqb k l) (Counter eqb l).
Proof.
  intros Hin. pose proof (Counter_has_key l k Hin) as Hkey.
  apply in_map_iff in Hkey. destruct Hkey as [[k0 c] [Hk Hkc]].
  simpl in Hk. subst k0. now rewrite <- (Counter_item l k c Hkc).
Qed.

End CounterCounts.

Lemma tuple_eqb_eq (a b : list Z) : tuple_eqb a b = true <-> a = b.
Proof.
  unfold tuple_eqb. destruct (list_eq_dec Z.eq_dec a b); split;
    intros H; congruence.
Qed.

Lemma pair_eqb_eq (a b : Z * Z) : pair_eqb a b = true <-> a = b.
Proof.
  unfold pair_eqb. rewrite andb_true_iff, !Z.eqb_eq.
  destruct a, b; simpl. split; [intros [-> ->]; reflexivity|].
  intros H; inversion H; auto.
Qed.

Lemma occurrences_tuples (a b : Z) (l : list (Z * Z)) :
  occurrences tuple_eqb [a; b] (map (fun p => [fst p; snd p]) l)
  = occurrences pair_eqb (a, b) l.
Proof.
  unfold occurrences. f_equal. f_equal.
  induction l as [|[x y] l IH]; simpl; [reflexivity|].
  assert (E : tuple_eqb [x; y] [a; b] = pair_eqb (x, y) (a, b)).
  { destruct (pair_eqb (x, y) (a, b)) eqn:E.
    - apply pair_eqb_eq in E. inversion E; subst. now apply tuple_eqb_eq.
    - destruct (tuple_eqb [x; y] [a; b]) eqn:E'; [|reflexivity].
      apply tuple_eqb_eq in E'. inversion E'; subst.
      rewrite (proj2 (pair_eqb_eq (a, b) (a, b)) eq_refl) in E.
      discriminate. }
  rewrite E. destruct (pair_eqb (x, y) (a, b)); simpl; now rewrite IH.
Qed.

Section WritesValue.
Context {F : Type} {NF : Num F}.

Lemma set_entry_same (n c : nat) (m m' : @matrix F) (k0 k1 : Z) (x : F) :
  is_matrix n c m ->
  (0 <= k0 < Z.of_nat n)%Z -> (0 <= k1 < Z.of_nat c)%Z ->
  set_entry m k0 k1 x = Ok m' ->
  entry m' (Z.to_nat k0) (Z.to_nat k1) = x.
Proof.
  intros Hm H0 H1. unfold set_entry.
  assert (Hlen : length m = n) by now destruct Hm.
  unfold matrix in *. rewrite Hlen, tensor_index_Z by assumption. simpl.
  rewrite (is_matrix_row n c m (Z.to_nat k0) Hm) by lia.
  rewrite tensor_index_Z by assumption. simpl.
  intros Heq. inversion Heq; subst m'. clear Heq. unfold entry.
  rewrite nth_set_nth_eq by lia.
  apply nth_set_nth_eq.
  rewrite (is_matrix_row n c m (Z.to_nat k0) Hm) by lia. lia.
Qed.

(** A run of writes at pairwise distinct positions inside the table leaves
    at each position the value written there. *)
Lemma foldM_writes_value {X : Type} (key0 key1 : X -> result Z)
  (val : X -> F) (kp : X -> Z * Z) (n c : nat) (l : list X) :
  Forall (fun kv => key0 kv = Ok (fst (kp kv)) /\ key1 kv = Ok (snd (kp kv))
                    /\ (0 <= fst (kp kv) < Z.of_nat n)%Z
                    /\ (0 <= snd (kp kv) < Z.of_nat c)%Z) l ->
  NoDup (map kp l) ->
  forall (m m' : @matrix F) (kv : X),
    is_matrix n c m -> In kv l ->
    foldM (fun m kv => k0 <- key0 kv ;; k1 <- key1 kv ;;
                       set_entry m k0 k1 (val kv)) l m = Ok m' ->
    entry m' (Z.to_nat (fst (kp kv))) (Z.to_nat (snd (kp kv))) = val kv.
Proof.
  induction 1 as [|kv0 l [E0 [E1 [H0 H1]]] Hl IH];
    intros Hnd m m' kv Hm Hin Hrun; [contradiction|].
  simpl in Hnd. inversion Hnd as [|? ? Hfresh Hnd']; subst.
  simpl in Hrun. rewrite E0, E1 in Hrun. simpl in Hrun.
  destruct (set_entry m (fst (kp kv0)) (snd (kp kv0)) (val kv0))
    as [m1|e] eqn:E; simpl in Hrun; [|discriminate].
  pose proof (set_entry_shape n c m m1 _ _ _ Hm E) as Hm1.
  destruct Hin as [->|Hin]; [|now apply (IH Hnd' m1 m' kv Hm1 Hin Hrun)].
  rewrite (foldM_writes_untouched key0 key1 val n c
             (Z.to_nat (fst (kp kv))) (Z.to_nat (snd (kp kv))) l)
    with (m := m1) (m' := m'); [| | assumption | assumption].
  - exact (set_entry_same n c m m1 _ _ _ Hm H0 H1 E).
  - apply Forall_forall. intros kv' Hkv'. rewrite Forall_forall in Hl.
    destruct (Hl kv' Hkv') as [E0' [E1' [H0' H1']]].
    exists (fst (kp kv')), (snd (kp kv')).
    split; [assumption|]. split; [assumption|].
    split; [assumption|]. split; [assumption|].
    intros Heq. apply Hfresh. apply in_map_iff. exists kv'. split; [|assumption].
    rewrite !Z2Nat.id in Heq by lia.
    rewrite (surjective_pairing (kp kv')), (surjective_pairing (kp kv)).
    now symmetry.
Qed.

End WritesValue.

(** With the state values exactly 0..K-1, every pair of consecutive states
    is written with its count over [sequence_counts] of its first state. *)
Lemma trans_mat_init_written {F : Type} {NF : Num F}
  (sequence : list Z) (K : nat) :
  (forall v, In v sequence <-> (0 <= v < Z.of_nat K)%Z) ->
  exists m : @matrix F,
    trans_mat_init sequence = Ok m
    /\ is_matrix K K m
    /\ forall a b, In (a, b) (combine sequence (tl sequence)) ->
         entry m (Z.to_nat a) (Z.to_nat b)
         = div (of_Z (counter_get tuple_eqb
                        (Counter tuple_eqb
                           (map (fun p => [fst p; snd p])
                                (combine sequence (tl sequence))))
                        [a; b]))
               (of_Z (counter_get Z.eqb (Counter Z.eqb sequence) a)).
Proof.
  intros Hseq.
  destruct (trans_mat_init_in_bounds (F := F) sequence K Hseq)
    as [m [Hrun Hm]].
  exists m. split; [exact Hrun|]. split; [exact Hm|]. intros a b Hab.
  unfold trans_mat_init in Hrun. rewrite pair_loop_pairs in Hrun.
  set (pairs := combine sequence (tl sequence)) in *.
  set (ts := Counter tuple_eqb _) in Hrun.
  assert (Hpairs : forall x y, In (x, y) pairs ->
            In x sequence /\ In y sequence).
  { intros x y Hxy. split; [eapply in_combine_l; exact Hxy|].
    assert (Hy : In y (tl sequence)) by (eapply in_combine_r; exact Hxy).
    destruct sequence; [contradiction | now right]. }
  assert (Hts : forall key val, In (key, val) ts ->
              exists x y, key = [x; y] /\ In (x, y) pairs).
  { intros key val Hin.
    assert (Hkey : In key (map (fun p => [fst p; snd p]) pairs)).
    { apply (Counter_keys tuple_eqb). apply in_map_iff.
      exists (key, val). now split. }
    apply in_map_iff in Hkey. destruct Hkey as [[x y] [<- Hxy]].
    now exists x, y. }
  set (h := fun kv : list Z * Z =>
              (fst kv,
               div (of_Z (snd kv))
                   (of_Z (counter_get Z.eqb (Counter Z.eqb sequence)
                            (nth 0 (fst kv) 0%Z))) : F)).
  rewrite (mapM_ok _ h) in Hrun.
  2:{ intros [key val] Hin. simpl.
      destruct (Hts _ _ Hin) as [x [y [-> Hxy]]].
      replace (py_get [x; y] 0) with (Ok x) by reflexivity. simpl bind.
      rewrite py_truediv_ok
        by (apply Counter_count_positive; now apply (Hpairs x y)).
      reflexivity. }
  simpl bind in Hrun.
  set (kp := fun kv : list Z * F => (nth 0 (fst kv) 0%Z, nth 1 (fst kv) 0%Z)).
  pose proof (foldM_writes_value
                (fun kv : list Z * F => py_get (fst kv) 0)
                (fun kv => py_get (fst kv) 1) snd kp
                (set_length sequence) (set_length sequence) (map h ts))
    as Hval.
  assert (Hbounds : Forall (fun kv =>
            py_get (fst kv) 0 = Ok (fst (kp kv))
            /\ py_get (fst kv) 1 = Ok (snd (kp kv))
            /\ (0 <= fst (kp kv) < Z.of_nat (set_length sequence))%Z
            /\ (0 <= snd (kp kv) < Z.of_nat (set_length sequence))%Z)
           (map h ts)).
  { apply Forall_forall. intros kv Hin. apply in_map_iff in Hin.
    destruct Hin as [[key val] [<- Hin]].
    destruct (Hts _ _ Hin) as [x [y [-> Hxy]]]. simpl.
    rewrite (set_length_exact sequence K Hseq).
    split; [reflexivity|]. split; [reflexivity|].
    destruct (Hpairs x y Hxy). split; now apply Hseq. }
  assert (Hnd : NoDup (map kp (map h ts))).
  { rewrite map_map.
    replace (map (fun x => kp (h x)) ts)
      with (map (fun key => (nth 0 key 0%Z, nth 1 key 0%Z)) (map fst ts))
      by (rewrite map_map; reflexivity).
    apply NoDup_map_NoDup_ForallPairs;
      [|apply (Counter_NoDup tuple_eqb tuple_eqb_eq)].
    intros k1 k2 Hk1 Hk2 Heq.
    apply in_map_iff in Hk1. destruct Hk1 as [[key1 v1] [<- Hk1]].
    apply in_map_iff in Hk2. destruct Hk2 as [[key2 v2] [<- Hk2]].
    destruct (Hts _ _ Hk1) as [x1 [y1 [-> _]]].
    destruct (Hts _ _ Hk2) as [x2 [y2 [-> _]]].
    simpl in *. now inversion Heq. }
  specialize (Hval Hbounds Hnd (zeros (set_length sequence)
                                      (set_length sequence)) m
                (h ([a; b], occurrences tuple_eqb [a; b]
                              (map (fun p => [fst p; snd p]) pairs)))
                (zeros_is_matrix _ _)).
  simpl in Hval. rewrite Hval; [| |exact Hrun].
  - unfold pairs. now rewrite (Counter_counts tuple_eqb tuple_eqb_eq).
  - apply in_map. apply (Counter_item_of tuple_eqb tuple_eqb_eq).
    apply in_map_iff. now exists (a, b).
Qed.

(** X17.  With the state values exactly 0..K-1, [trans_mat_init] returns a
    table whose entry at a pair [(a, b)] of consecutive states is the number
    of times [b] follows [a] divided by the number of occurrences of [a] in
    the whole sequence, its last position included. *)
Theorem trans_mat_init_counts_transitions {F : Type} {NF : Num F}
  (sequence : list Z) (K : nat) :
  (forall v, In v sequence <-> (0 <= v < Z.of_nat K)%Z) ->
  exists m : @matrix F,
    trans_mat_init sequence = Ok m
    /\ forall a b, In (a, b) (combine sequence (tl sequence)) ->
         entry m (Z.to_nat a) (Z.to_nat b)
         = div (of_Z (occurrences pair_eqb (a, b)
                        (combine sequence (tl sequence))))
               (of_Z (occurrences Z.eqb a sequence)).
Proof.
  intros Hseq.
  destruct (trans_mat_init_written (F := F) sequence K Hseq)
    as [m [Hrun [_ Hval]]].
  exists m. split; [exact Hrun|]. intros a b Hab.
  rewrite (Hval a b Hab).
  rewrite (Counter_counts tuple_eqb tuple_eqb_eq), occurrences_tuples.
  now rewrite (Counter_counts Z.eqb Z.eqb_eq).
Qed.

Lemma trans_mat_init_counts_transitions_witness :
  exists m : @matrix Qc,
    trans_mat_init [0; 1; 1; 0; 1]%Z = Ok m
    /\ forall a b,
         In (a, b) (combine [0; 1; 1; 0; 1]%Z (tl [0; 1; 1; 0; 1]%Z)) ->
         entry m (Z.to_nat a) (Z.to_nat b)
         = div (of_Z (occurrences pair_eqb (a, b)
                        (combine [0; 1; 1; 0; 1]%Z
                                 (tl [0; 1; 1; 0; 1]%Z))))
               (of_Z (occurrences Z.eqb a [0; 1; 1; 0; 1]%Z)).
Proof.
  apply (trans_mat_init_counts_transitions (F := Qc) [0; 1; 1; 0; 1]%Z 2).
  intros v. simpl. lia.
Defined.

(** With the hidden values exactly 0..K-1 and the observed values exactly
    0..L-1, every pair of [zip(hid_seq, obs_seq)] is written with its count
    over [sequence_counts] of its hidden value. *)
Lemma emiss_state_init_written {F : Type} {NF : Num F}
  (hid_seq obs_seq : list Z) (K L : nat) :
  (forall v, In v hid_seq <-> (0 <= v < Z.of_nat K)%Z) ->
  (forall v, In v obs_seq <-> (0 <= v < Z.of_nat L)%Z) ->
  exists m : @matrix F,
    emiss_state_init hid_seq obs_seq = Ok m
    /\ is_matrix K L m
    /\ forall h o, In (h, o) (combine hid_seq obs_seq) ->
         entry m (Z.to_nat h) (Z.to_nat o)
         = div (of_Z (counter_get pair_eqb
                        (Counter pair_eqb (combine hid_seq obs_seq)) (h, o)))
               (of_Z (counter_get Z.eqb (Counter Z.eqb hid_seq) h)).
Proof.
  intros Hhid Hobs.
  destruct (emiss_state_init_in_bounds (F := F) hid_seq obs_seq K L Hhid Hobs)
    as [m [Hrun Hm]].
  exists m. split; [exact Hrun|]. split; [exact Hm|]. intros h o Hho.
  unfold emiss_state_init in Hrun. rewrite concat_singletons in Hrun.
  set (cs := Counter pair_eqb (combine hid_seq obs_seq)) in Hrun.
  assert (Hcs : forall key val, In (key, val) cs ->
              In (fst key) hid_seq /\ In (snd key) obs_seq).
  { intros [x y] val Hin.
    assert (Hkey : In (x, y) (combine hid_seq obs_seq)).
    { apply (Counter_keys pair_eqb). apply in_map_iff.
      exists (x, y, val). now split. }
    split; [eapply in_combine_l | eapply in_combine_r]; exact Hkey. }
  set (f := fun kv : Z * Z * Z =>
              (fst kv,
               div (of_Z (counter_get pair_eqb cs (fst kv)))
                   (of_Z (counter_get Z.eqb (Counter Z.eqb hid_seq)
                            (fst (fst kv)))) : F)).
  rewrite (mapM_ok _ f) in Hrun.
  2:{ intros [key val] Hin. simpl.
      destruct (Hcs key val Hin) as [Hh Ho].
      rewrite py_truediv_ok by now apply Counter_count_positive.
      reflexivity. }
  simpl bind in Hrun.
  pose proof (foldM_writes_value
                (fun kv : Z * Z * F => Ok (fst (fst kv)))
                (fun kv => Ok (snd (fst kv))) snd fst
                (set_length hid_seq) (set_length obs_seq) (map f cs))
    as Hval.
  assert (Hbounds : Forall (fun kv : Z * Z * F =>
            Ok (fst (fst kv)) = Ok (fst (fst kv))
            /\ Ok (snd (fst kv)) = Ok (snd (fst kv))
            /\ (0 <= fst (fst kv) < Z.of_nat (set_length hid_seq))%Z
            /\ (0 <= snd (fst kv) < Z.of_nat (set_length obs_seq))%Z)
           (map f cs)).
  { apply Forall_forall. intros kv Hin. apply in_map_iff in Hin.
    destruct Hin as [[key val] [<- Hin]]. simpl.
    destruct (Hcs key val Hin) as [Hh Ho].
    rewrite (set_length_exact hid_seq K Hhid).
    rewrite (set_length_exact obs_seq L Hobs).
    split; [reflexivity|]. split; [reflexivity|].
    split; [now apply Hhid | now apply Hobs]. }
  assert (Hnd : NoDup (map fst (map f cs))).
  { rewrite map_map. simpl. apply (Counter_NoDup pair_eqb pair_eqb_eq). }
  specialize (Hval Hbounds Hnd (zeros (set_length hid_seq)
                                      (set_length obs_seq)) m
                (f (h, o, occurrences pair_eqb (h, o)
                            (combine hid_seq obs_seq)))
                (zeros_is_matrix _ _)).
  simpl in Hval. rewrite Hval; [reflexivity | | exact Hrun].
  apply in_map. now apply (Counter_item_of pair_eqb pair_eqb_eq).
Qed.

(** X18.  With the hidden values exactly 0..K-1 and the observed values
    exactly 0..L-1, [emiss_state_init] returns a table whose entry at a pair
    [(h, o)] that occurs in [zip(hid_seq, obs_seq)] is the number of
    positions with hidden value [h] and observed value [o] divided by the
    number of occurrences of [h] in [hid_seq]. *)
Theorem emiss_state_init_counts_emissions {F : Type} {NF : Num F}
  (hid_seq obs_seq : list Z) (K L : nat) :
  (forall v, In v hid_seq <-> (0 <= v < Z.of_nat K)%Z) ->
  (forall v, In v obs_seq <-> (0 <= v < Z.of_nat L)%Z) ->
  exists m : @matrix F,
    emiss_state_init hid_seq obs_seq = Ok m
    /\ forall h o, In (h, o) (combine hid_seq obs_seq) ->
         entry m (Z.to_nat h) (Z.to_nat o)
         = div (of_Z (occurrences pair_eqb (h, o) (combine hid_seq obs_seq)))
               (of_Z (occurrences Z.eqb h hid_seq)).
Proof.
  intros Hhid Hobs.
  destruct (emiss_state_init_written (F := F) hid_seq obs_seq K L Hhid Hobs)
    as [m [Hrun [_ Hval]]].
  exists m. split; [exact Hrun|]. intros h o Hho.
  rewrite (Hval h o Hho).
  rewrite (Counter_counts pair_eqb pair_eqb_eq).
  now rewrite (Counter_counts Z.eqb Z.eqb_eq).
Qed.

Lemma emiss_state_init_counts_emissions_witness :
  exists m : @matrix Qc,
    emiss_state_init [0; 1; 1; 0]%Z [0; 2; 1; 0]%Z = Ok m
    /\ forall h o,
         In (h, o) (combine [0; 1; 1; 0]%Z [0; 2; 1; 0]%Z) ->
         entry m (Z.to_nat h) (Z.to_nat o)
         = div (of_Z (occurrences pair_eqb (h, o)
                        (combine [0; 1; 1; 0]%Z [0; 2; 1; 0]%Z)))
               (of_Z (occurrences Z.eqb h [0; 1; 1; 0]%Z)).
Proof.
  apply (emiss_state_init_counts_emissions (F := Qc)
           [0; 1; 1; 0]%Z [0; 2; 1; 0]%Z 2 3).
  - intros v. simpl. lia.
  - intros v. simpl. lia.
Defined.

(** A position that is not a pair of [zip(hid_seq, obs_seq)] is never
    written by [emiss_state_init]. *)
Lemma emiss_state_init_untouched {F : Type} {NF : Num F}
  (hid_seq obs_seq : list Z) (K L : nat) (m : @matrix F) (i j : nat) :
  (forall v, In v hid_seq <-> (0 <= v < Z.of_nat K)%Z) ->
  (forall v, In v obs_seq <-> (0 <= v < Z.of_nat L)%Z) ->
  emiss_state_init hid_seq obs_seq = Ok m ->
  ~ In (Z.of_nat i, Z.of_nat j) (combine hid_seq obs_seq) ->
  entry m i j = zero.
Proof.
  intros Hhid Hobs Hrun Hnot.
  unfold emiss_state_init in Hrun. rewrite concat_singletons in Hrun.
  set (cs := Counter pair_eqb (combine hid_seq obs_seq)) in Hrun.
  assert (Hcs : forall key val, In (key, val) cs ->
              In key (combine hid_seq obs_seq)).
  { intros key val Hin. apply (Counter_keys pair_eqb). apply in_map_iff.
    exists (key, val). now split. }
  set (f := fun kv : Z * Z * Z =>
              (fst kv,
               div (of_Z (counter_get pair_eqb cs (fst kv)))
                   (of_Z (counter_get Z.eqb (Counter Z.eqb hid_seq)
                            (fst (fst kv)))) : F)).
  rewrite (mapM_ok _ f) in Hrun.
  2:{ intros [[x y] val] Hin. simpl.
      rewrite py_truediv_ok; [reflexivity|].
      apply Counter_count_positive. eapply in_combine_l.
      exact (Hcs _ _ Hin). }
  simpl bind in Hrun.
  rewrite <- (zeros_entry (set_length hid_seq) (set_length obs_seq) i j).
  apply (foldM_writes_untouched
           (fun kv : Z * Z * F => Ok (fst (fst kv)))
           (fun kv => Ok (snd (fst kv))) snd
           (set_length hid_seq) (set_length obs_seq) i j (map f cs));
    [|apply zeros_is_matrix | exact Hrun].
  apply Forall_forall. intros kv Hkv. apply in_map_iff in Hkv.
  destruct Hkv as [[[x y] val] [<- Hin]]. simpl.
  pose proof (Hcs _ _ Hin) as Hxy.
  exists x, y. rewrite (set_length_exact hid_seq K Hhid).
  rewrite (set_length_exact obs_seq L Hobs).
  split; [reflexivity|]. split; [reflexivity|].
  split; [apply Hhid; eapply in_combine_l; exact Hxy|].
  split; [apply Hobs; eapply in_combine_r; exact Hxy|].
  intros Heq. apply Hnot. now rewrite Heq.
Qed.

(** C10.  Both matrix initialisers allocate by the number of distinct values
    of their input sequences and write at the raw values.  When the values
    of the state sequence are exactly 0..K-1 the transition matrix is K-by-K,
    every write is inside it, the entry at row [a] and column [b] of each
    pair of consecutive states [a, b] holds the count of that pair over the
    count of [a], and every other position keeps the zero of the allocation;
    likewise the emission matrix is K-by-L with the entry at row [h] and
    column [o] of each pair of [zip(hid_seq, obs_seq)] written and every
    other position zero.  On the states [0, 2] (two distinct values, one of
    them 2) a write falls outside the 2-by-2 table and the function raises,
    and so does the emission initialiser. *)
Theorem initializers_size_by_distinct_values {F : Type} {NF : Num F} :
  (forall (sequence : list Z) (m : @matrix F),
      trans_mat_init sequence = Ok m ->
      is_matrix (set_length sequence) (set_length sequence) m)
  /\ (forall (hid_seq obs_seq : list Z) (m : @matrix F),
        emiss_state_init hid_seq obs_seq = Ok m ->
        is_matrix (set_length hid_seq) (set_length obs_seq) m)
  /\ (forall (sequence : list Z) (K : nat),
        (forall v, In v sequence <-> (0 <= v < Z.of_nat K)%Z) ->
        exists m : @matrix F,
          trans_mat_init sequence = Ok m /\ is_matrix K K m
          /\ (forall a b,
                In (a, b) (combine sequence (tl sequence)) ->
                entry m (Z.to_nat a) (Z.to_nat b)
                = div (of_Z (occurrences pair_eqb (a, b)
                               (combine sequence (tl sequence))))
                      (of_Z (occurrences Z.eqb a sequence)))
          /\ (forall i j,
                ~ In (Z.of_nat i, Z.of_nat j)
                     (combine sequence (tl sequence)) ->
                entry m i j = zero))
  /\ (forall (hid_seq obs_seq : list Z) (K L : nat),
        (forall v, In v hid_seq <-> (0 <= v < Z.of_nat K)%Z) ->
        (forall v, In v obs_seq <-> (0 <= v < Z.of_nat L)%Z) ->
        exists m : @matrix F,
          emiss_state_init hid_seq obs_seq = Ok m /\ is_matrix K L m
          /\ (forall h o,
                In (h, o) (combine hid_seq obs_seq) ->
                entry m (Z.to_nat h) (Z.to_nat o)
                = div (of_Z (occurrences pair_eqb (h, o)
                               (combine hid_seq obs_seq)))
                      (of_Z (occurrences Z.eqb h hid_seq)))
          /\ (forall i j,
                ~ In (Z.of_nat i, Z.of_nat j) (combine hid_seq obs_seq) ->
                entry m i j = zero))
  /\ trans_mat_init (F := F) [0; 2]%Z = Err IndexError
  /\ emiss_state_init (F := F) [0; 2]%Z [0; 1]%Z = Err IndexError.
Proof.
  split; [exact trans_mat_init_shape|].
  split; [exact emiss_state_init_shape|].
  split; [|split; [|split; reflexivity]].
  - intros sequence K Hseq.
    destruct (trans_mat_init_written (F := F) sequence K Hseq)
      as [m [Hrun [Hm Hval]]].
    exists m. split; [exact Hrun|]. split; [exact Hm|]. split.
    + intros a b Hab. rewrite (Hval a b Hab).
      rewrite (Counter_counts tuple_eqb tuple_eqb_eq), occurrences_tuples.
      now rewrite (Counter_counts Z.eqb Z.eqb_eq).
    + intros i j Hnot.
      exact (trans_mat_init_untouched sequence K m i j Hseq Hrun Hnot).
  - intros hid_seq obs_seq K L Hhid Hobs.
    destruct (emiss_state_init_written (F := F) hid_seq obs_seq K L Hhid Hobs)
      as [m [Hrun [Hm Hval]]].
    exists m. split; [exact Hrun|]. split; [exact Hm|]. split.
    + intros h o Hho. rewrite (Hval h o Hho).
      rewrite (Counter_counts pair_eqb pair_eqb_eq).
      now rewrite (Counter_counts Z.eqb Z.eqb_eq).
    + intros i j Hnot.
      exact (emiss_state_init_untouched hid_seq obs_seq K L m i j
               Hhid Hobs Hrun Hnot).
Qed.

Lemma initializers_size_by_distinct_values_witness :
  (forall v, In v [0; 1; 1; 0; 1]%Z <-> (0 <= v < Z.of_nat 2)%Z)
  /\ (forall v, In v [0; 2; 1; 0; 1]%Z <-> (0 <= v < Z.of_nat 3)%Z)
  /\ (exists m : @matrix Qc,
        trans_mat_init [0; 1; 1; 0; 1]%Z = Ok m /\ is_matrix 2 2 m
        /\ (forall a b,
              In (a, b) (combine [0; 1; 1; 0; 1]%Z (tl [0; 1; 1; 0; 1]%Z)) ->
              entry m (Z.to_nat a) (Z.to_nat b)
              = div (of_Z (occurrences pair_eqb (a, b)
                             (combine [0; 1; 1; 0; 1]%Z
                                      (tl [0; 1; 1; 0; 1]%Z))))
                    (of_Z (occurrences Z.eqb a [0; 1; 1; 0; 1]%Z)))
        /\ (forall i j,
              ~ In (Z.of_nat i, Z.of_nat j)
                   (combine [0; 1; 1; 0; 1]%Z (tl [0; 1; 1; 0; 1]%Z)) ->
              entry m i j = zero))
  /\ (exists m : @matrix Qc,
        emiss_state_init [0; 1; 1; 0; 1]%Z [0; 2; 1; 0; 1]%Z = Ok m
        /\ is_matrix 2 3 m
        /\ (forall h o,
              In (h, o) (combine [0; 1; 1; 0; 1]%Z [0; 2; 1; 0; 1]%Z) ->
              entry m (Z.to_nat h) (Z.to_nat o)
              = div (of_Z (occurrences pair_eqb (h, o)
                             (combine [0; 1; 1; 0; 1]%Z
                                      [0; 2; 1; 0; 1]%Z)))
                    (of_Z (occurrences Z.eqb h [0; 1; 1; 0; 1]%Z)))
        /\ (forall i j,
              ~ In (Z.of_nat i, Z.of_nat j)
                   (combine [0; 1; 1; 0; 1]%Z [0; 2; 1; 0; 1]%Z) ->
              entry m i j = zero)).
Proof.
  assert (H : forall v, In v [0; 1; 1; 0; 1]%Z <-> (0 <= v < Z.of_nat 2)%Z)
    by (intros v; simpl; lia).
  assert (H' : forall v, In v [0; 2; 1; 0; 1]%Z <-> (0 <= v < Z.of_nat 3)%Z)
    by (intros v; simpl; lia).
  split; [exact H|]. split; [exact H'|]. split.
  - exact (proj1 (proj2 (proj2
             (@initializers_size_by_distinct_values Qc Qc_Num)))
             [0; 1; 1; 0; 1]%Z 2 H).
  - exact (proj1 (proj2 (proj2 (proj2
             (@initializers_size_by_distinct_values Qc Qc_Num))))
             [0; 1; 1; 0; 1]%Z [0; 2; 1; 0; 1]%Z 2 3 H H').
Defined.

(** *** The dictionary of [hidden_state_init] *)

Lemma foldM_pure {S X : Type} (f : S -> X -> result S) (h : S -> X -> S)
  (l : list X) :
  (forall s x, In x l -> f s x = Ok (h s x)) ->
  forall s, foldM f l s = Ok (fold_left h l s).
Proof.
  induction l as [|x l IH]; intros Hf s; simpl; [reflexivity|].
  rewrite Hf by now left. simpl. apply IH.
  intros s' x' Hx'. apply Hf. now right.
Qed.

Section DictFacts.
Context {V : Type}.

Lemma dict_set_keys (k k' : Z) (v : V) (d : list (Z * V)) :
  In k' (map fst (dict_set Z.eqb k v d)) <-> k' = k \/ In k' (map fst d).
Proof.
  induction d as [|[k0 v0] d IH]; simpl.
  - intuition.
  - destruct (Z.eqb_spec k0 k) as [->|Hne]; simpl.
    + intuition.
    + rewrite IH. intuition.
Qed.

Lemma dict_set_NoDup (k : Z) (v : V) (d : list (Z * V)) :
  NoDup (map fst d) -> NoDup (map fst (dict_set Z.eqb k v d)).
Proof.
  induction d as [|[k0 v0] d IH]; simpl; intros Hd.
  - constructor; [intros [] | constructor].
  - inversion Hd as [|? ? Hk0 Hd']; subst.
    destruct (Z.eqb_spec k0 k) as [->|Hne]; simpl; constructor; auto.
    rewrite dict_set_keys. intros [E|E]; [congruence | contradiction].
Qed.

Lemma dict_set_Forall (P : Z * V -> Prop) (k : Z) (v : V)
  (d : list (Z * V)) :
  Forall P d -> P (k, v) -> Forall P (dict_set Z.eqb k v d).
Proof.
  induction d as [|[k0 v0] d IH]; simpl; intros Hd Hkv.
  - now constructor.
  - inversion Hd; subst.
    destruct (Z.eqb_spec k0 k) as [->|Hne]; constructor; auto.
Qed.

Lemma dict_from_list (q : Z -> V) (l : list Z) :
  forall d : list (Z * V),
    NoDup (map fst d) -> Forall (fun kv => snd kv = q (fst kv)) d ->
    let d' := fold_left (fun d c => dict_set Z.eqb c (q c) d) l d in
    NoDup (map fst d')
    /\ Forall (fun kv => snd kv = q (fst kv)) d'
    /\ forall k, In k (map fst d') <-> In k l \/ In k (map fst d).
Proof.
  induction l as [|c l IH]; intros d Hnd Hq; simpl.
  - intuition.
  - destruct (IH (dict_set Z.eqb c (q c) d)) as [H1 [H2 H3]].
    + now apply dict_set_NoDup.
    + now apply dict_set_Forall.
    + split; [exact H1|]. split; [exact H2|].
      intros k. rewrite H3, dict_set_keys. intuition.
Qed.

Lemma insert_sorted_In (kv x : Z * V) (l : list (Z * V)) :
  In x (insert_sorted kv l) <-> x = kv \/ In x l.
Proof.
  induction l as [|kv' l IH]; simpl.
  - intuition.
  - destruct (fst kv <=? fst kv')%Z; simpl; [intuition|].
    rewrite IH. intuition.
Qed.

Lemma insert_sorted_sorted (kv : Z * V) (l : list (Z * V)) :
  StronglySorted key_lt l -> ~ In (fst kv) (map fst l) ->
  StronglySorted key_lt (insert_sorted kv l).
Proof.
  induction 1 as [|kv' l Hl IH Hall]; simpl; intros Hfresh.
  - constructor; constructor.
  - destruct (Z.leb_spec (fst kv) (fst kv')) as [Hle|Hgt].
    + assert (Hlt : key_lt kv kv') by (unfold key_lt; lia).
      constructor; [now constructor|].
      constructor; [exact Hlt|].
      eapply Forall_impl; [|exact Hall].
      intros x Hx. unfold key_lt in *. lia.
    + constructor; [apply IH; tauto|].
      apply Forall_forall. intros x Hx.
      apply insert_sorted_In in Hx. destruct Hx as [->|Hx].
      * unfold key_lt. lia.
      * rewrite Forall_forall in Hall. now apply Hall.
Qed.

Lemma sorted_items_In (x : Z * V) (d : list (Z * V)) :
  In x (sorted_items d) <-> In x d.
Proof.
  induction d as [|kv d IH]; simpl; [reflexivity|].
  rewrite insert_sorted_In, IH. intuition.
Qed.

Lemma sorted_items_sorted (d : list (Z * V)) :
  NoDup (map fst d) -> StronglySorted key_lt (sorted_items d).
Proof.
  induction d as [|kv d IH]; intros Hd; simpl in *; [constructor|].
  inversion Hd as [|? ? Hfresh Hd']; subst.
  apply insert_sorted_sorted; [now apply IH|].
  intros Hin. apply Hfresh. apply in_map_iff in Hin.
  destruct Hin as [x [Hx Hin]]. apply (proj1 (sorted_items_In x d)) in Hin.
  apply in_map_iff. now exists x.
Qed.

Lemma key_lt_map_fst (l : list (Z * V)) :
  StronglySorted key_lt l -> StronglySorted Z.lt (map fst l).
Proof.
  induction 1 as [|kv l Hl IH Hall]; simpl; constructor; [assumption|].
  apply Forall_map. exact Hall.
Qed.

End DictFacts.

(** X19.  [hidden_state_init] keys its dictionary by the counts of the
    states, not by the states.  For every sequence it returns, in ascending
    order of count, one entry [c / len(sequence)] for each distinct number
    [c] of occurrences of a state: states that occur equally often share one
    entry. *)
Theorem hidden_state_init_one_entry_per_count {F : Type} {NF : Num F}
  (sequence : list Z) :
  exists ks : list Z,
    StronglySorted Z.lt ks
    /\ (forall c, In c ks
                  <-> exists s, In s sequence
                                /\ c = occurrences Z.eqb s sequence)
    /\ hidden_state_init (F := F) sequence
       = Ok (map (fun c => div (of_Z c)
                               (of_Z (Z.of_nat (length sequence)))) ks).
Proof.
  set (q := fun c : Z => div (of_Z c) (of_Z (Z.of_nat (length sequence))) : F).
  set (counts := map snd (Counter Z.eqb sequence)).
  set (D := fold_left (fun d c => dict_set Z.eqb c (q c) d) counts []).
  destruct (dict_from_list q counts [] (NoDup_nil _) (Forall_nil _))
    as [Hnd [Hq Hkeys]].
  fold D in Hnd, Hq, Hkeys.
  exists (map fst (sorted_items D)). split; [|split].
  - apply key_lt_map_fst. now apply sorted_items_sorted.
  - intros c. rewrite in_map_iff. split.
    + intros [[k v] [Hk Hin]]. simpl in Hk. subst k.
      apply (proj1 (sorted_items_In (c, v) D)) in Hin.
      assert (Hc : In c (map fst D))
        by (apply in_map_iff; now exists (c, v)).
      apply (proj1 (Hkeys c)) in Hc. destruct Hc as [Hc|[]].
      unfold counts in Hc. apply in_map_iff in Hc.
      destruct Hc as [[s c'] [Hs Hin']]. simpl in Hs. subst c'.
      exists s. split.
      * apply (Counter_keys Z.eqb). apply in_map_iff. now exists (s, c).
      * exact (Counter_item Z.eqb Z.eqb_eq sequence s c Hin').
    + intros [s [Hs ->]].
      assert (Hc : In (occurrences Z.eqb s sequence) (map fst D)).
      { apply (proj2 (Hkeys _)). left. unfold counts. apply in_map_iff.
        exists (s, occurrences Z.eqb s sequence). split; [reflexivity|].
        now apply (Counter_item_of Z.eqb Z.eqb_eq). }
      apply in_map_iff in Hc. destruct Hc as [[k v] [Hk Hin]].
      exists (k, v). split; [exact Hk|].
      now apply (proj2 (sorted_items_In (k, v) D)).
  - unfold hidden_state_init. fold counts.
    rewrite (foldM_pure _ (fun d c => dict_set Z.eqb c (q c) d)).
    + fold D. simpl bind. f_equal. rewrite map_map.
      apply map_ext_in. intros [k v] Hin. simpl.
      apply (proj1 (sorted_items_In (k, v) D)) in Hin.
      rewrite Forall_forall in Hq.
      exact (Hq (k, v) Hin).
    + intros d c Hc. unfold q.
      rewrite py_truediv_ok; [reflexivity|].
      unfold counts in Hc. apply in_map_iff in Hc.
      destruct Hc as [[s c'] [_ Hin]].
      assert (Hs : In s sequence).
      { apply (Counter_keys Z.eqb). apply in_map_iff. now exists (s, c'). }
      destruct sequence; [contradiction | simpl; lia].
Qed.

(** *** Which values the initialisers accept as indices *)

Lemma py_index_inside (len : nat) (i : Z) :
  inside len i -> exists j, py_index len i = Ok j /\ j < len.
Proof.
  unfold inside. intros Hi. destruct (Z.lt_ge_cases i 0) as [Hneg|Hpos].
  - exists (len - Z.to_nat (- i)).
    replace i with (- Z.of_nat (Z.to_nat (- i)))%Z at 1 by lia.
    rewrite py_index_neg by lia. split; [reflexivity | lia].
  - exists (Z.to_nat i). rewrite py_index_Z by lia.
    split; [reflexivity | lia].
Qed.

Lemma py_index_outside (len : nat) (i : Z) :
  ~ inside len i -> py_index len i = Err IndexError.
Proof.
  unfold inside. intros Hi. unfold py_index.
  destruct (Z.leb_spec 0 i), (Z.ltb_spec i (Z.of_nat len)),
    (Z.leb_spec (- Z.of_nat len) i), (Z.ltb_spec i 0);
    simpl; try reflexivity; lia.
Qed.

Lemma tensor_index_inside (len : nat) (i : Z) :
  inside len i -> exists j, tensor_index len i = Ok j /\ j < len.
Proof.
  intros Hi. destruct (py_index_inside len i Hi) as [j [E Hj]].
  exists j. unfold tensor_index. now rewrite E.
Qed.

Lemma tensor_index_outside (len : nat) (i : Z) :
  ~ inside len i ->
  tensor_index len i = Err (if fits_int64 i then IndexError else ValueError).
Proof.
  intros Hi. unfold tensor_index. rewrite py_index_outside by assumption.
  now destruct (fits_int64 i).
Qed.

Section WritesRange.
Context {F : Type} {NF : Num F}.

Lemma set_entry_inside (n c : nat) (m : @matrix F) (k0 k1 : Z) (x : F) :
  is_matrix n c m -> inside n k0 -> inside c k1 ->
  exists m', set_entry m k0 k1 x = Ok m'.
Proof.
  intros Hm H0 H1. unfold set_entry.
  assert (Hlen : length m = n) by now destruct Hm.
  destruct (tensor_index_inside n k0 H0) as [i [Ei Hi]].
  unfold matrix in *. rewrite Hlen, Ei. simpl.
  rewrite (is_matrix_row n c m i Hm Hi).
  destruct (tensor_index_inside c k1 H1) as [j [Ej Hj]].
  rewrite Ej. simpl. now eexists.
Qed.

(** A write outside the table raises: [IndexError] when both indices fit
    int64, [ValueError] when the index that is outside does not. *)
Lemma set_entry_outside (n c : nat) (m : @matrix F) (k0 k1 : Z) (x : F) :
  is_matrix n c m -> ~ (inside n k0 /\ inside c k1) ->
  exists e,
    set_entry m k0 k1 x = Err e
    /\ (fits_int64 k0 = true -> fits_int64 k1 = true -> e = IndexError)
    /\ (inside n k0 \/ fits_int64 k0 = false ->
        inside c k1 \/ fits_int64 k1 = false -> e = ValueError).
Proof.
  intros Hm Hout. unfold set_entry.
  assert (Hlen : length m = n) by now destruct Hm.
  assert (Hdec : inside n k0 \/ ~ inside n k0) by (unfold inside; lia).
  unfold matrix in *. rewrite Hlen.
  destruct Hdec as [H0|H0].
  - destruct (tensor_index_inside n k0 H0) as [i [Ei Hi]].
    rewrite Ei. simpl. rewrite (is_matrix_row n c m i Hm Hi).
    assert (H1 : ~ inside c k1) by tauto.
    rewrite (tensor_index_outside c k1 H1). simpl.
    eexists. split; [reflexivity|]. split.
    + intros _ E1. now rewrite E1.
    + intros _ [E1|E1]; [contradiction | now rewrite E1].
  - rewrite (tensor_index_outside n k0 H0). simpl.
    eexists. split; [reflexivity|]. split.
    + intros E0 _. now rewrite E0.
    + intros [E0|E0] _; [contradiction | now rewrite E0].
Qed.

(** A run of writes succeeds when every position is inside the table;
    otherwise it ends with the exception of one write outside the table. *)
Lemma foldM_writes_range {X : Type} (key0 key1 : X -> result Z)
  (val : X -> F) (kp : X -> Z * Z) (n c : nat) (l : list X) :
  Forall (fun kv => key0 kv = Ok (fst (kp kv))
                    /\ key1 kv = Ok (snd (kp kv))) l ->
  forall m : @matrix F,
    is_matrix n c m ->
    (Forall (fun kv => inside n (fst (kp kv)) /\ inside c (snd (kp kv))) l ->
     exists m',
       foldM (fun m kv => k0 <- key0 kv ;; k1 <- key1 kv ;;
                          set_entry m k0 k1 (val kv)) l m = Ok m')
    /\ (Exists (fun kv => ~ (inside n (fst (kp kv))
                             /\ inside c (snd (kp kv)))) l ->
        exists kv m1,
          In kv l
          /\ ~ (inside n (fst (kp kv)) /\ inside c (snd (kp kv)))
          /\ is_matrix n c m1
          /\ foldM (fun m kv => k0 <- key0 kv ;; k1 <- key1 kv ;;
                                set_entry m k0 k1 (val kv)) l m
             = set_entry m1 (fst (kp kv)) (snd (kp kv)) (val kv)).
Proof.
  induction 1 as [|kv l [E0 E1] Hl IH]; intros m Hm.
  - split; [intros _; now exists m|]. intros Hex. inversion Hex.
  - simpl. rewrite E0, E1. simpl.
    assert (Hdec : (inside n (fst (kp kv)) /\ inside c (snd (kp kv)))
                   \/ ~ (inside n (fst (kp kv)) /\ inside c (snd (kp kv))))
      by (unfold inside; lia).
    destruct Hdec as [[H0 H1]|Hbad].
    + destruct (set_entry_inside n c m _ _ (val kv) Hm H0 H1) as [m1 E].
      rewrite E. simpl.
      pose proof (set_entry_shape n c m m1 _ _ _ Hm E) as Hm1.
      destruct (IH m1 Hm1) as [IHok IHerr]. split.
      * intros Hall. apply IHok. now inversion Hall.
      * intros Hex.
        assert (Htail : Exists (fun kv => ~ (inside n (fst (kp kv))
                                             /\ inside c (snd (kp kv)))) l).
        { inversion Hex as [? ? Hhead|? ? Htail]; subst;
            [exfalso; apply Hhead; now split | assumption]. }
        destruct (IHerr Htail) as [kv' [m2 [Hin [Hbad [Hm2 Hrun]]]]].
        exists kv', m2. split; [now right|]. now split.
    + split.
      * intros Hall. exfalso. apply Hbad. now inversion Hall.
      * intros _. exists kv, m. split; [now left|]. split; [assumption|].
        split; [assumption|].
        destruct (set_entry_outside n c m _ _ (val kv) Hm Hbad)
          as [e [He _]].
        rewrite He. reflexivity.
Qed.

End WritesRange.

(** X20.  [trans_mat_init] uses the state values themselves as row and
    column indices of a table that has one row and one column per distinct
    value.  It returns a table when every state that has a neighbour in the
    sequence is an index Python accepts for that size (negative values count
    from the end).  When one is not, it raises [IndexError] if all these
    states fit int64, and [ValueError] if each of them is inside the table
    or does not fit int64. *)
Theorem trans_mat_init_index_range {F : Type} {NF : Num F}
  (sequence : list Z) :
  (Forall (fun p => inside (set_length sequence) (fst p)
                    /\ inside (set_length sequence) (snd p))
          (combine sequence (tl sequence)) ->
   exists m : @matrix F, trans_mat_init sequence = Ok m)
  /\ (Exists (fun p => ~ (inside (set_length sequence) (fst p)
                          /\ inside (set_length sequence) (snd p)))
             (combine sequence (tl sequence)) ->
      Forall (fun p => fits_int64 (fst p) = true
                       /\ fits_int64 (snd p) = true)
             (combine sequence (tl sequence)) ->
      trans_mat_init (F := F) sequence = Err IndexError)
  /\ (Exists (fun p => ~ (inside (set_length sequence) (fst p)
                          /\ inside (set_length sequence) (snd p)))
             (combine sequence (tl sequence)) ->
      Forall (fun p => (inside (set_length sequence) (fst p)
                        \/ fits_int64 (fst p) = false)
                       /\ (inside (set_length sequence) (snd p)
                           \/ fits_int64 (snd p) = false))
             (combine sequence (tl sequence)) ->
      trans_mat_init (F := F) sequence = Err ValueError).
Proof.
  unfold trans_mat_init. rewrite pair_loop_pairs.
  set (pairs := combine sequence (tl sequence)).
  set (ts := Counter tuple_eqb _).
  assert (Hts : forall key val, In (key, val) ts ->
              exists x y, key = [x; y] /\ In (x, y) pairs).
  { intros key val Hin.
    assert (Hkey : In key (map (fun p => [fst p; snd p]) pairs)).
    { apply (Counter_keys tuple_eqb). apply in_map_iff.
      exists (key, val). now split. }
    apply in_map_iff in Hkey. destruct Hkey as [[x y] [<- Hxy]].
    now exists x, y. }
  set (h := fun kv : list Z * Z =>
              (fst kv,
               div (of_Z (snd kv))
                   (of_Z (counter_get Z.eqb (Counter Z.eqb sequence)
                            (nth 0 (fst kv) 0%Z))) : F)).
  rewrite (mapM_ok _ h).
  2:{ intros [key val] Hin. simpl.
      destruct (Hts _ _ Hin) as [x [y [-> Hxy]]].
      replace (py_get [x; y] 0) with (Ok x) by reflexivity. simpl bind.
      rewrite py_truediv_ok; [reflexivity|].
      apply Counter_count_positive. eapply in_combine_l. exact Hxy. }
  simpl bind.
  set (kp := fun kv : list Z * F => (nth 0 (fst kv) 0%Z, nth 1 (fst kv) 0%Z)).
  assert (Hkv : forall kv, In kv (map h ts) -> In (kp kv) pairs).
  { intros kv Hin. apply in_map_iff in Hin.
    destruct Hin as [[key val] [<- Hin]].
    destruct (Hts _ _ Hin) as [x [y [-> Hxy]]]. exact Hxy. }
  destruct (foldM_writes_range
              (fun kv : list Z * F => py_get (fst kv) 0)
              (fun kv => py_get (fst kv) 1) snd kp
              (set_length sequence) (set_length sequence) (map h ts))
    with (m := zeros (F := F) (set_length sequence) (set_length sequence))
    as [Hok Herr].
  { apply Forall_forall. intros kv Hin. apply in_map_iff in Hin.
    destruct Hin as [[key val] [<- Hin]].
    destruct (Hts _ _ Hin) as [x [y [-> _]]]. split; reflexivity. }
  { apply zeros_is_matrix. }
  assert (Hex' : Exists (fun p => ~ (inside (set_length sequence) (fst p)
                                     /\ inside (set_length sequence) (snd p)))
                        pairs ->
                 Exists (fun kv => ~ (inside (set_length sequence) (fst (kp kv))
                                      /\ inside (set_length sequence)
                                           (snd (kp kv))))
                        (map h ts)).
  { intros Hex. apply Exists_exists in Hex.
    destruct Hex as [[x y] [Hxy Hbad]]. apply Exists_exists.
    exists (h ([x; y], occurrences tuple_eqb [x; y]
                         (map (fun p => [fst p; snd p]) pairs))).
    split; [|exact Hbad].
    apply in_map. apply (Counter_item_of tuple_eqb tuple_eqb_eq).
    apply in_map_iff. now exists (x, y). }
  split; [|split].
  - intros Hall. apply Hok. apply Forall_forall. intros kv Hin.
    rewrite Forall_forall in Hall. exact (Hall (kp kv) (Hkv kv Hin)).
  - intros Hex Hfit.
    destruct (Herr (Hex' Hex)) as [kv [m1 [Hin [Hbad [Hm1 Hrun]]]]].
    rewrite Hrun.
    destruct (set_entry_outside _ _ m1 _ _ (snd kv) Hm1 Hbad)
      as [e [He [HI _]]].
    rewrite He. f_equal. rewrite Forall_forall in Hfit.
    destruct (Hfit (kp kv) (Hkv kv Hin)). now apply HI.
  - intros Hex Hbig.
    destruct (Herr (Hex' Hex)) as [kv [m1 [Hin [Hbad [Hm1 Hrun]]]]].
    rewrite Hrun.
    destruct (set_entry_outside _ _ m1 _ _ (snd kv) Hm1 Hbad)
      as [e [He [_ HV]]].
    rewrite He. f_equal. rewrite Forall_forall in Hbig.
    destruct (Hbig (kp kv) (Hkv kv Hin)). now apply HV.
Qed.

Lemma trans_mat_init_index_range_witness :
  (exists m : @matrix Qc, trans_mat_init [0; -1]%Z = Ok m)
  /\ trans_mat_init (F := Qc) [0; 2]%Z = Err IndexError
  /\ trans_mat_init (F := Qc) [0; 2 ^ 70]%Z = Err ValueError.
Proof.
  split; [|split].
  - apply (proj1 (@trans_mat_init_index_range Qc Qc_Num [0; -1]%Z)).
    repeat constructor; unfold inside; simpl; lia.
  - apply (proj1 (proj2 (@trans_mat_init_index_range Qc Qc_Num [0; 2]%Z))).
    + apply Exists_cons_hd. unfold inside. simpl. lia.
    + repeat constructor.
  - apply (proj2 (proj2 (@trans_mat_init_index_range Qc Qc_Num
                           [0; 2 ^ 70]%Z))).
    + apply Exists_cons_hd. unfold inside. simpl. lia.
    + apply Forall_cons; [|apply Forall_nil]. split.
      * left. unfold inside. simpl. lia.
      * right. reflexivity.
Defined.

(** X21.  [emiss_state_init] uses the hidden values as row indices and the
    observed values as column indices of a table sized by the numbers of
    distinct values.  It returns a table when every pair of
    [zip(hid_seq, obs_seq)] is a pair of indices Python accepts for that
    shape.  When one is not, it raises [IndexError] if all the paired values
    fit int64, and [ValueError] if each of them is inside the table or does
    not fit int64. *)
Theorem emiss_state_init_index_range {F : Type} {NF : Num F}
  (hid_seq obs_seq : list Z) :
  (Forall (fun p => inside (set_length hid_seq) (fst p)
                    /\ inside (set_length obs_seq) (snd p))
          (combine hid_seq obs_seq) ->
   exists m : @matrix F, emiss_state_init hid_seq obs_seq = Ok m)
  /\ (Exists (fun p => ~ (inside (set_length hid_seq) (fst p)
                          /\ inside (set_length obs_seq) (snd p)))
             (combine hid_seq obs_seq) ->
      Forall (fun p => fits_int64 (fst p) = true
                       /\ fits_int64 (snd p) = true)
             (combine hid_seq obs_seq) ->
      emiss_state_init (F := F) hid_seq obs_seq = Err IndexError)
  /\ (Exists (fun p => ~ (inside (set_length hid_seq) (fst p)
                          /\ inside (set_length obs_seq) (snd p)))
             (combine hid_seq obs_seq) ->
      Forall (fun p => (inside (set_length hid_seq) (fst p)
                        \/ fits_int64 (fst p) = false)
                       /\ (inside (set_length obs_seq) (snd p)
                           \/ fits_int64 (snd p) = false))
             (combine hid_seq obs_seq) ->
      emiss_state_init (F := F) hid_seq obs_seq = Err ValueError).
Proof.
  unfold emiss_state_init. rewrite concat_singletons.
  set (cs := Counter pair_eqb (combine hid_seq obs_seq)).
  assert (Hcs : forall key val, In (key, val) cs ->
              In key (combine hid_seq obs_seq)).
  { intros key val Hin. apply (Counter_keys pair_eqb). apply in_map_iff.
    exists (key, val). now split. }
  set (f := fun kv : Z * Z * Z =>
              (fst kv,
               div (of_Z (counter_get pair_eqb cs (fst kv)))
                   (of_Z (counter_get Z.eqb (Counter Z.eqb hid_seq)
                            (fst (fst kv)))) : F)).
  rewrite (mapM_ok _ f).
  2:{ intros [[x y] val] Hin. simpl.
      rewrite py_truediv_ok; [reflexivity|].
      apply Counter_count_positive. eapply in_combine_l.
      exact (Hcs _ _ Hin). }
  simpl bind.
  assert (Hkv : forall kv, In kv (map f cs) ->
              In (fst kv) (combine hid_seq obs_seq)).
  { intros kv Hin. apply in_map_iff in Hin.
    destruct Hin as [[key val] [<- Hin]]. exact (Hcs _ _ Hin). }
  destruct (foldM_writes_range
              (fun kv : Z * Z * F => Ok (fst (fst kv)))
              (fun kv => Ok (snd (fst kv))) snd fst
              (set_length hid_seq) (set_length obs_seq) (map f cs))
    with (m := zeros (F := F) (set_length hid_seq) (set_length obs_seq))
    as [Hok Herr].
  { apply Forall_forall. intros kv _. split; reflexivity. }
  { apply zeros_is_matrix. }
  assert (Hex' : Exists (fun p => ~ (inside (set_length hid_seq) (fst p)
                                     /\ inside (set_length obs_seq) (snd p)))
                        (combine hid_seq obs_seq) ->
                 Exists (fun kv : Z * Z * F =>
                           ~ (inside (set_length hid_seq) (fst (fst kv))
                              /\ inside (set_length obs_seq) (snd (fst kv))))
                        (map f cs)).
  { intros Hex. apply Exists_exists in Hex.
    destruct Hex as [[x y] [Hxy Hbad]]. apply Exists_exists.
    exists (f (x, y, occurrences pair_eqb (x, y) (combine hid_seq obs_seq))).
    split; [|exact Hbad].
    apply in_map. now apply (Counter_item_of pair_eqb pair_eqb_eq). }
  split; [|split].
  - intros Hall. apply Hok. apply Forall_forall. intros kv Hin.
    rewrite Forall_forall in Hall. exact (Hall (fst kv) (Hkv kv Hin)).
  - intros Hex Hfit.
    destruct (Herr (Hex' Hex)) as [kv [m1 [Hin [Hbad [Hm1 Hrun]]]]].
    destruct (set_entry_outside _ _ m1 _ _ (snd kv) Hm1 Hbad)
      as [e [He [HI _]]].
    rewrite He in Hrun. etransitivity; [exact Hrun|]. f_equal. rewrite Forall_forall in Hfit.
    destruct (Hfit (fst kv) (Hkv kv Hin)). now apply HI.
  - intros Hex Hbig.
    destruct (Herr (Hex' Hex)) as [kv [m1 [Hin [Hbad [Hm1 Hrun]]]]].
    destruct (set_entry_outside _ _ m1 _ _ (snd kv) Hm1 Hbad)
      as [e [He [_ HV]]].
    rewrite He in Hrun. etransitivity; [exact Hrun|]. f_equal. rewrite Forall_forall in Hbig.
    destruct (Hbig (fst kv) (Hkv kv Hin)). now apply HV.
Qed.

Lemma emiss_state_init_index_range_witness :
  (exists m : @matrix Qc, emiss_state_init [0; -1]%Z [1; 0]%Z = Ok m)
  /\ emiss_state_init (F := Qc) [0; 1]%Z [0; 2]%Z = Err IndexError
  /\ emiss_state_init (F := Qc) [0; 1]%Z [0; 2 ^ 70]%Z = Err ValueError.
Proof.
  split; [|split].
  - apply (proj1 (@emiss_state_init_index_range Qc Qc_Num
                    [0; -1]%Z [1; 0]%Z)).
    repeat constructor; unfold inside; simpl; lia.
  - apply (proj1 (proj2 (@emiss_state_init_index_range Qc Qc_Num
                           [0; 1]%Z [0; 2]%Z))).
    + apply Exists_cons_tl, Exists_cons_hd. unfold inside. simpl. lia.
    + repeat constructor.
  - apply (proj2 (proj2 (@emiss_state_init_index_range Qc Qc_Num
                           [0; 1]%Z [0; 2 ^ 70]%Z))).
    + apply Exists_cons_tl, Exists_cons_hd. unfold inside. simpl. lia.
    + apply Forall_cons; [|apply Forall_cons; [|apply Forall_nil]]; split.
      * left. unfold inside. simpl. lia.
      * left. unfold inside. simpl. lia.
      * left. unfold inside. simpl. lia.
      * right. reflexivity.
Defined.

(** ** Symbols written as negative indices *)

Section NegativeSymbols.
Context {F : Type} {NF : Num F}.
Variables (g g' : globals F) (B : @matrix F) (log : bool) (M : nat).
Hypothesis HB : ncols B = M.
Hypothesis HA : A g' = A g.

Lemma col_wraps (o : Z) :
  (0 <= o < Z.of_nat M)%Z -> col B (o - Z.of_nat M) = col B o.
Proof.
  intros Ho. unfold col. rewrite HB.
  replace (o - Z.of_nat M)%Z with (- Z.of_nat (M - Z.to_nat o))%Z by lia.
  rewrite py_index_neg by lia. rewrite py_index_Z by assumption.
  simpl. do 2 f_equal. lia.
Qed.

Lemma forward_step_wraps (al : @matrix F) (i : nat) (o : Z) :
  (0 <= o < Z.of_nat M)%Z ->
  forward_step g' B log al (i, (o - Z.of_nat M)%Z)
  = forward_step g B log al (i, o).
Proof.
  intros Ho. unfold forward_step. cbn [fst snd].
  now rewrite HA, col_wraps.
Qed.

Lemma forward_loop_wraps (os : list Z) :
  Forall (fun o => (0 <= o < Z.of_nat M)%Z) os ->
  forall (k : nat) (al : @matrix F),
    foldM (forward_step g' B log)
          (combine (seq k (length os))
                   (map (fun o => (o - Z.of_nat M)%Z) os)) al
    = foldM (forward_step g B log) (combine (seq k (length os)) os) al.
Proof.
  induction 1 as [|o os Ho Hos IH]; intros k al; simpl; [reflexivity|].
  rewrite forward_step_wraps by assumption.
  destruct (forward_step g B log al (k, o)); simpl; [apply IH | reflexivity].
Qed.

End NegativeSymbols.

(** X22.  [forward] uses each symbol as a column index of the emission
    matrix and never checks its sign: a symbol [o - M], with [M] the number
    of columns and [0 <= o < M], selects the same column as [o], so a
    sequence written with negative symbols yields the same table (or the
    same exception). *)
Theorem forward_negative_symbols_wrap {F : Type} {NF : Num F}
  (g g' : globals F) (B : @matrix F) (log : bool) (M : nat) :
  ncols B = M ->
  pi g' = pi g -> A g' = A g -> alpha g' = alpha g ->
  Forall (fun o => (0 <= o < Z.of_nat M)%Z) (obs_sequence g) ->
  obs_sequence g' = map (fun o => (o - Z.of_nat M)%Z) (obs_sequence g) ->
  rmap snd (forward g' B log) = rmap snd (forward g B log).
Proof.
  intros HB Hpi HA Hal Hobs Hobs'. unfold forward.
  rewrite Hobs', Hpi, Hal.
  destruct (obs_sequence g) as [|o0 os]; [reflexivity|].
  pose proof (Forall_inv Hobs) as Ho0. pose proof (Forall_inv_tail Hobs) as Hos.
  simpl in Ho0. simpl map. simpl tl.
  replace (py_get ((o0 - Z.of_nat M)%Z
                     :: map (fun o => (o - Z.of_nat M)%Z) os) 0)
    with (Ok (o0 - Z.of_nat M)%Z) by reflexivity.
  replace (py_get (o0 :: os) 0) with (Ok o0) by reflexivity.
  simpl bind. rewrite (col_wraps B M HB o0 Ho0).
  destruct (col B o0) as [b0|e]; simpl; [|reflexivity].
  destruct (vmul (pi g) b0) as [a0|e]; simpl; [|reflexivity].
  destruct (set_col (alpha g) 0 (scaled log a0)) as [al0|e]; simpl;
    [|reflexivity].
  unfold enumerate. rewrite length_map.
  rewrite (forward_loop_wraps g g' B log M HB HA os Hos).
  destruct (foldM _ _ al0) as [al|e]; reflexivity.
Qed.

Lemma forward_negative_symbols_wrap_witness :
  rmap snd (forward negative_symbol_globals
              (emission_matrix example_globals) false)
  = rmap snd (forward example_globals
                (emission_matrix example_globals) false).
Proof.
  apply (forward_negative_symbols_wrap example_globals
           negative_symbol_globals (emission_matrix example_globals)
           false 3).
  - reflexivity.
  - reflexivity.
  - reflexivity.
  - reflexivity.
  - repeat constructor; simpl; lia.
  - reflexivity.
Defined.
